(** * HiGHS: the branch-and-bound search driver and the minimal C entry point

    A shallow embedding of [src/mip/HighsSearch.cpp] (class [HighsSearch]) and
    of [src/interfaces/MinimalAPI.cpp] (function [callhighs]), together with
    the properties of the search driver that the specification states.

    Conventions of the embedding.
    - A C++ [double] is a binary64 float of the kernel ([PrimFloat.float]);
      [==], [<], [<=] are the IEEE comparisons, [+ - * /] round to nearest.
    - [HighsInt] and [int64_t] values are integers of [Z]; signed overflow is
      undefined behaviour in C++ and no function of the driver relies on it.
    - [std::vector<NodeData> nodestack] is a list whose HEAD is [back()]:
      [emplace_back] is a cons, [pop_back] drops the head, and
      [nodestack[size - 2]] is the second element.
    - Every member function is a computation in the monad [M]: it takes the
      [HighsSearch] object and returns a result with the updated object, or
      [None] where the C++ has no defined result ([back()] of an empty
      vector) or where a loop has used up its fuel.
    - The classes the driver only calls into (local domain, LP relaxation,
      pseudo-costs, pools, node queue, symmetry data) are not part of these
      sources.  Their state is one opaque value inside [World] and their
      member functions are the fields of the class [Collaborators]. *)

From Stdlib Require Import Ascii String.
From Stdlib Require Import ZArith List Bool Lia Floats.
From Stdlib Require Uint63.
Import ListNotations.
Open Scope Z_scope.

Set Implicit Arguments.

(* ================================================================= *)
(** ** Doubles *)

Definition double := float.

Definition kHighsInf : double := infinity.

Module Dbl.

(** [(double) z] for an integer of magnitude below 2^63. *)
Definition of_Z (z : Z) : double :=
  if z <? 0 then PrimFloat.opp (PrimFloat.of_uint63 (Uint63.of_Z (- z)))
  else PrimFloat.of_uint63 (Uint63.of_Z z).

(** [(int) x]: truncation toward zero (the conversion is undefined in C++
    for a value that the integer type cannot hold, and for NaN). *)
Definition to_Z (x : double) : Z :=
  match Prim2SF x with
  | S754_finite s m e =>
      let a := if 0 <=? e then Z.shiftl (Zpos m) e else Z.shiftr (Zpos m) (- e) in
      if s then - a else a
  | _ => 0
  end.

Definition two52 : double := 4503599627370496%float.

(** [std::floor]: doubles of magnitude 2^52 and more, infinities and NaN
    are returned as they are; below, the truncation is corrected downwards. *)
Definition floor (x : double) : double :=
  if (PrimFloat.abs x <? two52)%float then
    let t := of_Z (to_Z x) in
    if (x =? t)%float then x
    else if (x <? t)%float then (t - 1)%float else t
  else x.

(** [std::ceil]: the truncation is corrected upwards; a value between -1
    and 0 is rounded to the negative zero, as the sign of the argument is
    kept. *)
Definition ceil (x : double) : double :=
  if (PrimFloat.abs x <? two52)%float then
    let t := of_Z (to_Z x) in
    if (x =? t)%float then x
    else if (t <? x)%float then (t + 1)%float
    else if (t =? 0)%float then neg_zero else t
  else x.

(** [std::pow(0.5, n)] for an integer [n]: the power of two 2^(-n), which
    underflows to 0 and overflows to infinity. *)
Definition pow_half (n : Z) : double :=
  if n <? -1100 then infinity
  else if 1100 <? n then 0%float
  else Z.ldexp 1%float (- n).

(** [std::min(a, b)] is [(b < a) ? b : a]; [std::max(a, b)] is
    [(a < b) ? b : a]. *)
Definition min (a b : double) : double := if (b <? a)%float then b else a.
Definition max (a b : double) : double := if (a <? b)%float then b else a.

(** [a != b] and [a > b], [a >= b] on doubles. *)
Definition neqb (a b : double) : bool := negb (a =? b)%float.
Definition gtb (a b : double) : bool := (b <? a)%float.
Definition geb (a b : double) : bool := (b <=? a)%float.

End Dbl.

Definition HighsInt := Z.
Definition int64_t := Z.

(* ================================================================= *)
(** ** Domain changes and node results *)

Inductive HighsBoundType := kLower | kUpper.

Definition HighsBoundType_eqb (a b : HighsBoundType) : bool :=
  match a, b with
  | kLower, kLower | kUpper, kUpper => true
  | _, _ => false
  end.

(** [struct HighsDomainChange { double boundval; HighsInt column;
    HighsBoundType boundtype; }], in the order of the aggregate
    initialisers of the source ([{downval, col, HighsBoundType::kUpper}]). *)
Record HighsDomainChange := mkDomChg {
  boundval : double;
  column : HighsInt;
  boundtype : HighsBoundType
}.

(** [HighsSearch::NodeResult], the variants the specification lists. *)
Inductive NodeResult :=
| kOpen | kDomainInfeasible | kLpInfeasible | kBoundExceeding | kBranched
| kSubOptimal.

Definition NodeResult_eqb (a b : NodeResult) : bool :=
  match a, b with
  | kOpen, kOpen | kDomainInfeasible, kDomainInfeasible
  | kLpInfeasible, kLpInfeasible | kBoundExceeding, kBoundExceeding
  | kBranched, kBranched | kSubOptimal, kSubOptimal => true
  | _, _ => false
  end.

Inductive ChildSelectionRule :=
| kUp | kDown | kRootSol | kObj | kRandom | kBestCost | kWorstCost
| kDisjunction | kHybridInferenceCost.

(** [HighsNodeQueue::OpenNode], as [emplaceNode] receives its fields and
    [installNode] reads them. *)
Record OpenNode := mkOpenNode {
  on_domchgstack : list HighsDomainChange;
  on_branchings : list HighsInt;
  on_lower_bound : double;
  on_estimate : double;
  on_depth : HighsInt
}.

(** A dual proof: the index and value vectors and the right-hand side that
    [computeDualProof] and [computeDualInfProof] fill in. *)
Record DualProof := mkProof {
  pr_inds : list HighsInt;
  pr_vals : list double;
  pr_rhs : double
}.

(* ================================================================= *)
(** ** The world outside the driver *)

(** The counters of [HighsMipSolverData] that [flushStatistics] adds to and
    the iteration getters read, with the state of every collaborating
    object ([ext]): the local and the global domain, the LP relaxation, the
    pseudo-cost store, the conflict and cut pools, the node queue, the
    symmetry data, the random generator and the per-node reliability marks. *)
Record WorldOf (Ext : Type) := mkWorld {
  num_nodes : int64_t;
  pruned_treeweight : double;
  total_lp_iterations : int64_t;
  heuristic_lp_iterations : int64_t;
  sb_lp_iterations : int64_t;
  ext : Ext
}.

(** The member functions of the collaborating classes that the driver
    calls.  None of them is defined in these sources: each is a field, named
    after the C++ member, that takes the world and returns its result and,
    when the C++ member is not [const], the world it leaves. *)
Class Collaborators := {
  Ext : Type;
  HighsBasis : Type;
  StabilizerOrbits : Type;
  LpStatus : Type;

  (* HighsMipSolver and HighsMipSolverData *)
  numCol : WorldOf Ext -> HighsInt;
  colCost : WorldOf Ext -> HighsInt -> double;
  variableType_is_kInteger : WorldOf Ext -> HighsInt -> bool;
  submip : WorldOf Ext -> bool;
  feastol : WorldOf Ext -> double;
  epsilon : WorldOf Ext -> double;
  mip_upper_limit : WorldOf Ext -> double;
  rootlpsol : WorldOf Ext -> list double;
  integral_cols : WorldOf Ext -> list HighsInt;
  globalOrbits : WorldOf Ext -> option StabilizerOrbits;
  checkLimits : WorldOf Ext -> bool * WorldOf Ext;
  addIncumbent : list double -> double -> Ascii.ascii -> WorldOf Ext -> WorldOf Ext;
  debugSolution_nodePruned : WorldOf Ext -> WorldOf Ext;
  debugSolution_checkCut : DualProof -> WorldOf Ext -> WorldOf Ext;
  highsLogUser_warning : String.string -> WorldOf Ext -> WorldOf Ext;
  globaldom_infeasible : WorldOf Ext -> bool;
  globaldom_isBinary : WorldOf Ext -> HighsInt -> bool;

  (* HighsSymmetries and StabilizerOrbits *)
  symmetries_numPerms : WorldOf Ext -> HighsInt;
  symmetries_columnPosition : WorldOf Ext -> HighsInt -> HighsInt;
  computeStabilizerOrbits : WorldOf Ext -> option StabilizerOrbits * WorldOf Ext;
  orbitCols : StabilizerOrbits -> list HighsInt;
  isStabilized : StabilizerOrbits -> HighsInt -> bool;
  orbitalFixing : StabilizerOrbits -> WorldOf Ext -> HighsInt * WorldOf Ext;

  (* HighsNodeQueue *)
  numNodesUp : WorldOf Ext -> HighsInt -> int64_t;
  numNodesDown : WorldOf Ext -> HighsInt -> int64_t;
  emplaceNode : OpenNode -> WorldOf Ext -> WorldOf Ext;

  (* HighsDomain localdom *)
  changeBound : HighsDomainChange -> WorldOf Ext -> WorldOf Ext;
  propagate : WorldOf Ext -> WorldOf Ext;
  infeasible : WorldOf Ext -> bool;
  localdom_backtrack : WorldOf Ext -> WorldOf Ext;
  backtrackToGlobal : WorldOf Ext -> WorldOf Ext;
  getDomainChangeStack : WorldOf Ext -> list HighsDomainChange;
  getBranchingPositions : WorldOf Ext -> list HighsInt;
  getNumDomainChanges : WorldOf Ext -> HighsInt;
  getChangedCols : WorldOf Ext -> list HighsInt;
  clearChangedCols : WorldOf Ext -> WorldOf Ext;
  clearChangedCols_from : HighsInt -> WorldOf Ext -> WorldOf Ext;
  getReducedDomainChangeStack :
    WorldOf Ext -> list HighsDomainChange * list HighsInt;
  setDomainChangeStack :
    list HighsDomainChange -> list HighsInt -> WorldOf Ext -> WorldOf Ext;
  conflictAnalysis : WorldOf Ext -> WorldOf Ext;
  conflictAnalysis_proof : DualProof -> WorldOf Ext -> WorldOf Ext;
  isGlobalBinary : WorldOf Ext -> HighsInt -> bool;
  colLower_ : WorldOf Ext -> HighsInt -> double;
  colUpper_ : WorldOf Ext -> HighsInt -> double;

  (* HighsLpRelaxation *lp *)
  getFractionalIntegers : WorldOf Ext -> list (HighsInt * double);
  setStoredBasis : option HighsBasis -> WorldOf Ext -> WorldOf Ext;
  getStoredBasis : WorldOf Ext -> option HighsBasis;
  storeBasis : WorldOf Ext -> WorldOf Ext;
  recoverBasis : WorldOf Ext -> WorldOf Ext;
  lp_run : bool -> WorldOf Ext -> LpStatus * WorldOf Ext;
  resolveLp : WorldOf Ext -> LpStatus * WorldOf Ext;
  getStatus : WorldOf Ext -> LpStatus;
  scaledOptimal : LpStatus -> bool;
  unscaledPrimalFeasible : LpStatus -> bool;
  unscaledDualFeasible : LpStatus -> bool;
  is_kInfeasible : LpStatus -> bool;
  setObjectiveLimit : double -> WorldOf Ext -> WorldOf Ext;
  setIterationLimit : WorldOf Ext -> WorldOf Ext;
  flushDomain : WorldOf Ext -> WorldOf Ext;
  getNumLpIterations : WorldOf Ext -> int64_t;
  resetAges : WorldOf Ext -> WorldOf Ext;
  getObjective : WorldOf Ext -> double;
  lpsolver_col_value : WorldOf Ext -> list double;
  getSolution_col_value : WorldOf Ext -> list double;
  modelStatus_is_kObjectiveBound : WorldOf Ext -> bool;
  computeDualProof : double -> WorldOf Ext -> (bool * DualProof) * WorldOf Ext;
  computeDualInfProof : WorldOf Ext -> (bool * DualProof) * WorldOf Ext;
  computeLPDegneracy : WorldOf Ext -> double * WorldOf Ext;
  computeBestEstimate : WorldOf Ext -> double;
  lp_numRows : WorldOf Ext -> HighsInt;
  lp_getLp_numRow_ : WorldOf Ext -> HighsInt;
  row_status_size : HighsBasis -> HighsInt;
  lpsolver_setOptionValue :
    String.string -> String.string -> WorldOf Ext -> WorldOf Ext;
  lpsolver_setOptionValue_int :
    String.string -> HighsInt -> WorldOf Ext -> WorldOf Ext;
  kSimplexStrategyPrimal : HighsInt;
  kSimplexStrategyDual : HighsInt;
  lpsolver_clearSolver : WorldOf Ext -> WorldOf Ext;
  (* [HighsLpRelaxation lpCopy(mipsolver); lpCopy.loadModel();
     lpCopy.getLpSolver().changeColsBounds(...); std::swap(tmpLp, lp)] and
     the [std::swap] that restores [lp]. *)
  lpCopy_swap_in : WorldOf Ext -> WorldOf Ext;
  lpCopy_swap_out : WorldOf Ext -> WorldOf Ext;

  (* HighsPseudocost pseudocost *)
  isReliable : WorldOf Ext -> HighsInt -> bool;
  getPseudocostUp : WorldOf Ext -> HighsInt -> double -> double;
  getPseudocostDown : WorldOf Ext -> HighsInt -> double -> double;
  getPseudocostUp_tol : WorldOf Ext -> HighsInt -> double -> double -> double;
  getPseudocostDown_tol : WorldOf Ext -> HighsInt -> double -> double -> double;
  getScore : WorldOf Ext -> HighsInt -> double -> double;
  getScore2 : WorldOf Ext -> HighsInt -> double -> double -> double;
  getScoreUp : WorldOf Ext -> HighsInt -> double -> double;
  getScoreDown : WorldOf Ext -> HighsInt -> double -> double;
  getAvgInferencesUp : WorldOf Ext -> HighsInt -> double;
  getAvgInferencesDown : WorldOf Ext -> HighsInt -> double;
  addObservation : HighsInt -> double -> double -> WorldOf Ext -> WorldOf Ext;
  addCutoffObservation : HighsInt -> bool -> WorldOf Ext -> WorldOf Ext;
  addInferenceObservation :
    HighsInt -> int64_t -> bool -> WorldOf Ext -> WorldOf Ext;
  getMinReliable : WorldOf Ext -> HighsInt;
  pseudocost_setMinReliable : HighsInt -> WorldOf Ext -> WorldOf Ext;
  setDegeneracyFactor : double -> WorldOf Ext -> WorldOf Ext;

  (* HighsCutGeneration and HighsRedcostFixing *)
  generateConflict : DualProof -> WorldOf Ext -> DualProof * WorldOf Ext;
  propagateRedCost : WorldOf Ext -> WorldOf Ext;

  (* HighsCDouble: the compensated sum of [checkSol] *)
  HighsCDouble : Type;
  cdouble_of : double -> HighsCDouble;
  cdouble_add : HighsCDouble -> double -> HighsCDouble;
  cdouble_to_double : HighsCDouble -> double;

  (* HighsRandom random and the reliability marks of HighsSearch.h *)
  random_bit : WorldOf Ext -> bool * WorldOf Ext;
  reliableatnode_clear : WorldOf Ext -> WorldOf Ext;
  branchingVarReliableAtNode : WorldOf Ext -> HighsInt -> bool;
  markBranchingVarUpReliableAtNode : HighsInt -> WorldOf Ext -> WorldOf Ext;
  markBranchingVarDownReliableAtNode : HighsInt -> WorldOf Ext -> WorldOf Ext;

  (* The default argument of [backtrack(bool recoverBasis)], declared in
     HighsSearch.h. *)
  recoverBasis_default : bool;

  (* The fields of a value-initialised NodeData that the specification
     leaves open. *)
  default_lower_bound : double;
  default_estimate : double;
  default_branching_point : double;
  default_branchingdecision : HighsDomainChange;
  default_domgchgStackPos : HighsInt
}.

(* ================================================================= *)
(** ** The search object *)

Section Search.

Context {C : Collaborators}.

Definition World := WorldOf Ext.

(** [struct HighsSearch::NodeData] of [mip/HighsSearch.h]. *)
Record NodeData := mkNodeData {
  lower_bound : double;
  estimate : double;
  branching_point : double;
  lp_objective : double;
  nodeBasis : option HighsBasis;
  stabilizerOrbits : option StabilizerOrbits;
  branchingdecision : HighsDomainChange;
  domgchgStackPos : HighsInt;
  skipDepthCount : Z;
  opensubtrees : Z
}.

(** Modelled from the spec: the constructor of [NodeData] is declared in
    [mip/HighsSearch.h], which is not among the sources.  A new frame has
    [open_subtrees] 2 and no known LP objective ("else minus infinity"); its
    [skip_depth_count] is 0, so that a frame that is no one-sided branch
    counts as one level of depth.  The four arguments are those of the
    [emplace_back] calls of the source. *)
Definition NodeData_new (parentlb parentestimate : double)
    (parentBasis : option HighsBasis)
    (orbits : option StabilizerOrbits) : NodeData :=
  {| lower_bound := parentlb;
     estimate := parentestimate;
     branching_point := default_branching_point;
     lp_objective := PrimFloat.opp kHighsInf;
     nodeBasis := parentBasis;
     stabilizerOrbits := orbits;
     branchingdecision := default_branchingdecision;
     domgchgStackPos := default_domgchgStackPos;
     skipDepthCount := 0;
     opensubtrees := 2 |}.

(** [nodestack.emplace_back()] without arguments. *)
Definition NodeData_default : NodeData :=
  NodeData_new default_lower_bound default_estimate None None.

Definition set_lower_bound (v : double) (n : NodeData) : NodeData :=
  mkNodeData v (estimate n) (branching_point n) (lp_objective n) (nodeBasis n)
    (stabilizerOrbits n) (branchingdecision n) (domgchgStackPos n)
    (skipDepthCount n) (opensubtrees n).
Definition set_estimate (v : double) (n : NodeData) : NodeData :=
  mkNodeData (lower_bound n) v (branching_point n) (lp_objective n)
    (nodeBasis n) (stabilizerOrbits n) (branchingdecision n)
    (domgchgStackPos n) (skipDepthCount n) (opensubtrees n).
Definition set_branching_point (v : double) (n : NodeData) : NodeData :=
  mkNodeData (lower_bound n) (estimate n) v (lp_objective n) (nodeBasis n)
    (stabilizerOrbits n) (branchingdecision n) (domgchgStackPos n)
    (skipDepthCount n) (opensubtrees n).
Definition set_lp_objective (v : double) (n : NodeData) : NodeData :=
  mkNodeData (lower_bound n) (estimate n) (branching_point n) v (nodeBasis n)
    (stabilizerOrbits n) (branchingdecision n) (domgchgStackPos n)
    (skipDepthCount n) (opensubtrees n).
Definition set_nodeBasis (v : option HighsBasis) (n : NodeData) : NodeData :=
  mkNodeData (lower_bound n) (estimate n) (branching_point n) (lp_objective n)
    v (stabilizerOrbits n) (branchingdecision n) (domgchgStackPos n)
    (skipDepthCount n) (opensubtrees n).
Definition set_stabilizerOrbits (v : option StabilizerOrbits) (n : NodeData)
    : NodeData :=
  mkNodeData (lower_bound n) (estimate n) (branching_point n) (lp_objective n)
    (nodeBasis n) v (branchingdecision n) (domgchgStackPos n)
    (skipDepthCount n) (opensubtrees n).
Definition set_branchingdecision (v : HighsDomainChange) (n : NodeData)
    : NodeData :=
  mkNodeData (lower_bound n) (estimate n) (branching_point n) (lp_objective n)
    (nodeBasis n) (stabilizerOrbits n) v (domgchgStackPos n)
    (skipDepthCount n) (opensubtrees n).
Definition set_domgchgStackPos (v : HighsInt) (n : NodeData) : NodeData :=
  mkNodeData (lower_bound n) (estimate n) (branching_point n) (lp_objective n)
    (nodeBasis n) (stabilizerOrbits n) (branchingdecision n) v
    (skipDepthCount n) (opensubtrees n).
Definition set_skipDepthCount (v : Z) (n : NodeData) : NodeData :=
  mkNodeData (lower_bound n) (estimate n) (branching_point n) (lp_objective n)
    (nodeBasis n) (stabilizerOrbits n) (branchingdecision n)
    (domgchgStackPos n) v (opensubtrees n).
Definition set_opensubtrees (v : Z) (n : NodeData) : NodeData :=
  mkNodeData (lower_bound n) (estimate n) (branching_point n) (lp_objective n)
    (nodeBasis n) (stabilizerOrbits n) (branchingdecision n)
    (domgchgStackPos n) (skipDepthCount n) v.

(** The three fields of [branchingdecision], assigned one at a time. *)
Definition set_bd_column (c : HighsInt) (n : NodeData) : NodeData :=
  set_branchingdecision
    (mkDomChg (boundval (branchingdecision n)) c
       (boundtype (branchingdecision n))) n.
Definition set_bd_boundval (v : double) (n : NodeData) : NodeData :=
  set_branchingdecision
    (mkDomChg v (column (branchingdecision n))
       (boundtype (branchingdecision n))) n.
Definition set_bd_boundtype (t : HighsBoundType) (n : NodeData) : NodeData :=
  set_branchingdecision
    (mkDomChg (boundval (branchingdecision n))
       (column (branchingdecision n)) t) n.

(** The data members of [class HighsSearch]; [world] stands for the
    references [mipsolver], [lp], [localdom] and the member [pseudocost]. *)
Record HighsSearch := mkSearch {
  nodestack : list NodeData;
  depthoffset : HighsInt;
  nnodes : int64_t;
  treeweight : double;
  lpiterations : int64_t;
  heurlpiterations : int64_t;
  sblpiterations : int64_t;
  upper_limit : double;
  inheuristic : bool;
  inbranching : bool;
  childselrule : ChildSelectionRule;
  subrootsol : list double;
  inds_vals : DualProof;
  world : World
}.

Definition set_nodestack (v : list NodeData) (s : HighsSearch) : HighsSearch :=
  mkSearch v (depthoffset s) (nnodes s) (treeweight s) (lpiterations s)
    (heurlpiterations s) (sblpiterations s) (upper_limit s) (inheuristic s)
    (inbranching s) (childselrule s) (subrootsol s) (inds_vals s) (world s).
Definition set_depthoffset (v : HighsInt) (s : HighsSearch) : HighsSearch :=
  mkSearch (nodestack s) v (nnodes s) (treeweight s) (lpiterations s)
    (heurlpiterations s) (sblpiterations s) (upper_limit s) (inheuristic s)
    (inbranching s) (childselrule s) (subrootsol s) (inds_vals s) (world s).
Definition set_nnodes (v : int64_t) (s : HighsSearch) : HighsSearch :=
  mkSearch (nodestack s) (depthoffset s) v (treeweight s) (lpiterations s)
    (heurlpiterations s) (sblpiterations s) (upper_limit s) (inheuristic s)
    (inbranching s) (childselrule s) (subrootsol s) (inds_vals s) (world s).
Definition set_treeweight (v : double) (s : HighsSearch) : HighsSearch :=
  mkSearch (nodestack s) (depthoffset s) (nnodes s) v (lpiterations s)
    (heurlpiterations s) (sblpiterations s) (upper_limit s) (inheuristic s)
    (inbranching s) (childselrule s) (subrootsol s) (inds_vals s) (world s).
Definition set_lpiterations (v : int64_t) (s : HighsSearch) : HighsSearch :=
  mkSearch (nodestack s) (depthoffset s) (nnodes s) (treeweight s) v
    (heurlpiterations s) (sblpiterations s) (upper_limit s) (inheuristic s)
    (inbranching s) (childselrule s) (subrootsol s) (inds_vals s) (world s).
Definition set_heurlpiterations (v : int64_t) (s : HighsSearch)
    : HighsSearch :=
  mkSearch (nodestack s) (depthoffset s) (nnodes s) (treeweight s)
    (lpiterations s) v (sblpiterations s) (upper_limit s) (inheuristic s)
    (inbranching s) (childselrule s) (subrootsol s) (inds_vals s) (world s).
Definition set_sblpiterations (v : int64_t) (s : HighsSearch) : HighsSearch :=
  mkSearch (nodestack s) (depthoffset s) (nnodes s) (treeweight s)
    (lpiterations s) (heurlpiterations s) v (upper_limit s) (inheuristic s)
    (inbranching s) (childselrule s) (subrootsol s) (inds_vals s) (world s).
Definition set_inbranching (v : bool) (s : HighsSearch) : HighsSearch :=
  mkSearch (nodestack s) (depthoffset s) (nnodes s) (treeweight s)
    (lpiterations s) (heurlpiterations s) (sblpiterations s) (upper_limit s)
    (inheuristic s) v (childselrule s) (subrootsol s) (inds_vals s) (world s).
Definition set_subrootsol (v : list double) (s : HighsSearch) : HighsSearch :=
  mkSearch (nodestack s) (depthoffset s) (nnodes s) (treeweight s)
    (lpiterations s) (heurlpiterations s) (sblpiterations s) (upper_limit s)
    (inheuristic s) (inbranching s) (childselrule s) v (inds_vals s) (world s).
Definition set_inds_vals (v : DualProof) (s : HighsSearch) : HighsSearch :=
  mkSearch (nodestack s) (depthoffset s) (nnodes s) (treeweight s)
    (lpiterations s) (heurlpiterations s) (sblpiterations s) (upper_limit s)
    (inheuristic s) (inbranching s) (childselrule s) (subrootsol s) v (world s).
Definition set_world (v : World) (s : HighsSearch) : HighsSearch :=
  mkSearch (nodestack s) (depthoffset s) (nnodes s) (treeweight s)
    (lpiterations s) (heurlpiterations s) (sblpiterations s) (upper_limit s)
    (inheuristic s) (inbranching s) (childselrule s) (subrootsol s)
    (inds_vals s) v.

(* ================================================================= *)
(** ** The monad of member functions *)

Definition M (A : Type) : Type := HighsSearch -> option (A * HighsSearch).

Definition ret {A} (a : A) : M A := fun s => Some (a, s).

Definition bind {A B} (m : M A) (k : A -> M B) : M B :=
  fun s => match m s with
           | Some (a, s') => k a s'
           | None => None
           end.

Definition undefined {A} : M A := fun _ => None.

End Search.

Declare Scope search_scope.
Delimit Scope search_scope with search.
Notation "x <- c ;; k" := (bind c (fun x => k))
  (at level 61, c at next level, right associativity) : search_scope.
Notation "c ;; k" := (bind c (fun _ => k))
  (at level 61, right associativity) : search_scope.
Notation "' pat <- c ;; k" := (bind c (fun x => match x with pat => k end))
  (at level 61, pat pattern, c at next level, right associativity)
  : search_scope.
Open Scope search_scope.

Section Driver.

Context {C : Collaborators}.

(** Reading a data member, and reading through a [const] member function
    of a collaborator. *)
Definition member {A} (f : HighsSearch -> A) : M A := fun s => Some (f s, s).
Definition obs {A} (f : World -> A) : M A := fun s => Some (f (world s), s).

(** Calling a collaborator's member function that changes its object. *)
Definition call (f : World -> World) : M unit :=
  fun s => Some (tt, set_world (f (world s)) s).
Definition call_r {A} (f : World -> A * World) : M A :=
  fun s => let (a, w) := f (world s) in Some (a, set_world w s).

Definition update (f : HighsSearch -> HighsSearch) : M unit :=
  fun s => Some (tt, f s).

Definition when (b : bool) (m : M unit) : M unit := if b then m else ret tt.

(** [nodestack.back()], [nodestack[nodestack.size() - 2]] and the stack
    operations. *)
Definition back : M NodeData :=
  fun s => match nodestack s with
           | n :: _ => Some (n, s)
           | [] => None
           end.

Definition modify_back (f : NodeData -> NodeData) : M unit :=
  fun s => match nodestack s with
           | n :: r => Some (tt, set_nodestack (f n :: r) s)
           | [] => None
           end.

Definition modify_second (f : NodeData -> NodeData) : M unit :=
  fun s => match nodestack s with
           | n :: p :: r => Some (tt, set_nodestack (n :: f p :: r) s)
           | _ => None
           end.

Definition emplace_back (n : NodeData) : M unit :=
  update (fun s => set_nodestack (n :: nodestack s) s).

Definition pop_back : M unit :=
  fun s => match nodestack s with
           | _ :: r => Some (tt, set_nodestack r s)
           | [] => None
           end.

Definition nodestack_empty : M bool :=
  member (fun s => match nodestack s with [] => true | _ => false end).

(* ================================================================= *)
(** ** Depth, cutoff and the small members *)

(** Modelled from the spec: [getCurrentDepth] is defined in
    [mip/HighsSearch.h], which is not among the sources.  The specification
    counts the logical depth of the current frame as
    [stack_size - 1 + depth_offset] and gives a subtree pruned at the root
    (stack size 1, offset 0) the weight 1; the source computes that weight
    as [std::pow(0.5, getCurrentDepth() - 1)].  So [getCurrentDepth()] is
    the stack size plus the depth offset, and the logical depth of the
    specification is [getCurrentDepth() - 1]. *)
Definition getCurrentDepth_of (s : HighsSearch) : HighsInt :=
  Z.of_nat (length (nodestack s)) + depthoffset s.

Definition getCurrentDepth : M HighsInt := member getCurrentDepth_of.

Definition logical_depth (s : HighsSearch) : Z :=
  Z.of_nat (length (nodestack s)) - 1 + depthoffset s.

(** [v[i]] of a [std::vector]; outside the range the C++ is undefined and
    the model reads [d]. *)
Definition at_ {A} (v : list A) (i : Z) (d : A) : A := nth (Z.to_nat i) v d.

(** The indices [0, 1, ..., n - 1] of a [for (HighsInt i = 0; i != n; ++i)]. *)
Definition indices (n : Z) : list Z := map Z.of_nat (seq 0 (Z.to_nat n)).

(** [HighsSearch::checkSol]: the objective value of [sol] and whether it is
    integer feasible. *)
Definition checkSol (w : World) (sol : list double) : double * bool :=
  let step (acc : HighsCDouble * bool) (i : Z) :=
    let (objval, integerfeasible) := acc in
    let objval := cdouble_add objval (at_ sol i 0 * colCost w i)%float in
    if negb integerfeasible || negb (variableType_is_kInteger w i)
    then (objval, integerfeasible)
    else
      let intval := Dbl.floor (at_ sol i 0 + 0.5)%float in
      if Dbl.gtb (PrimFloat.abs (at_ sol i 0 - intval)%float) (feastol w)
      then (objval, false)
      else (objval, integerfeasible) in
  let (objval, integerfeasible) :=
    fold_left step (indices (numCol w)) (cdouble_of 0%float, true) in
  (cdouble_to_double objval, integerfeasible).

Definition is_nil {A} (l : list A) : bool :=
  match l with [] => true | _ => false end.

(** [HighsSearch::orbitsValidInChildNode]. *)
Definition orbitsValidInChildNode (branchChg : HighsDomainChange) : M bool :=
  let branchCol := column branchChg in
  (* if the variable is integral or we are in an up branch the stabilizer
     only stays valid if the column has been stabilized *)
  currNode <- back ;;
  if match stabilizerOrbits currNode with
     | None => true
     | Some o => is_nil (orbitCols o) || isStabilized o branchCol
     end
  then ret true
  else
    (* a down branch stays valid if the variable is binary *)
    binary <- obs (fun w => isGlobalBinary w (column branchChg)) ;;
    if HighsBoundType_eqb (boundtype branchChg) kUpper && binary
    then ret true
    else ret false.

(** [HighsSearch::getCutoffBound]. *)
Definition getCutoffBound : M double :=
  fun s => Some (Dbl.min (mip_upper_limit (world s)) (upper_limit s), s).

(** [HighsSearch::createNewNode]. *)
Definition createNewNode : M unit :=
  emplace_back NodeData_default ;;
  size <- obs (fun w => Z.of_nat (length (getDomainChangeStack w))) ;;
  modify_back (set_domgchgStackPos size).

(** [HighsSearch::cutoffNode]. *)
Definition cutoffNode : M unit := modify_back (set_opensubtrees 0).

(** [HighsSearch::setMinReliable]. *)
Definition setMinReliable (minreliable : HighsInt) : M unit :=
  call (pseudocost_setMinReliable minreliable).

(** The tail that [branchDownwards], [branchUpwards], [branch] and the
    backtracking functions share: the child frame takes the lower bound,
    the estimate and the basis of [currnode], and its stabilizer when
    [passStabilizerToChildNode] holds. *)
Definition child_of (currnode : NodeData) (passStabilizerToChildNode : bool)
    : NodeData :=
  NodeData_new (lower_bound currnode) (estimate currnode) (nodeBasis currnode)
    (if passStabilizerToChildNode then stabilizerOrbits currnode else None).

(** [HighsSearch::branchDownwards]. *)
Definition branchDownwards (col : HighsInt) (newub branchpoint : double)
    : M unit :=
  modify_back (set_opensubtrees 1) ;;
  modify_back (set_branching_point branchpoint) ;;
  modify_back (set_bd_column col) ;;
  modify_back (set_bd_boundval newub) ;;
  modify_back (set_bd_boundtype kUpper) ;;
  domchgPos <- obs (fun w => Z.of_nat (length (getDomainChangeStack w))) ;;
  currnode <- back ;;
  passStabilizerToChildNode <-
    orbitsValidInChildNode (branchingdecision currnode) ;;
  call (changeBound (branchingdecision currnode)) ;;
  emplace_back (child_of currnode passStabilizerToChildNode) ;;
  modify_back (set_domgchgStackPos domchgPos).

(** [HighsSearch::branchUpwards]. *)
Definition branchUpwards (col : HighsInt) (newlb branchpoint : double)
    : M unit :=
  modify_back (set_opensubtrees 1) ;;
  modify_back (set_branching_point branchpoint) ;;
  modify_back (set_bd_column col) ;;
  modify_back (set_bd_boundval newlb) ;;
  modify_back (set_bd_boundtype kLower) ;;
  domchgPos <- obs (fun w => Z.of_nat (length (getDomainChangeStack w))) ;;
  currnode <- back ;;
  passStabilizerToChildNode <-
    orbitsValidInChildNode (branchingdecision currnode) ;;
  call (changeBound (branchingdecision currnode)) ;;
  emplace_back (child_of currnode passStabilizerToChildNode) ;;
  modify_back (set_domgchgStackPos domchgPos).

(** The body both conflict functions run once the LP has produced a proof
    ([inds], [vals], [rhs]). *)
Definition conflict_from_proof (p : DualProof) : M unit :=
  mipinfeasible <- obs globaldom_infeasible ;;
  if mipinfeasible then ret tt
  else
    call (conflictAnalysis_proof p) ;;
    call (debugSolution_checkCut p) ;;
    p' <- call_r (generateConflict p) ;;
    update (set_inds_vals p').

(** [HighsSearch::addBoundExceedingConflict]. *)
Definition addBoundExceedingConflict : M unit :=
  ul <- obs mip_upper_limit ;;
  if Dbl.neqb ul kHighsInf then
    '(ok, p) <- call_r (computeDualProof ul) ;;
    update (set_inds_vals p) ;;
    if ok : bool then conflict_from_proof p else ret tt
  else ret tt.

(** [HighsSearch::addInfeasibleConflict]. *)
Definition addInfeasibleConflict : M unit :=
  '(ok, p) <- call_r computeDualInfProof ;;
  update (set_inds_vals p) ;;
  if ok : bool then conflict_from_proof p else ret tt.

(* ================================================================= *)
(** ** Statistics *)

(** [HighsSearch::flushStatistics]. *)
Definition flushStatistics : M unit :=
  update (fun s =>
    let w := world s in
    set_world
      (mkWorld (num_nodes w + nnodes s) (pruned_treeweight w)
         (total_lp_iterations w) (heuristic_lp_iterations w)
         (sb_lp_iterations w) (ext w)) s) ;;
  update (set_nnodes 0) ;;
  update (fun s =>
    let w := world s in
    set_world
      (mkWorld (num_nodes w) (pruned_treeweight w + treeweight s)%float
         (total_lp_iterations w) (heuristic_lp_iterations w)
         (sb_lp_iterations w) (ext w)) s) ;;
  update (set_treeweight 0%float) ;;
  update (fun s =>
    let w := world s in
    set_world
      (mkWorld (num_nodes w) (pruned_treeweight w)
         (total_lp_iterations w + lpiterations s) (heuristic_lp_iterations w)
         (sb_lp_iterations w) (ext w)) s) ;;
  update (set_lpiterations 0) ;;
  update (fun s =>
    let w := world s in
    set_world
      (mkWorld (num_nodes w) (pruned_treeweight w) (total_lp_iterations w)
         (heuristic_lp_iterations w + heurlpiterations s)
         (sb_lp_iterations w) (ext w)) s) ;;
  update (set_heurlpiterations 0) ;;
  update (fun s =>
    let w := world s in
    set_world
      (mkWorld (num_nodes w) (pruned_treeweight w) (total_lp_iterations w)
         (heuristic_lp_iterations w) (sb_lp_iterations w + sblpiterations s)
         (ext w)) s) ;;
  update (set_sblpiterations 0).

(** [getHeuristicLpIterations], [getTotalLpIterations],
    [getLocalLpIterations], [getStrongBranchingLpIterations]. *)
Definition getHeuristicLpIterations : M int64_t :=
  member (fun s => heurlpiterations s + heuristic_lp_iterations (world s)).
Definition getTotalLpIterations : M int64_t :=
  member (fun s => lpiterations s + total_lp_iterations (world s)).
Definition getLocalLpIterations : M int64_t := member lpiterations.
Definition getStrongBranchingLpIterations : M int64_t :=
  member (fun s => sblpiterations s + sb_lp_iterations (world s)).

(* ================================================================= *)
(** ** Strong branching: [selectBranchingCandidate] *)

Definition basisstart_threshold : HighsInt := 20.

(** The double that the literal [1e-3] denotes. *)
Definition one_thousandth : double := 0x1.0624dd2f1a9fcp-10%float.

(** [v[i] = x]. *)
Fixpoint set_nth {A} (v : list A) (i : nat) (x : A) : list A :=
  match v, i with
  | [], _ => []
  | _ :: r, O => x :: r
  | y :: r, S i => y :: set_nth r i x
  end.
Definition set_at {A} (v : list A) (i : Z) (x : A) : list A :=
  set_nth v (Z.to_nat i) x.

(** The local vectors of [selectBranchingCandidate] with [minScore] and
    [resetBasis]; a [uint8_t] flag is a [bool]. *)
Record SbLocals := mkSb {
  upscore : list double;
  downscore : list double;
  upscorereliable : list bool;
  downscorereliable : list bool;
  minScore : double;
  resetBasis : bool
}.

Definition frac_col (w : World) (k : Z) : HighsInt :=
  fst (at_ (getFractionalIntegers w) k (0, 0%float)).
Definition frac_val (w : World) (k : Z) : double :=
  snd (at_ (getFractionalIntegers w) k (0, 0%float)).

(** The loop that seeds the scores of the candidates whose pseudo-cost is
    reliable. *)
Definition sb_init (w : World) (numfrac : HighsInt) : SbLocals :=
  let step (L : SbLocals) (k : Z) :=
    let col := frac_col w k in
    let fracval := frac_val w k in
    if isReliable w col || branchingVarReliableAtNode w col then
      mkSb (set_at (upscore L) k (getPseudocostUp w col fracval))
           (set_at (downscore L) k (getPseudocostDown w col fracval))
           (set_at (upscorereliable L) k true)
           (set_at (downscorereliable L) k true)
           (minScore L) (resetBasis L)
    else L in
  fold_left step (indices numfrac)
    (mkSb (repeat kHighsInf (Z.to_nat numfrac))
          (repeat kHighsInf (Z.to_nat numfrac))
          (repeat false (Z.to_nat numfrac))
          (repeat false (Z.to_nat numfrac))
          (feastol w) false).

(** [std::make_pair(a1, a2) > std::make_pair(b1, b2)]. *)
Definition pair_gtb (a1 : double) (a2 : int64_t) (b1 : double) (b2 : int64_t)
    : bool :=
  (b1 <? a1)%float || (negb (a1 <? b1)%float && (b2 <? a2)).

(** The running best of [selectBestScore]. *)
Record Best := mkBest {
  best : HighsInt;
  bestscore : double;
  bestnodes : double;
  bestnumnodes : int64_t
}.

(** The lambda [selectBestScore]; [evalqueue] holds [0 .. numfrac - 1]. *)
Definition selectBestScore (w : World) (numfrac : HighsInt)
    (finalSelection : bool) (L0 : SbLocals) : HighsInt * SbLocals :=
  let oldminscore := minScore L0 in
  let step (acc : Best * SbLocals) (k : Z) :=
    let (B, L) := acc in
    let upr := if (at_ (upscore L) k 0 <=? oldminscore)%float
               then set_at (upscorereliable L) k true
               else upscorereliable L in
    let downr := if (at_ (downscore L) k 0 <=? oldminscore)%float
                 then set_at (downscorereliable L) k true
                 else downscorereliable L in
    let up := at_ (upscore L) k 0%float in
    let down := at_ (downscore L) k 0%float in
    let s := (one_thousandth *
              Dbl.min (if at_ upr k false then up else 0)
                      (if at_ downr k false then down else 0))%float in
    let minScore' := Dbl.max s (minScore L) in
    let score :=
      if (up <=? oldminscore)%float || (down <=? oldminscore)%float then
        getScore2 w (frac_col w k) (Dbl.min up oldminscore)
          (Dbl.min down oldminscore)
      else if (up =? kHighsInf)%float || (down =? kHighsInf)%float then
        if finalSelection then getScore w (frac_col w k) (frac_val w k)
        else kHighsInf
      else getScore2 w (frac_col w k) up down in
    let upnodes := numNodesUp w (frac_col w k) in
    let downnodes := numNodesDown w (frac_col w k) in
    let numnodes := upnodes + downnodes in
    let nodes :=
      if negb (upnodes =? 0) || negb (downnodes =? 0) then
        ((Dbl.of_Z downnodes / Dbl.of_Z numnodes) *
         (Dbl.of_Z upnodes / Dbl.of_Z numnodes))%float
      else 0%float in
    let L' := mkSb (upscore L) (downscore L) upr downr minScore'
                (resetBasis L) in
    if Dbl.gtb score (bestscore B) ||
       (Dbl.gtb score (bestscore B - feastol w)%float &&
        pair_gtb nodes numnodes (bestnodes B) (bestnumnodes B))
    then (mkBest k score nodes numnodes, L')
    else (B, L') in
  let (B, L) :=
    fold_left step (indices numfrac)
      (mkBest (-1) (-1)%float (-1)%float 0, L0) in
  (best B, L).

Fixpoint forM_ {A} (l : list A) (f : A -> M unit) : M unit :=
  match l with
  | [] => ret tt
  | a :: r => f a ;; forM_ r f
  end.

(** Both trial branches end the same way when the trial side is cut off:
    the opposite branch is committed as the only child of the frame. *)
Definition commit_branchUpwards (col : HighsInt) (upval fracval : double)
    : M unit :=
  branchUpwards col upval fracval ;;
  modify_second (set_opensubtrees 0) ;;
  modify_second (set_skipDepthCount 1) ;;
  update (fun s => set_depthoffset (depthoffset s - 1) s) ;;
  n <- back ;;
  call (setStoredBasis (nodeBasis n)).

Definition commit_branchDownwards (col : HighsInt) (downval fracval : double)
    : M unit :=
  branchDownwards col downval fracval ;;
  modify_second (set_opensubtrees 0) ;;
  modify_second (set_skipDepthCount 1) ;;
  update (fun s => set_depthoffset (depthoffset s - 1) s) ;;
  n <- back ;;
  call (setStoredBasis (nodeBasis n)).

(** The loop over all candidates after a trial LP: a candidate that sits at
    its floor or ceiling in the trial solution has its score bounded by
    [objdelta]. *)
Definition sb_update_others (numfrac : HighsInt) (objdelta : double)
    (L : SbLocals) : M SbLocals :=
  fold_left
    (fun (acc : M SbLocals) (k : Z) =>
       L <- acc ;;
       w <- member world ;;
       let otherfracval := frac_val w k in
       let otherdownval := Dbl.floor (frac_val w k) in
       let otherupval := Dbl.ceil (frac_val w k) in
       let solk := at_ (lpsolver_col_value w) (frac_col w k) 0%float in
       if (solk <=? otherdownval + feastol w)%float then
         when ((objdelta <=? minScore L)%float &&
               (colUpper_ w (frac_col w k) <=? otherdownval + feastol w)%float)
           (call (addObservation (frac_col w k)
                    (otherdownval - otherfracval)%float objdelta)) ;;
         ret (mkSb (upscore L)
                (set_at (downscore L) k
                   (Dbl.min (at_ (downscore L) k 0%float) objdelta))
                (upscorereliable L) (downscorereliable L) (minScore L)
                (resetBasis L))
       else if Dbl.geb solk (otherupval - feastol w)%float then
         when ((objdelta <=? minScore L)%float &&
               Dbl.geb (colLower_ w (frac_col w k))
                 (otherupval - feastol w)%float)
           (call (addObservation (frac_col w k)
                    (otherupval - otherfracval)%float objdelta)) ;;
         ret (mkSb (set_at (upscore L) k
                      (Dbl.min (at_ (upscore L) k 0%float) objdelta))
                (downscore L) (upscorereliable L) (downscorereliable L)
                (minScore L) (resetBasis L))
       else ret L)
    (indices numfrac) (ret L).

(** The incumbent found by a trial LP. *)
Definition sb_add_incumbent (solobj : double) : M unit :=
  cutoffbnd <- getCutoffBound ;;
  sol <- obs lpsolver_col_value ;;
  inh <- member inheuristic ;;
  call (addIncumbent sol solobj (if inh then "H"%char else "B"%char)) ;;
  ul <- obs mip_upper_limit ;;
  when (ul <? cutoffbnd)%float (call (setObjectiveLimit ul)).

(** What one pass through the body of a [while (true)] loop does. *)
Inductive LoopStep (R L : Type) :=
| Return (r : R)
| Continue (l : L).
Arguments Return {R L} r.
Arguments Continue {R L} l.

Definition domchgstack_size : M HighsInt :=
  obs (fun w => Z.of_nat (length (getDomainChangeStack w))).

(** [nodestack.back().stabilizerOrbits->orbitalFixing(localdom)]. *)
Definition back_orbitalFixing : M HighsInt :=
  n <- back ;;
  match stabilizerOrbits n with
  | Some o => call_r (orbitalFixing o)
  | None => undefined
  end.

(** [nodestack.back().stabilizerOrbits && orbitsValidInChildNode(domchg)]. *)
Definition back_orbits_and_valid (domchg : HighsDomainChange) : M bool :=
  n <- back ;;
  match stabilizerOrbits n with
  | Some _ => orbitsValidInChildNode domchg
  | None => ret false
  end.

(** The trial LP: [lp->run(false)] with the iteration counters. *)
Definition sb_run_lp : M (int64_t * LpStatus) :=
  numiters0 <- obs getNumLpIterations ;;
  status <- call_r (lp_run false) ;;
  numiters1 <- obs getNumLpIterations ;;
  let numiters := numiters1 - numiters0 in
  update (fun s => set_lpiterations (lpiterations s + numiters) s) ;;
  update (fun s => set_sblpiterations (sblpiterations s + numiters) s) ;;
  ret (numiters, status).

(** [solobj] and [objdelta] of a trial LP that is scaled optimal. *)
Definition sb_objdelta : M (double * bool * double) :=
  sol <- obs lpsolver_col_value ;;
  w <- member world ;;
  let (solobj, integerfeasible) := checkSol w sol in
  obj <- obs getObjective ;;
  let objdelta := Dbl.max (solobj - obj)%float 0%float in
  eps <- obs epsilon ;;
  let objdelta := if (objdelta <=? eps)%float then 0%float else objdelta in
  ret (solobj, integerfeasible, objdelta).

(** The LP error case: both scores of the candidate become zero. *)
Definition sb_lp_error (candidate col : HighsInt) (L : SbLocals)
    : M SbLocals :=
  call (markBranchingVarUpReliableAtNode col) ;;
  call (markBranchingVarDownReliableAtNode col) ;;
  ret (mkSb (set_at (upscore L) candidate 0%float)
         (set_at (downscore L) candidate 0%float)
         (set_at (upscorereliable L) candidate true)
         (set_at (downscorereliable L) candidate true)
         (minScore L) (resetBasis L)).

Definition set_resetBasis (b : bool) (L : SbLocals) : SbLocals :=
  mkSb (upscore L) (downscore L) (upscorereliable L) (downscorereliable L)
    (minScore L) b.

(** The branch [if (!downscorereliable[candidate])] of the loop body:
    evaluate down branch. *)
Definition sb_eval_down (numfrac candidate col : HighsInt)
    (fracval upval downval : double) (L : SbLocals)
    : M (LoopStep HighsInt SbLocals) :=
  size0 <- domchgstack_size ;;
  let inferences := - size0 - 1 in
  let domchg := mkDomChg downval col kUpper in
  orbitalFixing <- back_orbits_and_valid domchg ;;
  call (changeBound domchg) ;;
  call propagate ;;
  infeas <- obs infeasible ;;
  let orbitalFixing := if infeas then false else orbitalFixing in
  (if orbitalFixing : bool
   then (numFix <- back_orbitalFixing ;; ret tt)
   else ret tt) ;;
  size1 <- domchgstack_size ;;
  let inferences := inferences + size1 in
  infeas <- obs infeasible ;;
  if infeas : bool then
    call conflictAnalysis ;;
    call (addCutoffObservation col false) ;;
    call localdom_backtrack ;;
    call clearChangedCols ;;
    commit_branchUpwards col upval fracval ;;
    ret (Return (-1))
  else
    call (addInferenceObservation col inferences false) ;;
    call flushDomain ;;
    let L := set_resetBasis true L in
    '(numiters, status) <- sb_run_lp ;;
    r <-
      (if scaledOptimal status then
         call resetAges ;;
         let delta := (downval - fracval)%float in
         '(solobj, integerfeasible, objdelta) <- sb_objdelta ;;
         let L := mkSb (upscore L) (set_at (downscore L) candidate objdelta)
                    (upscorereliable L)
                    (set_at (downscorereliable L) candidate true)
                    (minScore L) (resetBasis L) in
         call (markBranchingVarDownReliableAtNode col) ;;
         call (addObservation col delta objdelta) ;;
         L <- sb_update_others numfrac objdelta L ;;
         when (unscaledPrimalFeasible status && integerfeasible)
           (sb_add_incumbent solobj) ;;
         cutoff <- getCutoffBound ;;
         if unscaledDualFeasible status then
           if Dbl.gtb solobj cutoff then
             call debugSolution_nodePruned ;;
             addBoundExceedingConflict ;;
             call localdom_backtrack ;;
             call flushDomain ;;
             commit_branchUpwards col upval fracval ;;
             when (numiters >? basisstart_threshold) (call recoverBasis) ;;
             ret (Return (-1))
           else ret (Continue L)
         else if Dbl.gtb solobj cutoff then
           addBoundExceedingConflict ;;
           call propagate ;;
           infeas <- obs infeasible ;;
           if infeas : bool then
             call localdom_backtrack ;;
             call flushDomain ;;
             commit_branchUpwards col upval fracval ;;
             when (numiters >? basisstart_threshold) (call recoverBasis) ;;
             ret (Return (-1))
           else ret (Continue L)
         else ret (Continue L)
       else if is_kInfeasible status then
         call debugSolution_nodePruned ;;
         addInfeasibleConflict ;;
         call (addCutoffObservation col false) ;;
         call localdom_backtrack ;;
         call flushDomain ;;
         commit_branchUpwards col upval fracval ;;
         when (numiters >? basisstart_threshold) (call recoverBasis) ;;
         ret (Return (-1))
       else
         (* in case of an LP error we set the score of this variable to
            zero to avoid choosing it as branching candidate if possible *)
         L <- sb_lp_error candidate col L ;;
         ret (Continue L)) ;;
    match r with
    | Return c => ret (Return c)
    | Continue L =>
        call localdom_backtrack ;;
        call flushDomain ;;
        when (numiters >? basisstart_threshold) (call recoverBasis) ;;
        ret (Continue L)
    end.

(** The [else] branch of the loop body: evaluate up branch. *)
Definition sb_eval_up (numfrac candidate col : HighsInt)
    (fracval upval downval : double) (L : SbLocals)
    : M (LoopStep HighsInt SbLocals) :=
  size0 <- domchgstack_size ;;
  let inferences := - size0 - 1 in
  let domchg := mkDomChg upval col kLower in
  orbitalFixing <- back_orbits_and_valid domchg ;;
  call (changeBound domchg) ;;
  call propagate ;;
  infeas <- obs infeasible ;;
  let orbitalFixing := if infeas then false else orbitalFixing in
  (if orbitalFixing : bool
   then (numFix <- back_orbitalFixing ;; ret tt)
   else ret tt) ;;
  size1 <- domchgstack_size ;;
  let inferences := inferences + size1 in
  infeas <- obs infeasible ;;
  if infeas : bool then
    call conflictAnalysis ;;
    call (addCutoffObservation col true) ;;
    call localdom_backtrack ;;
    call clearChangedCols ;;
    commit_branchDownwards col downval fracval ;;
    ret (Return (-1))
  else
    call (addInferenceObservation col inferences true) ;;
    call flushDomain ;;
    let L := set_resetBasis true L in
    '(numiters, status) <- sb_run_lp ;;
    r <-
      (if scaledOptimal status then
         call resetAges ;;
         let delta := (upval - fracval)%float in
         '(solobj, integerfeasible, objdelta) <- sb_objdelta ;;
         let L := mkSb (set_at (upscore L) candidate objdelta) (downscore L)
                    (set_at (upscorereliable L) candidate true)
                    (downscorereliable L)
                    (minScore L) (resetBasis L) in
         call (markBranchingVarUpReliableAtNode col) ;;
         call (addObservation col delta objdelta) ;;
         L <- sb_update_others numfrac objdelta L ;;
         when (unscaledPrimalFeasible status && integerfeasible)
           (sb_add_incumbent solobj) ;;
         cutoff <- getCutoffBound ;;
         if unscaledDualFeasible status then
           if Dbl.gtb solobj cutoff then
             call debugSolution_nodePruned ;;
             addBoundExceedingConflict ;;
             call localdom_backtrack ;;
             call flushDomain ;;
             commit_branchDownwards col downval fracval ;;
             when (numiters >? basisstart_threshold) (call recoverBasis) ;;
             ret (Return (-1))
           else ret (Continue L)
         else if Dbl.gtb solobj cutoff then
           addBoundExceedingConflict ;;
           call propagate ;;
           infeas <- obs infeasible ;;
           if infeas : bool then
             call localdom_backtrack ;;
             call flushDomain ;;
             commit_branchDownwards col downval fracval ;;
             when (numiters >? basisstart_threshold) (call recoverBasis) ;;
             ret (Return (-1))
           else ret (Continue L)
         else ret (Continue L)
       else if is_kInfeasible status then
         call debugSolution_nodePruned ;;
         addInfeasibleConflict ;;
         call (addCutoffObservation col true) ;;
         call localdom_backtrack ;;
         call flushDomain ;;
         commit_branchDownwards col downval fracval ;;
         when (numiters >? basisstart_threshold) (call recoverBasis) ;;
         ret (Return (-1))
       else
         L <- sb_lp_error candidate col L ;;
         ret (Continue L)) ;;
    match r with
    | Return c => ret (Return c)
    | Continue L =>
        call localdom_backtrack ;;
        call flushDomain ;;
        when (numiters >? basisstart_threshold) (call recoverBasis) ;;
        ret (Continue L)
    end.

(** One pass through the body of the [while (true)] loop of
    [selectBranchingCandidate]. *)
Definition sb_iteration (maxSbIters : int64_t) (numfrac : HighsInt)
    (L : SbLocals) : M (LoopStep HighsInt SbLocals) :=
  sbiters <- getStrongBranchingLpIterations ;;
  mustStop <- (if sbiters >=? maxSbIters then ret true
               else call_r checkLimits) ;;
  w <- member world ;;
  let (candidate, L) := selectBestScore w numfrac mustStop L in
  if (at_ (upscorereliable L) candidate false &&
      at_ (downscorereliable L) candidate false) || mustStop
  then
    (if resetBasis L then
       n <- back ;;
       call (setStoredBasis (nodeBasis n)) ;;
       call recoverBasis ;;
       st <- call_r (lp_run true) ;;
       ret tt
     else ret tt) ;;
    ret (Return candidate)
  else
    ul <- obs mip_upper_limit ;;
    call (setObjectiveLimit ul) ;;
    w <- member world ;;
    let col := frac_col w candidate in
    let fracval := frac_val w candidate in
    let upval := Dbl.ceil fracval in
    let downval := Dbl.floor fracval in
    if negb (at_ (downscorereliable L) candidate false)
    then sb_eval_down numfrac candidate col fracval upval downval L
    else sb_eval_up numfrac candidate col fracval upval downval L.

Fixpoint sb_loop (fuel : nat) (maxSbIters : int64_t) (numfrac : HighsInt)
    (L : SbLocals) : M HighsInt :=
  match fuel with
  | O => undefined
  | S fuel =>
      r <- sb_iteration maxSbIters numfrac L ;;
      match r with
      | Return c => ret c
      | Continue L' => sb_loop fuel maxSbIters numfrac L'
      end
  end.

(** [HighsSearch::selectBranchingCandidate]; [fuel] bounds the number of
    passes through its loop. *)
Definition selectBranchingCandidate (fuel : nat) (maxSbIters : int64_t)
    : M HighsInt :=
  w <- member world ;;
  let numfrac := Z.of_nat (length (getFractionalIntegers w)) in
  sb_loop fuel maxSbIters numfrac (sb_init w numfrac).

(* ================================================================= *)
(** ** Backtracking *)

Definition is_some {A} (o : option A) : bool :=
  match o with Some _ => true | None => false end.

Definition changedcols_size : M HighsInt :=
  obs (fun w => Z.of_nat (length (getChangedCols w))).

Definition nodestack_size : M nat := member (fun s => length (nodestack s)).

(** The flip of the branching decision that the three backtracking
    functions share: a lower-bound branch becomes the upper bound
    [floor(boundval - 0.5)], an upper-bound branch the lower bound
    [ceil(boundval + 0.5)], and the branching point of a fallback branch
    follows the new bound. *)
Definition flip_branchingdecision (currnode : NodeData) : NodeData :=
  let fallbackbranch :=
    (boundval (branchingdecision currnode) =? branching_point currnode)%float
  in
  let currnode :=
    match boundtype (branchingdecision currnode) with
    | kLower =>
        let currnode := set_bd_boundtype kUpper currnode in
        set_bd_boundval
          (Dbl.floor (boundval (branchingdecision currnode) - 0.5)%float)
          currnode
    | kUpper =>
        let currnode := set_bd_boundtype kLower currnode in
        set_bd_boundval
          (Dbl.ceil (boundval (branchingdecision currnode) + 0.5)%float)
          currnode
    end in
  if fallbackbranch
  then set_branching_point (boundval (branchingdecision currnode)) currnode
  else currnode.

(** The body of [while (nodestack.back().opensubtrees == 0)] in [backtrack]
    and [backtrackPlunge]: [Return false] stands for the [return false] of
    the emptied stack. *)
Definition unwind_body : M (LoopStep bool unit) :=
  n <- back ;;
  update (fun s => set_depthoffset (depthoffset s + skipDepthCount n) s) ;;
  pop_back ;;
  e <- nodestack_empty ;;
  if e : bool then
    call backtrackToGlobal ;;
    call flushDomain ;;
    ret (Return false)
  else
    call localdom_backtrack ;;
    n <- back ;;
    (if negb (opensubtrees n =? 0) then
       (* repropagate the node, as it may have become infeasible due to
          conflicts *)
       oldNumDomchgs <- obs getNumDomainChanges ;;
       oldNumChangedCols <- changedcols_size ;;
       call propagate ;;
       infeas <- obs infeasible ;;
       numDomchgs <- obs getNumDomainChanges ;;
       (match stabilizerOrbits n with
        | Some o =>
            if negb infeas && negb (oldNumDomchgs =? numDomchgs)
            then (numFix <- call_r (orbitalFixing o) ;; ret tt)
            else ret tt
        | None => ret tt
        end) ;;
       infeas <- obs infeasible ;;
       if infeas : bool then
         call (clearChangedCols_from oldNumChangedCols) ;;
         modify_back (set_opensubtrees 0)
       else ret tt
     else ret tt) ;;
    ret (Continue tt).

(** The loop [while (nodestack.back().opensubtrees == 0)]. *)
Fixpoint unwind (fuel : nat) : M (LoopStep bool unit) :=
  n <- back ;;
  if opensubtrees n =? 0 then
    match fuel with
    | O => undefined
    | S fuel =>
        r <- unwind_body ;;
        match r with
        | Return b => ret (Return b)
        | Continue _ => unwind fuel
        end
    end
  else ret (Continue tt).

(** After the flipped bound is on the domain: is the sibling pruned? *)
Definition sibling_pruned (currnode : NodeData)
    (passStabilizerToChildNode : bool) : M bool :=
  cutoff <- getCutoffBound ;;
  infeas <- obs infeasible ;;
  let prune := Dbl.gtb (lower_bound currnode) cutoff || infeas in
  prune <- (if negb prune then
              call propagate ;;
              prune <- obs infeasible ;;
              when prune (call conflictAnalysis) ;;
              ret prune
            else ret prune) ;;
  match stabilizerOrbits currnode with
  | Some o =>
      if negb prune && passStabilizerToChildNode
      then (numFix <- call_r (orbitalFixing o) ;; obs infeasible)
      else ret prune
  | None => ret prune
  end.

(** [backtrack], from [NodeData& currnode = nodestack.back()] to the end of
    the outer loop body: [true] is the [break] after the child frame is
    pushed, [false] the [continue] of a pruned sibling. *)
Definition backtrack_flip : M bool :=
  modify_back (set_opensubtrees 0) ;;
  domchgPos <- domchgstack_size ;;
  modify_back flip_branchingdecision ;;
  numChangedCols <- changedcols_size ;;
  currnode <- back ;;
  passStabilizerToChildNode <-
    orbitsValidInChildNode (branchingdecision currnode) ;;
  call (changeBound (branchingdecision currnode)) ;;
  prune <- sibling_pruned currnode passStabilizerToChildNode ;;
  if prune : bool then
    call localdom_backtrack ;;
    call (clearChangedCols_from numChangedCols) ;;
    depth <- getCurrentDepth ;;
    update (fun s => set_treeweight (treeweight s + Dbl.pow_half depth)%float s) ;;
    ret false
  else
    emplace_back (child_of currnode passStabilizerToChildNode) ;;
    call flushDomain ;;
    modify_back (set_domgchgStackPos domchgPos) ;;
    ret true.

(** The outer [while (true)] of [backtrack]: the result is the value the
    function returns. *)
Fixpoint backtrack_loop (fuel : nat) : M bool :=
  match fuel with
  | O => undefined
  | S fuel =>
      size <- nodestack_size ;;
      r <- unwind size ;;
      match r with
      | Return b => ret b
      | Continue _ =>
          pushed <- backtrack_flip ;;
          if pushed : bool then ret true else backtrack_loop fuel
      end
  end.

(** [HighsSearch::backtrack].  Every pass through the outer loop that does
    not leave it closes the top frame, which the next pass pops: the stack
    size plus one bounds the number of passes. *)
Definition backtrack (recoverBasis_ : bool) : M bool :=
  e <- nodestack_empty ;;
  if e : bool then ret false
  else
    size <- nodestack_size ;;
    r <- backtrack_loop (S size) ;;
    if r : bool then
      n <- back ;;
      when (recoverBasis_ && is_some (nodeBasis n))
        (call (setStoredBasis (nodeBasis n)) ;; call recoverBasis) ;;
      ret true
    else ret false.

(** The test that [backtrackPlunge] makes on a frame [ni] below the top
    one: [ancestorScoreInactive - ancestorScoreActive >
    nodeScore + feastol]. *)
Definition ancestor_test (w : World) (nodeScore : double) (ni : NodeData)
    : bool :=
  let fallbackbranch :=
    (boundval (branchingdecision ni) =? branching_point ni)%float in
  let branchpoint :=
    if fallbackbranch then 0.5%float else branching_point ni in
  let '(ancestorScoreActive, ancestorScoreInactive) :=
    match boundtype (branchingdecision ni) with
    | kLower =>
        (getScoreUp w (column (branchingdecision ni)) branchpoint,
         getScoreDown w (column (branchingdecision ni)) branchpoint)
    | kUpper =>
        (getScoreDown w (column (branchingdecision ni)) branchpoint,
         getScoreUp w (column (branchingdecision ni)) branchpoint)
    end in
  Dbl.gtb (ancestorScoreInactive - ancestorScoreActive)%float
    (nodeScore + feastol w)%float.

(** The loop [for (HighsInt i = nodestack.size() - 2; i >= 0; --i)] of
    [backtrackPlunge] over the frames below the top one, nearest first: a
    closed frame is skipped ([continue]); the first frame that is still
    open decides [nodeToQueue] and ends the loop ([break]). *)
Fixpoint ancestor_loop (w : World) (nodeScore : double)
    (below : list NodeData) : bool :=
  match below with
  | [] => false
  | ni :: below' =>
      if opensubtrees ni =? 0 then ancestor_loop w nodeScore below'
      else ancestor_test w nodeScore ni
  end.

(** [nodeScore] of [backtrackPlunge]: the score of the direction the flip
    turns to, read before the flip changes the frame. *)
Definition plunge_nodeScore (w : World) (currnode : NodeData) : double :=
  let fallbackbranch :=
    (boundval (branchingdecision currnode) =? branching_point currnode)%float
  in
  let point :=
    if fallbackbranch then 0.5%float else branching_point currnode in
  match boundtype (branchingdecision currnode) with
  | kLower => getScoreDown w (column (branchingdecision currnode)) point
  | kUpper => getScoreUp w (column (branchingdecision currnode)) point
  end.

(** [backtrackPlunge], from [NodeData& currnode = nodestack.back()] to the
    end of the outer loop body: [true] is the [break], [false] a
    [continue] (the sibling was pruned, or it went to the queue). *)
Definition backtrackPlunge_flip : M bool :=
  modify_back (set_opensubtrees 0) ;;
  currnode <- back ;;
  w <- member world ;;
  let nodeScore := plunge_nodeScore w currnode in
  modify_back flip_branchingdecision ;;
  domchgPos <- domchgstack_size ;;
  numChangedCols <- changedcols_size ;;
  currnode <- back ;;
  passStabilizerToChildNode <-
    orbitsValidInChildNode (branchingdecision currnode) ;;
  call (changeBound (branchingdecision currnode)) ;;
  prune <- sibling_pruned currnode passStabilizerToChildNode ;;
  if prune : bool then
    call localdom_backtrack ;;
    call (clearChangedCols_from numChangedCols) ;;
    depth <- getCurrentDepth ;;
    update (fun s => set_treeweight (treeweight s + Dbl.pow_half depth)%float s) ;;
    ret false
  else
    (* we check if switching to the other branch of an anchestor yields a
       higher additive branch score than staying in this node and if so we
       postpone the node and put it to the queue to backtrack further. *)
    s <- member (fun s => s) ;;
    let nodeToQueue := ancestor_loop (world s) nodeScore (tl (nodestack s)) in
    if nodeToQueue then
      call localdom_backtrack ;;
      call (clearChangedCols_from numChangedCols) ;;
      '(domchgStack, branchPositions) <- obs getReducedDomainChangeStack ;;
      n <- back ;;
      depth <- getCurrentDepth ;;
      call (emplaceNode
              (mkOpenNode domchgStack branchPositions (lower_bound n)
                 (estimate n) (depth + 1))) ;;
      ret false
    else
      emplace_back (child_of currnode passStabilizerToChildNode) ;;
      call flushDomain ;;
      modify_back (set_domgchgStackPos domchgPos) ;;
      ret true.

Fixpoint backtrackPlunge_loop (fuel : nat) : M bool :=
  match fuel with
  | O => undefined
  | S fuel =>
      size <- nodestack_size ;;
      r <- unwind size ;;
      match r with
      | Return b => ret b
      | Continue _ =>
          pushed <- backtrackPlunge_flip ;;
          if pushed : bool then ret true else backtrackPlunge_loop fuel
      end
  end.

(** [HighsSearch::backtrackPlunge]. *)
Definition backtrackPlunge : M bool :=
  e <- nodestack_empty ;;
  if e : bool then ret false
  else
    size <- nodestack_size ;;
    r <- backtrackPlunge_loop (S size) ;;
    if r : bool then
      n <- back ;;
      when (is_some (nodeBasis n))
        (call (setStoredBasis (nodeBasis n)) ;; call recoverBasis) ;;
      ret true
    else ret false.

(** The loop of [backtrackUntilDepth]; [Return false] is its
    [return false]. *)
Fixpoint untilDepth_unwind (fuel : nat) (targetDepth : HighsInt)
    : M (LoopStep bool unit) :=
  n <- back ;;
  if opensubtrees n =? 0 then
    match fuel with
    | O => undefined
    | S fuel =>
        update (fun s => set_depthoffset (depthoffset s + skipDepthCount n) s) ;;
        pop_back ;;
        call localdom_backtrack ;;
        e <- nodestack_empty ;;
        if e : bool then
          call flushDomain ;;
          ret (Return false)
        else
          depth <- getCurrentDepth ;;
          when (depth >=? targetDepth) (modify_back (set_opensubtrees 0)) ;;
          untilDepth_unwind fuel targetDepth
    end
  else ret (Continue tt).

(** [HighsSearch::backtrackUntilDepth]. *)
Definition backtrackUntilDepth (targetDepth : HighsInt) : M bool :=
  e <- nodestack_empty ;;
  if e : bool then ret false
  else
    depth <- getCurrentDepth ;;
    when (depth >=? targetDepth) (modify_back (set_opensubtrees 0)) ;;
    size <- nodestack_size ;;
    r <- untilDepth_unwind size targetDepth ;;
    match r with
    | Return b => ret b
    | Continue _ =>
        modify_back (set_opensubtrees 0) ;;
        modify_back flip_branchingdecision ;;
        domchgPos <- domchgstack_size ;;
        currnode <- back ;;
        passStabilizerToChildNode <-
          orbitsValidInChildNode (branchingdecision currnode) ;;
        call (changeBound (branchingdecision currnode)) ;;
        emplace_back (child_of currnode passStabilizerToChildNode) ;;
        call flushDomain ;;
        modify_back (set_domgchgStackPos domchgPos) ;;
        n <- back ;;
        rows <- obs lp_getLp_numRow_ ;;
        when (match nodeBasis n with
              | Some b => row_status_size b =? rows
              | None => false
              end)
          (call (setStoredBasis (nodeBasis n))) ;;
        call recoverBasis ;;
        ret true
    end.

(* ================================================================= *)
(** ** The node queue: flushing and installing nodes *)

(** The part that [currentNodeToQueue] and the loop of [openNodesToQueue]
    share: decide whether the current node is pruned, and queue it when it
    is not.  The result is [prune]. *)
Definition node_to_queue_or_prune : M bool :=
  oldchangedcols <- changedcols_size ;;
  n <- back ;;
  cutoff <- getCutoffBound ;;
  let prune := Dbl.gtb (lower_bound n) cutoff in
  prune <- (if negb prune then
              call propagate ;;
              call (clearChangedCols_from oldchangedcols) ;;
              prune <- obs infeasible ;;
              when prune (call conflictAnalysis) ;;
              ret prune
            else ret prune) ;;
  (if negb prune then
     '(domchgStack, branchPositions) <- obs getReducedDomainChangeStack ;;
     n <- back ;;
     depth <- getCurrentDepth ;;
     call (emplaceNode
             (mkOpenNode domchgStack branchPositions (lower_bound n)
                (estimate n) depth))
   else ret tt) ;;
  ret prune.

Definition add_pruned_treeweight : M unit :=
  depth <- getCurrentDepth ;;
  update (fun s =>
            set_treeweight (treeweight s + Dbl.pow_half (depth - 1))%float s).

(** [HighsSearch::currentNodeToQueue]. *)
Definition currentNodeToQueue : M unit :=
  prune <- node_to_queue_or_prune ;;
  when prune add_pruned_treeweight ;;
  modify_back (set_opensubtrees 0) ;;
  b <- backtrack recoverBasis_default ;;
  call flushDomain ;;
  e <- nodestack_empty ;;
  if e : bool then ret tt
  else
    n <- back ;;
    when (is_some (nodeBasis n))
      (call (setStoredBasis (nodeBasis n)) ;; call recoverBasis).

(** The loop [while (!nodestack.empty())] of [openNodesToQueue]; [basis] is
    the local shared pointer of the function. *)
Fixpoint openNodes_loop (fuel : nat) (basis : option HighsBasis)
    : M (option HighsBasis) :=
  e <- nodestack_empty ;;
  if e : bool then ret basis
  else
    match fuel with
    | O => undefined
    | S fuel =>
        prune <- node_to_queue_or_prune ;;
        when prune (call debugSolution_nodePruned ;; add_pruned_treeweight) ;;
        modify_back (set_opensubtrees 0) ;;
        n <- back ;;
        let basis := if is_some (nodeBasis n) then nodeBasis n else basis in
        when (is_some (nodeBasis n)) (modify_back (set_nodeBasis None)) ;;
        b <- backtrack false ;;
        openNodes_loop fuel basis
    end.

(** [HighsSearch::openNodesToQueue]. *)
Definition openNodesToQueue (fuel : nat) : M unit :=
  e <- nodestack_empty ;;
  if e : bool then ret tt
  else
    n <- back ;;
    basis <-
      (if opensubtrees n =? 0 then
         let basis := if is_some (nodeBasis n) then nodeBasis n else None in
         when (is_some (nodeBasis n)) (modify_back (set_nodeBasis None)) ;;
         b <- backtrack false ;;
         ret basis
       else ret None) ;;
    basis <- openNodes_loop fuel basis ;;
    call flushDomain ;;
    match basis with
    | Some b =>
        rows <- obs lp_numRows ;;
        when (row_status_size b =? rows) (call (setStoredBasis (Some b))) ;;
        call recoverBasis
    | None => ret tt
    end.

(** The loop of [installNode] over the branching positions: [false] as
    soon as a branching change on a column that the symmetry data tracks
    is on a column that is not binary, or sets a lower bound of 1. *)
Fixpoint globalSymmetriesValid_loop (w : World)
    (domchgstack : list HighsDomainChange) (branchpos : list HighsInt)
    : bool :=
  match branchpos with
  | [] => true
  | i :: rest =>
      let chg := at_ domchgstack i (mkDomChg 0%float 0 kLower) in
      let col := column chg in
      if symmetries_columnPosition w col =? -1
      then globalSymmetriesValid_loop w domchgstack rest
      else if negb (globaldom_isBinary w col) ||
              (HighsBoundType_eqb (boundtype chg) kLower &&
               (boundval chg =? 1)%float)
      then false
      else globalSymmetriesValid_loop w domchgstack rest
  end.

(** [HighsSearch::installNode]. *)
Definition installNode (node : OpenNode) : M unit :=
  call (setDomainChangeStack (on_domchgstack node) (on_branchings node)) ;;
  w <- member world ;;
  let globalSymmetriesValid :=
    if is_some (globalOrbits w) then
      (* if global orbits have been computed we check whether they are
         still valid in this node *)
      globalSymmetriesValid_loop w (getDomainChangeStack w)
        (getBranchingPositions w)
    else true in
  emplace_back
    (NodeData_new (on_lower_bound node) (on_estimate node) None
       (if globalSymmetriesValid then globalOrbits w else None)) ;;
  update (set_subrootsol []) ;;
  update (set_depthoffset (on_depth node - 1)).

(* ================================================================= *)
(** ** Node evaluation *)

(** [HighsSearch::getParentNodeData]. *)
Definition getParentNodeData : M (option NodeData) :=
  member (fun s => match nodestack s with
                   | _ :: p :: _ => Some p
                   | _ => None
                   end).

(** [parent != nullptr && parent->lp_objective != -kHighsInf &&
    parent->branching_point != parent->branchingdecision.boundval]. *)
Definition parent_branched_on_lp (parent : option NodeData) : bool :=
  match parent with
  | Some p =>
      Dbl.neqb (lp_objective p) (- kHighsInf)%float &&
      Dbl.neqb (branching_point p) (boundval (branchingdecision p))
  | None => false
  end.

(** The cutoff observation that three branches of [evaluateNode] record on
    the branching column of the parent. *)
Definition parent_cutoff_observation (parent : option NodeData) : M unit :=
  match parent with
  | Some p =>
      when (parent_branched_on_lp parent)
        (let col := column (branchingdecision p) in
         let upbranch :=
           HighsBoundType_eqb (boundtype (branchingdecision p)) kLower in
         call (addCutoffObservation col upbranch))
  | None => ret tt
  end.

(** The branch [else if (lp->scaledOptimal(status))] of [evaluateNode];
    [None] stands for [return evaluateNode()]. *)
Definition evaluate_scaledOptimal (parent : option NodeData)
    (status : LpStatus) : M (option NodeResult) :=
  call storeBasis ;;
  call resetAges ;;
  b <- obs getStoredBasis ;;
  modify_back (set_nodeBasis b) ;;
  e <- obs computeBestEstimate ;;
  modify_back (set_estimate e) ;;
  o <- obs getObjective ;;
  modify_back (set_lp_objective o) ;;
  currnode <- back ;;
  (match parent with
   | Some p =>
       when (parent_branched_on_lp parent)
         (let col := column (branchingdecision p) in
          let delta :=
            (boundval (branchingdecision p) - branching_point p)%float in
          let objdelta :=
            Dbl.max 0%float (lp_objective currnode - lp_objective p)%float in
          call (addObservation col delta objdelta))
   | None => ret tt
   end) ;;
  fracints <- obs getFractionalIntegers ;;
  result <-
    (if unscaledPrimalFeasible status && is_nil fracints then
       cutoffbnd <- getCutoffBound ;;
       sol <- obs lpsolver_col_value ;;
       obj <- obs getObjective ;;
       inh <- member inheuristic ;;
       call (addIncumbent sol obj (if inh then "H"%char else "T"%char)) ;;
       ul <- obs mip_upper_limit ;;
       when (ul <? cutoffbnd)%float (call (setObjectiveLimit ul)) ;;
       addBoundExceedingConflict ;;
       ret kBoundExceeding
     else ret kOpen) ;;
  if NodeResult_eqb result kOpen then
    if unscaledDualFeasible status then
      modify_back (fun n =>
        set_lower_bound (Dbl.max (lp_objective n) (lower_bound n)) n) ;;
      currnode <- back ;;
      cutoff <- getCutoffBound ;;
      ul <- obs mip_upper_limit ;;
      if Dbl.gtb (lower_bound currnode) cutoff then
        addBoundExceedingConflict ;;
        ret (Some kBoundExceeding)
      else if Dbl.neqb ul kHighsInf then
        call propagateRedCost ;;
        infeas <- obs infeasible ;;
        if infeas : bool then
          addBoundExceedingConflict ;;
          call clearChangedCols ;;
          ret (Some kBoundExceeding)
        else
          changed <- obs getChangedCols ;;
          if negb (is_nil changed) then ret None else ret (Some result)
      else ret (Some result)
    else
      obj <- obs getObjective ;;
      cutoff <- getCutoffBound ;;
      if Dbl.gtb obj cutoff then
        (* the LP is not solved to dual feasibilty due to scaling/numerics
           therefore we compute a conflict constraint as if the LP was
           bound exceeding and propagate the local domain again. *)
        addBoundExceedingConflict ;;
        call propagate ;;
        infeas <- obs infeasible ;;
        if infeas : bool then ret (Some kBoundExceeding)
        else ret (Some result)
      else ret (Some result)
  else ret (Some result).

(** [evaluateNode] up to the final block; [None] stands for
    [return evaluateNode()]. *)
Definition evaluate_body : M (option NodeResult) :=
  currnode <- back ;;
  parent <- getParentNodeData ;;
  call propagate ;;
  infeas <- obs infeasible ;;
  (if negb infeas then
     numPerms <- obs symmetries_numPerms ;;
     (if (numPerms >? 0) && negb (is_some (stabilizerOrbits currnode)) &&
         match parent with
         | None => true
         | Some p =>
             match stabilizerOrbits p with
             | None => true
             | Some o => negb (is_nil (orbitCols o))
             end
         end
      then
        o <- call_r computeStabilizerOrbits ;;
        modify_back (set_stabilizerOrbits o)
      else ret tt) ;;
     currnode <- back ;;
     match stabilizerOrbits currnode with
     | Some o => (numFix <- call_r (orbitalFixing o) ;; ret tt)
     | None => ret tt
     end
   else ret tt) ;;
  (match parent with
   | Some p =>
       size <- domchgstack_size ;;
       currnode <- back ;;
       let inferences := size - (domgchgStackPos currnode + 1) in
       call (addInferenceObservation (column (branchingdecision p)) inferences
               (HighsBoundType_eqb (boundtype (branchingdecision p)) kLower))
   | None => ret tt
   end) ;;
  infeas <- obs infeasible ;;
  if infeas : bool then
    call clearChangedCols ;;
    parent_cutoff_observation parent ;;
    call conflictAnalysis ;;
    ret (Some kDomainInfeasible)
  else
    call flushDomain ;;
    ul <- obs mip_upper_limit ;;
    call (setObjectiveLimit ul) ;;
    oldnumiters <- obs getNumLpIterations ;;
    status <- call_r resolveLp ;;
    numiters <- obs getNumLpIterations ;;
    update (fun s =>
              set_lpiterations (lpiterations s + (numiters - oldnumiters)) s) ;;
    infeas <- obs infeasible ;;
    if infeas : bool then
      call clearChangedCols ;;
      parent_cutoff_observation parent ;;
      call conflictAnalysis ;;
      ret (Some kDomainInfeasible)
    else if scaledOptimal status then
      evaluate_scaledOptimal parent status
    else if is_kInfeasible status then
      objbound <- obs modelStatus_is_kObjectiveBound ;;
      let result := if objbound then kBoundExceeding else kLpInfeasible in
      addInfeasibleConflict ;;
      parent_cutoff_observation parent ;;
      ret (Some result)
    else ret (Some kOpen).

(** The final block of [evaluateNode]. *)
Definition evaluate_finish (result : NodeResult) : M NodeResult :=
  (if negb (NodeResult_eqb result kOpen) then
     call debugSolution_nodePruned ;;
     depth <- getCurrentDepth ;;
     update (fun s =>
               set_treeweight
                 (treeweight s + Dbl.pow_half (depth - 1))%float s) ;;
     modify_back (set_opensubtrees 0)
   else ret tt) ;;
  ret result.

(** [HighsSearch::evaluateNode]; [fuel] bounds the depth of its
    recursion. *)
Fixpoint evaluateNode (fuel : nat) : M NodeResult :=
  match fuel with
  | O => undefined
  | S fuel =>
      r <- evaluate_body ;;
      match r with
      | None => evaluateNode fuel
      | Some result => evaluate_finish result
      end
  end.

(* ================================================================= *)
(** ** Branching *)

(** The strong-branching iteration budget of [branch] and the reduction of
    the minimum-reliability parameter, at the head of each pass through its
    loop: the result is [sbmaxiters]. *)
Definition sb_budget (minrel : HighsInt) : M int64_t :=
  if minrel >? 0 then
    sbiters <- getStrongBranchingLpIterations ;;
    total <- getTotalLpIterations ;;
    heur <- getHeuristicLpIterations ;;
    sb <- getStrongBranchingLpIterations ;;
    let sbmaxiters := 100000 + Z.shiftr (total - heur - sb) 1 in
    (if sbiters >? sbmaxiters then
       call (pseudocost_setMinReliable 0)
     else if sbiters >? Z.quot sbmaxiters 2 then
       let reductionratio :=
         (Dbl.of_Z (sbiters - Z.quot sbmaxiters 2) /
          Dbl.of_Z (sbmaxiters - Z.quot sbmaxiters 2))%float in
       let minrelreduced :=
         Dbl.to_Z (Dbl.of_Z minrel - reductionratio * Dbl.of_Z (minrel - 1))%float
       in
       call (pseudocost_setMinReliable (Z.min minrel minrelreduced))
     else ret tt) ;;
    ret sbmaxiters
  else ret 0.

(** The degeneracy factor of the LP, handed to the pseudo-costs. *)
Definition sb_degeneracy : M unit :=
  degeneracyFac <- call_r computeLPDegneracy ;;
  call (setDegeneracyFactor degeneracyFac) ;;
  when (Dbl.geb degeneracyFac 10%float) (call (pseudocost_setMinReliable 0)).

Definition branch_up (n : NodeData) : NodeData :=
  set_bd_boundval (Dbl.ceil (branching_point n)) (set_bd_boundtype kLower n).
Definition branch_down (n : NodeData) : NodeData :=
  set_bd_boundval (Dbl.floor (branching_point n)) (set_bd_boundtype kUpper n).

(** [rootsol] clamped to [[downVal, upVal]]. *)
Definition clamp_rootsol (rootsol downVal upVal : double) : double :=
  if (rootsol <? downVal)%float then downVal
  else if Dbl.gtb rootsol upVal then upVal
  else rootsol.

(** The [switch (childselrule)] of [branch]. *)
Definition select_child (col : HighsInt) : M unit :=
  rule <- member childselrule ;;
  currnode <- back ;;
  w <- member world ;;
  let point := branching_point currnode in
  match rule with
  | kUp => modify_back branch_up
  | kDown => modify_back branch_down
  | kRootSol =>
      let downPrio := (getAvgInferencesDown w col + epsilon w)%float in
      let upPrio := (getAvgInferencesUp w col + epsilon w)%float in
      let downVal := Dbl.floor point in
      let upVal := Dbl.ceil point in
      sub <- member subrootsol ;;
      '(upPrio, downPrio) <-
        (if negb (is_nil sub) then
           let rootsol := clamp_rootsol (at_ sub col 0%float) downVal upVal in
           ret ((upPrio * (1 + (point - rootsol)))%float,
                (downPrio * (1 + (rootsol - point)))%float)
         else
           when (Dbl.neqb (lp_objective currnode) (- kHighsInf)%float)
             (update (set_subrootsol (getSolution_col_value w))) ;;
           if negb (is_nil (rootlpsol w)) then
             let rootsol :=
               clamp_rootsol (at_ (rootlpsol w) col 0%float) downVal upVal in
             ret ((upPrio * (1 + (point - rootsol)))%float,
                  (downPrio * (1 + (rootsol - point)))%float)
           else ret (upPrio, downPrio)) ;;
      if Dbl.geb (upPrio + epsilon w)%float downPrio
      then modify_back branch_up
      else modify_back branch_down
  | kObj =>
      if Dbl.geb (colCost w col) 0%float
      then modify_back branch_up
      else modify_back branch_down
  | kRandom =>
      bit <- call_r random_bit ;;
      if bit : bool then modify_back branch_up else modify_back branch_down
  | kBestCost =>
      if Dbl.gtb (getPseudocostUp_tol w col point (feastol w))
           (getPseudocostDown_tol w col point (feastol w))
      then modify_back branch_down
      else modify_back branch_up
  | kWorstCost =>
      if Dbl.geb (getPseudocostUp w col point) (getPseudocostDown w col point)
      then modify_back branch_up
      else modify_back branch_down
  | kDisjunction =>
      let numnodesup := numNodesUp w col in
      let numnodesdown := numNodesDown w col in
      if numnodesup >? numnodesdown then modify_back branch_up
      else if numnodesdown >? numnodesup then modify_back branch_down
      else if Dbl.geb (colCost w col) 0%float then modify_back branch_up
      else modify_back branch_down
  | kHybridInferenceCost =>
      let upScore :=
        ((1 + getAvgInferencesUp w col) /
         getPseudocostUp_tol w col point (feastol w))%float in
      let downScore :=
        ((1 + getAvgInferencesDown w col) /
         getPseudocostDown_tol w col point (feastol w))%float in
      if Dbl.geb upScore downScore
      then modify_back branch_up
      else modify_back branch_down
  end.

(** The loop [while (nodestack.back().opensubtrees == 2 && ...)] of
    [branch]; [result] is the local of that name. *)
Fixpoint branch_loop (fuel : nat) (minrel : HighsInt) (result : NodeResult)
    : M NodeResult :=
  n <- back ;;
  st <- obs getStatus ;;
  fracints <- obs getFractionalIntegers ;;
  if (opensubtrees n =? 2) && scaledOptimal st && negb (is_nil fracints) then
    match fuel with
    | O => undefined
    | S fuel' =>
        sbmaxiters <- sb_budget minrel ;;
        sb_degeneracy ;;
        branchcand <- selectBranchingCandidate fuel sbmaxiters ;;
        if negb (branchcand =? -1) then
          w <- member world ;;
          let branching := at_ (getFractionalIntegers w) branchcand (0, 0%float) in
          modify_back (set_bd_column (fst branching)) ;;
          modify_back (set_branching_point (snd branching)) ;;
          select_child (fst branching) ;;
          ret kBranched
        else
          result <- evaluateNode fuel ;;
          branch_loop fuel' minrel result
    end
  else ret result.

(** The choice of "any integer variable" when solution branching failed. *)
Definition fallback_branching : M unit :=
  w <- member world ;;
  r <-
    fold_left
      (fun (acc : M double) (i : HighsInt) =>
         bestscore <- acc ;;
         if (colUpper_ w i - colLower_ w i <? 0.5)%float then ret bestscore
         else
           (* the value that the source first gives [fracval] when both
              bounds are finite is overwritten on every path of the
              if-else chain that follows it *)
           let fracval :=
             if Dbl.neqb (colLower_ w i) (- kHighsInf)%float
             then (colLower_ w i + 0.5)%float
             else if Dbl.neqb (colUpper_ w i) kHighsInf
             then (colUpper_ w i - 0.5)%float
             else 0.5%float in
           let score := getScore w i fracval in
           if Dbl.gtb score bestscore then
             (if Dbl.geb (colCost w i) 0%float then
                let upval := Dbl.ceil fracval in
                modify_back (set_branching_point upval) ;;
                modify_back (set_bd_boundtype kLower) ;;
                modify_back (set_bd_column i) ;;
                modify_back (set_bd_boundval upval)
              else
                let downval := Dbl.floor fracval in
                modify_back (set_branching_point downval) ;;
                modify_back (set_bd_boundtype kUpper) ;;
                modify_back (set_bd_column i) ;;
                modify_back (set_bd_boundval downval)) ;;
             ret score
           else ret bestscore)
      (integral_cols w) (ret (-1)%float) ;;
  ret tt.

(** The last resort of [branch]: the node is evaluated again on a fresh LP
    with presolve, then with the primal simplex, then with the interior
    point solver. *)
Definition lp_ladder (fuel : nat) : M NodeResult :=
  call setIterationLimit ;;
  call lpCopy_swap_in ;;
  call (lpsolver_setOptionValue "presolve"%string "on"%string) ;;
  result <- evaluateNode fuel ;;
  result <-
    (if NodeResult_eqb result kOpen then
       call lpsolver_clearSolver ;;
       call (lpsolver_setOptionValue_int "simplex_strategy"%string
               kSimplexStrategyPrimal) ;;
       result <- evaluateNode fuel ;;
       call (lpsolver_setOptionValue_int "simplex_strategy"%string
               kSimplexStrategyDual) ;;
       if NodeResult_eqb result kOpen then
         call lpsolver_clearSolver ;;
         call (lpsolver_setOptionValue "solver"%string "ipm"%string) ;;
         result <- evaluateNode fuel ;;
         if NodeResult_eqb result kOpen then
           call (highsLogUser_warning
                   "Failed to solve node with all integer columns fixed. Declaring node infeasible."%string) ;;
           modify_back (set_opensubtrees 0) ;;
           ret kLpInfeasible
         else ret result
       else ret result
     else ret result) ;;
  call lpCopy_swap_out ;;
  ret result.

(** The end of [branch]: finally open a new node with the branching
    decision added and remember that we have one open subtree left. *)
Definition branch_open_child : M NodeResult :=
  currnode <- back ;;
  domchgPos <- domchgstack_size ;;
  passStabilizerToChildNode <-
    orbitsValidInChildNode (branchingdecision currnode) ;;
  call (changeBound (branchingdecision currnode)) ;;
  modify_back (set_opensubtrees 1) ;;
  currnode <- back ;;
  emplace_back (child_of currnode passStabilizerToChildNode) ;;
  modify_back (set_domgchgStackPos domchgPos) ;;
  ret kBranched.

(** [HighsSearch::branch]; [fuel] bounds the passes through its loop, the
    passes of [selectBranchingCandidate] and the recursion of
    [evaluateNode]. *)
Definition branch (fuel : nat) : M NodeResult :=
  modify_back (set_bd_column (-1)) ;;
  update (set_inbranching true) ;;
  minrel <- obs getMinReliable ;;
  result <- branch_loop fuel minrel kOpen ;;
  update (set_inbranching false) ;;
  call (pseudocost_setMinReliable minrel) ;;
  call (setDegeneracyFactor 1%float) ;;
  currnode <- back ;;
  if negb (opensubtrees currnode =? 2) then ret result
  else
    when (column (branchingdecision currnode) =? -1) fallback_branching ;;
    currnode <- back ;;
    if column (branchingdecision currnode) =? -1 then lp_ladder fuel
    else branch_open_child.

(* ================================================================= *)
(** ** The driver loops *)

(** The loop of [dive]. *)
Fixpoint dive_loop (fuel : nat) : M NodeResult :=
  match fuel with
  | O => undefined
  | S fuel' =>
      update (fun s => set_nnodes (nnodes s + 1) s) ;;
      result <- evaluateNode fuel ;;
      limit <- call_r checkLimits ;;
      if limit : bool then ret result
      else if negb (NodeResult_eqb result kOpen) then ret result
      else
        result <- branch fuel ;;
        if negb (NodeResult_eqb result kBranched) then ret result
        else dive_loop fuel'
  end.

(** [HighsSearch::dive]. *)
Definition dive (fuel : nat) : M NodeResult :=
  call reliableatnode_clear ;;
  dive_loop fuel.

(** [HighsSearch::solveDepthFirst]. *)
Fixpoint solveDepthFirst (fuel : nat) (maxbacktracks : int64_t) : M unit :=
  match fuel with
  | O => undefined
  | S fuel' =>
      if maxbacktracks =? 0 then ret tt
      else
        result <- dive fuel ;;
        (* if a limit was reached the result might be open *)
        if NodeResult_eqb result kOpen then ret tt
        else
          more <- backtrack recoverBasis_default ;;
          if more : bool then solveDepthFirst fuel' (maxbacktracks - 1)
          else ret tt
  end.

End Driver.

(* ================================================================= *)
(** ** The neighbourhoods of the RINS and RENS heuristics *)

Section Neighbourhoods.

Context {C : Collaborators}.

(** [localdom.changeBound(boundtype, col, boundval,
    HighsDomain::Reason::unspecified())]: the member of [HighsDomain] that
    takes the bound in three parts and the reason of the change.  It is
    defined outside these sources. *)
Variable changeBound_unspecified :
  HighsBoundType -> HighsInt -> double -> World -> World.

(** The body of the loop of [setRINSNeighbourhood] for the column [i]. *)
Definition rins_column (basesol relaxsol : list double) (i : HighsInt)
    : M unit :=
  w <- member world ;;
  if negb (variableType_is_kInteger w i) then ret tt
  else if (colLower_ w i =? colUpper_ w i)%float then ret tt
  else
    let intval := Dbl.floor (at_ basesol i 0 + 0.5)%float in
    if (PrimFloat.abs (at_ relaxsol i 0 - intval) <? feastol w)%float then
      when (colLower_ w i <? intval)%float
        (call (changeBound_unspecified kLower i
                 (Dbl.min intval (colUpper_ w i)))) ;;
      w <- member world ;;
      when (Dbl.gtb (colUpper_ w i) intval)
        (call (changeBound_unspecified kUpper i
                 (Dbl.max intval (colLower_ w i))))
    else ret tt.

(** The loop [for (HighsInt i = 0; i != mipsolver.numCol(); ++i)] from the
    column [i] on; [fuel] bounds the number of passes. *)
Fixpoint rins_loop (fuel : nat) (basesol relaxsol : list double)
    (i : HighsInt) : M unit :=
  n <- obs numCol ;;
  if i =? n then ret tt
  else
    match fuel with
    | O => undefined
    | S fuel =>
        rins_column basesol relaxsol i ;;
        rins_loop fuel basesol relaxsol (i + 1)
    end.

(** [HighsSearch::setRINSNeighbourhood]. *)
Definition setRINSNeighbourhood (fuel : nat) (basesol relaxsol : list double)
    : M unit :=
  rins_loop fuel basesol relaxsol 0.

(** The body of the loop of [setRENSNeighbourhood] for the column [i]:
    [Return tt] is the [return] of an infeasible domain. *)
Definition rens_column (lpsol : list double) (i : HighsInt)
    : M (LoopStep unit unit) :=
  w <- member world ;;
  if negb (variableType_is_kInteger w i) then ret (@Continue unit unit tt)
  else if (colLower_ w i =? colUpper_ w i)%float
  then ret (@Continue unit unit tt)
  else
    let downval := Dbl.floor (at_ lpsol i 0 + feastol w)%float in
    let upval := Dbl.ceil (at_ lpsol i 0 - feastol w)%float in
    stop <- (if (colLower_ w i <? downval)%float then
               call (changeBound_unspecified kLower i
                       (Dbl.min downval (colUpper_ w i))) ;;
               obs infeasible
             else ret false) ;;
    if stop : bool then ret (@Return unit unit tt)
    else
      w <- member world ;;
      stop <- (if Dbl.gtb (colUpper_ w i) upval then
                 call (changeBound_unspecified kUpper i
                         (Dbl.max upval (colLower_ w i))) ;;
                 obs infeasible
               else ret false) ;;
      if stop : bool then ret (@Return unit unit tt)
      else ret (@Continue unit unit tt).

Fixpoint rens_loop (fuel : nat) (lpsol : list double) (i : HighsInt)
    : M unit :=
  n <- obs numCol ;;
  if i =? n then ret tt
  else
    match fuel with
    | O => undefined
    | S fuel =>
        r <- rens_column lpsol i ;;
        match r with
        | Return _ _ => ret tt
        | Continue _ _ => rens_loop fuel lpsol (i + 1)
        end
    end.

(** [HighsSearch::setRENSNeighbourhood]. *)
Definition setRENSNeighbourhood (fuel : nat) (lpsol : list double) : M unit :=
  rens_loop fuel lpsol 0.

End Neighbourhoods.

(* ================================================================= *)
(** ** The minimal C entry point: [callhighs] *)

Module MinimalAPI.

(** What [assign(p, p + n)] reads from a caller's buffer of which only the
    listed elements exist: the element, or a read beyond the end of the
    buffer at the given index. *)
Inductive Cell (A : Type) :=
| Value (a : A)
| Beyond (index : nat).
Arguments Value {A} a.
Arguments Beyond {A} index.

Definition read_range {A} (buf : list A) (n : nat) : list (Cell A) :=
  map (fun i => match nth_error buf i with
                | Some a => Value a
                | None => Beyond i
                end)
      (seq 0 n).

(** The fields of [HighsLp] that [callhighs] sets. *)
Record HighsLp := mkLp {
  numCol_ : Z;
  numRow_ : Z;
  numInt_ : Z;
  colCost_ : list (Cell double);
  colLower_ : list (Cell double);
  colUpper_ : list (Cell double);
  rowLower_ : list (Cell double);
  rowUpper_ : list (Cell double);
  Astart_ : list (Cell Z);
  Aindex_ : list (Cell Z);
  Avalue_ : list (Cell double)
}.

(** [callhighs], up to the LP it hands to [Highs::initializeLp].  Each
    [resize] is followed by an [assign] that replaces the vector, so the
    [assign]s fix the final contents.  There is no LP when a size is
    negative ([resize] of a negative [int] throws) or when
    [astart[numcol]] lies outside the caller's buffer. *)
Definition callhighs (numcol numrow : Z)
    (colcost collower colupper rowlower rowupper : list double)
    (astart aindex : list Z) (avalue : list double) : option HighsLp :=
  if (numcol <? 0) || (numrow <? 0) then None
  else
    match nth_error astart (Z.to_nat numcol) with
    | None => None
    | Some local_numNz =>
        if local_numNz <? 0 then None
        else
          Some {| numCol_ := numcol;
                  numRow_ := numrow;
                  numInt_ := 0;
                  colCost_ := read_range colcost (Z.to_nat numcol);
                  colLower_ := read_range collower (Z.to_nat numcol);
                  colUpper_ := read_range colupper (Z.to_nat numcol);
                  rowLower_ := read_range rowlower (Z.to_nat numrow);
                  rowUpper_ := read_range rowupper (Z.to_nat numcol);
                  Astart_ := read_range astart (Z.to_nat (numcol + 1));
                  Aindex_ := read_range aindex (Z.to_nat local_numNz);
                  Avalue_ := read_range avalue (Z.to_nat local_numNz) |}
    end.

End MinimalAPI.

(** Which reads of [callhighs] stay inside the caller's buffers. *)
Module MinimalAPI_reads.

Import MinimalAPI.

(** No cell of the vector was read beyond the end of the caller's
    buffer. *)
Definition inside {A} (v : list (Cell A)) : bool :=
  forallb (fun c => match c with Value _ => true | Beyond _ => false end) v.

(** Every vector of the LP was read inside its buffer. *)
Definition reads_inside (lp : HighsLp) : bool :=
  inside (colCost_ lp) && inside (colLower_ lp) && inside (colUpper_ lp) &&
  inside (rowLower_ lp) && inside (rowUpper_ lp) && inside (Astart_ lp) &&
  inside (Aindex_ lp) && inside (Avalue_ lp).

End MinimalAPI_reads.

(* ================================================================= *)
(** ** A small instance of the collaborators

    Every column is binary (global bounds 0 and 1) and there are no
    constraints: propagation finds nothing, and the local domain is
    infeasible when the changes on its stack leave some column a lower bound
    above its upper bound.  The LP always reports the stored status and the
    stored fractional integers; the pseudo-cost store keeps a log of its
    observations and reads its scores from two tables.  The instance makes
    the statements below concrete; none of them depends on it. *)

Module Toy.

Inductive Status := Optimal | Infeasible | Error.

Inductive Observation :=
| Observed (col : HighsInt) (delta objdelta : double)
| Cutoff (col : HighsInt) (upbranch : bool)
| Inference (col : HighsInt) (n : int64_t) (upbranch : bool).

Record Orbits := mkOrbits {
  o_orbitCols : list HighsInt;
  o_stabilizedCols : list HighsInt
}.

Record State := mkState {
  t_domchgstack : list HighsDomainChange;
  t_branchPos : list HighsInt;
  t_changedcols : list HighsInt;
  t_fracints : list (HighsInt * double);
  t_status : Status;
  t_scoreUp : list double;
  t_scoreDown : list double;
  t_log : list Observation;
  t_minreliable : HighsInt;
  t_queue : list OpenNode;
  t_globalOrbits : option Orbits;
  t_columnPosition : list HighsInt
}.

Definition W := WorldOf State.

Definition on_ext (f : State -> State) (w : W) : W :=
  mkWorld (num_nodes w) (pruned_treeweight w) (total_lp_iterations w)
    (heuristic_lp_iterations w) (sb_lp_iterations w) (f (ext w)).

Definition with_dom (st : list HighsDomainChange) (bp cc : list HighsInt)
    (e : State) : State :=
  mkState st bp cc (t_fracints e) (t_status e) (t_scoreUp e) (t_scoreDown e)
    (t_log e) (t_minreliable e) (t_queue e) (t_globalOrbits e)
    (t_columnPosition e).

Definition with_log (l : list Observation) (e : State) : State :=
  mkState (t_domchgstack e) (t_branchPos e) (t_changedcols e) (t_fracints e)
    (t_status e) (t_scoreUp e) (t_scoreDown e) l (t_minreliable e)
    (t_queue e) (t_globalOrbits e) (t_columnPosition e).

Definition with_minreliable (m : HighsInt) (e : State) : State :=
  mkState (t_domchgstack e) (t_branchPos e) (t_changedcols e) (t_fracints e)
    (t_status e) (t_scoreUp e) (t_scoreDown e) (t_log e) m
    (t_queue e) (t_globalOrbits e) (t_columnPosition e).

Definition with_queue (q : list OpenNode) (e : State) : State :=
  mkState (t_domchgstack e) (t_branchPos e) (t_changedcols e) (t_fracints e)
    (t_status e) (t_scoreUp e) (t_scoreDown e) (t_log e) (t_minreliable e)
    q (t_globalOrbits e) (t_columnPosition e).

(** The local bounds of a column: the tightest change on the stack. *)
Definition lower_of (st : list HighsDomainChange) (col : HighsInt) : double :=
  fold_left
    (fun lb c =>
       match boundtype c with
       | kLower => if column c =? col then Dbl.max lb (boundval c) else lb
       | kUpper => lb
       end) st 0%float.

Definition upper_of (st : list HighsDomainChange) (col : HighsInt) : double :=
  fold_left
    (fun ub c =>
       match boundtype c with
       | kUpper => if column c =? col then Dbl.min ub (boundval c) else ub
       | kLower => ub
       end) st 1%float.

Definition dom_infeasible (st : list HighsDomainChange) : bool :=
  existsb (fun c => (upper_of st (column c) <? lower_of st (column c))%float)
    st.

(** [backtrack] undoes the changes down to and including the last
    branching change. *)
Definition dom_backtrack (e : State) : State :=
  match rev (t_branchPos e) with
  | [] => with_dom [] [] (t_changedcols e) e
  | k :: bp =>
      with_dom (firstn (Z.to_nat k) (t_domchgstack e)) (rev bp)
        (t_changedcols e) e
  end.

Definition dom_changeBound (c : HighsDomainChange) (e : State) : State :=
  with_dom (t_domchgstack e ++ [c])
    (t_branchPos e ++ [Z.of_nat (length (t_domchgstack e))])
    (t_changedcols e ++ [column c]) e.

Definition id_w (w : W) : W := w.

Definition env : Collaborators :=
  {| Ext := State;
     HighsBasis := Z;
     StabilizerOrbits := Orbits;
     LpStatus := Status;
     numCol := fun _ => 0;
     colCost := fun _ _ => 1%float;
     variableType_is_kInteger := fun _ _ => true;
     submip := fun _ => false;
     feastol := fun _ => 0x1p-20%float;
     epsilon := fun _ => 0x1p-30%float;
     mip_upper_limit := fun _ => kHighsInf;
     rootlpsol := fun _ => [];
     integral_cols := fun _ => [];
     globalOrbits := fun w => t_globalOrbits (ext w);
     checkLimits := fun w => (false, w);
     addIncumbent := fun _ _ _ => id_w;
     debugSolution_nodePruned := id_w;
     debugSolution_checkCut := fun _ => id_w;
     highsLogUser_warning := fun _ => id_w;
     globaldom_infeasible := fun _ => false;
     globaldom_isBinary := fun _ _ => true;
     symmetries_numPerms := fun _ => 0;
     symmetries_columnPosition :=
       fun w col => at_ (t_columnPosition (ext w)) col (-1);
     computeStabilizerOrbits := fun w => (None, w);
     orbitCols := o_orbitCols;
     isStabilized :=
       fun o col => existsb (Z.eqb col) (o_stabilizedCols o);
     orbitalFixing := fun _ w => (0, w);
     numNodesUp := fun _ _ => 0;
     numNodesDown := fun _ _ => 0;
     emplaceNode :=
       fun n => on_ext (fun e => with_queue (t_queue e ++ [n]) e);
     changeBound := fun c => on_ext (dom_changeBound c);
     propagate := id_w;
     infeasible := fun w => dom_infeasible (t_domchgstack (ext w));
     localdom_backtrack := on_ext dom_backtrack;
     backtrackToGlobal := on_ext (fun e => with_dom [] [] (t_changedcols e) e);
     getDomainChangeStack := fun w => t_domchgstack (ext w);
     getBranchingPositions := fun w => t_branchPos (ext w);
     getNumDomainChanges :=
       fun w => Z.of_nat (length (t_domchgstack (ext w)));
     getChangedCols := fun w => t_changedcols (ext w);
     clearChangedCols :=
       on_ext (fun e => with_dom (t_domchgstack e) (t_branchPos e) [] e);
     clearChangedCols_from :=
       fun k =>
         on_ext (fun e =>
                   with_dom (t_domchgstack e) (t_branchPos e)
                     (firstn (Z.to_nat k) (t_changedcols e)) e);
     getReducedDomainChangeStack :=
       fun w => (t_domchgstack (ext w), t_branchPos (ext w));
     setDomainChangeStack :=
       fun st bp => on_ext (fun e => with_dom st bp (t_changedcols e) e);
     conflictAnalysis := id_w;
     conflictAnalysis_proof := fun _ => id_w;
     isGlobalBinary := fun _ _ => true;
     colLower_ := fun w col => lower_of (t_domchgstack (ext w)) col;
     colUpper_ := fun w col => upper_of (t_domchgstack (ext w)) col;
     getFractionalIntegers := fun w => t_fracints (ext w);
     setStoredBasis := fun _ => id_w;
     getStoredBasis := fun _ => None;
     storeBasis := id_w;
     recoverBasis := id_w;
     lp_run := fun _ w => (t_status (ext w), w);
     resolveLp := fun w => (t_status (ext w), w);
     getStatus := fun w => t_status (ext w);
     scaledOptimal :=
       fun st => match st with Optimal => true | _ => false end;
     unscaledPrimalFeasible :=
       fun st => match st with Optimal => true | _ => false end;
     unscaledDualFeasible :=
       fun st => match st with Optimal => true | _ => false end;
     is_kInfeasible :=
       fun st => match st with Infeasible => true | _ => false end;
     setObjectiveLimit := fun _ => id_w;
     setIterationLimit := id_w;
     flushDomain := id_w;
     getNumLpIterations := fun _ => 0;
     resetAges := id_w;
     getObjective := fun _ => 0%float;
     lpsolver_col_value := fun _ => [];
     getSolution_col_value := fun _ => [];
     modelStatus_is_kObjectiveBound := fun _ => false;
     computeDualProof := fun _ w => ((false, mkProof [] [] 0%float), w);
     computeDualInfProof := fun w => ((false, mkProof [] [] 0%float), w);
     computeLPDegneracy := fun w => (1%float, w);
     computeBestEstimate := fun _ => 0%float;
     lp_numRows := fun _ => 0;
     lp_getLp_numRow_ := fun _ => 0;
     row_status_size := fun _ => 0;
     lpsolver_setOptionValue := fun _ _ => id_w;
     lpsolver_setOptionValue_int := fun _ _ => id_w;
     kSimplexStrategyPrimal := 4;
     kSimplexStrategyDual := 1;
     lpsolver_clearSolver := id_w;
     lpCopy_swap_in := id_w;
     lpCopy_swap_out := id_w;
     isReliable := fun _ _ => false;
     getPseudocostUp := fun _ _ _ => 1%float;
     getPseudocostDown := fun _ _ _ => 1%float;
     getPseudocostUp_tol := fun _ _ _ _ => 1%float;
     getPseudocostDown_tol := fun _ _ _ _ => 1%float;
     getScore := fun _ _ _ => 0%float;
     getScore2 := fun _ _ _ _ => 0%float;
     getScoreUp := fun w col _ => at_ (t_scoreUp (ext w)) col 0%float;
     getScoreDown := fun w col _ => at_ (t_scoreDown (ext w)) col 0%float;
     getAvgInferencesUp := fun _ _ => 0%float;
     getAvgInferencesDown := fun _ _ => 0%float;
     addObservation :=
       fun col d o =>
         on_ext (fun e => with_log (t_log e ++ [Observed col d o]) e);
     addCutoffObservation :=
       fun col up => on_ext (fun e => with_log (t_log e ++ [Cutoff col up]) e);
     addInferenceObservation :=
       fun col n up =>
         on_ext (fun e => with_log (t_log e ++ [Inference col n up]) e);
     getMinReliable := fun w => t_minreliable (ext w);
     pseudocost_setMinReliable := fun m => on_ext (with_minreliable m);
     setDegeneracyFactor := fun _ => id_w;
     generateConflict := fun p w => (p, w);
     propagateRedCost := id_w;
     HighsCDouble := double;
     cdouble_of := fun d => d;
     cdouble_add := fun a b => (a + b)%float;
     cdouble_to_double := fun d => d;
     random_bit := fun w => (false, w);
     reliableatnode_clear := id_w;
     branchingVarReliableAtNode := fun _ _ => false;
     markBranchingVarUpReliableAtNode := fun _ => id_w;
     markBranchingVarDownReliableAtNode := fun _ => id_w;
     recoverBasis_default := true;
     default_lower_bound := (- kHighsInf)%float;
     default_estimate := (- kHighsInf)%float;
     default_branching_point := 0%float;
     default_branchingdecision := mkDomChg 0%float (-1) kLower;
     default_domgchgStackPos := -1 |}.

(** An empty world, and a search object over it without any frame. *)
Definition ext0 : State :=
  mkState [] [] [] [] Error [] [] [] 8 [] None [].

Definition world0 : W := mkWorld 0 0%float 0 0 0 ext0.

Definition search_on (w : W) (stack : list (@NodeData env))
    : @HighsSearch env :=
  @mkSearch env stack 0 0 0%float 0 0 0 kHighsInf false false kRootSol []
    (mkProof [] [] 0%float) w.

(** A frame that branched on [col] with the given decision. *)
Definition frame (bt : HighsBoundType) (col : HighsInt) (v point : double)
    (open : Z) (pos : HighsInt) (o : option Orbits) : @NodeData env :=
  @mkNodeData env 0%float 0%float point 0%float None o (mkDomChg v col bt)
    pos 0 open.

End Toy.

(* ================================================================= *)
(** * The vocabulary of the statements *)

Section Vocabulary.

Context {C : Collaborators}.

(** The frame that [branchDownwards] and [branchUpwards] leave below the
    child. *)
Definition branched (t : HighsBoundType) (col : HighsInt)
    (v branchpoint : double) (n : NodeData) : NodeData :=
  set_bd_boundtype t
    (set_bd_boundval v
       (set_bd_column col (set_branching_point branchpoint
                             (set_opensubtrees 1 n)))).

(** The child frame of [parent], pushed when the domain-change stack of
    [w] is as long as it was before the branching change. *)
Definition child_at (w : World) (parent : NodeData) (pass : bool) : NodeData :=
  set_domgchgStackPos (Z.of_nat (length (getDomainChangeStack w)))
    (child_of parent pass).

(** The frame the three backtracking functions leave after the flip. *)
Definition flipped (n : NodeData) : NodeData :=
  flip_branchingdecision (set_opensubtrees 0 n).

(** The world after a trial bound is taken back: [localdom.backtrack()]
    and [localdom.clearChangedCols(numChangedCols)], where [w0] is the world
    before the bound was put on the domain. *)
Definition undo_trial (w0 w1 : World) : World :=
  clearChangedCols_from (Z.of_nat (length (getChangedCols w0)))
    (localdom_backtrack w1).

(** The open node that is handed to the queue in the world [w] for the
    frame [n]. *)
Definition parked (w : World) (n : NodeData) (depth : HighsInt) : OpenNode :=
  mkOpenNode (fst (getReducedDomainChangeStack w))
    (snd (getReducedDomainChangeStack w)) (lower_bound n) (estimate n) depth.



(** The branching changes of the local domain: the entries of its
    domain-change stack at the branching positions. *)
Definition branching_changes (w : World) : list HighsDomainChange :=
  map (fun i => at_ (getDomainChangeStack w) i (mkDomChg 0%float 0 kLower))
    (getBranchingPositions w).

Definition symmetry_tracked (w : World) (chg : HighsDomainChange) : Prop :=
  symmetries_columnPosition w (column chg) <> -1.

(** A lower-bound change to the value 1. *)
Definition lower_bound_one (chg : HighsDomainChange) : Prop :=
  boundtype chg = kLower /\ (boundval chg =? 1)%float = true.

(** What [installNode] asks of a branching change to keep the global
    orbits: if its column is tracked by the symmetry data, the column is
    binary and the change is no lower bound of 1. *)
Definition keeps_global_orbits (w : World) (chg : HighsDomainChange) : Prop :=
  symmetry_tracked w chg ->
  globaldom_isBinary w (column chg) = true /\ ~ lower_bound_one chg.

(** The condition as the specification words it: a branching change on a
    tracked column sets a binary variable to 1 through a lower bound, or is
    not on a binary column. *)
Definition keeps_global_orbits_as_specified (w : World)
    (chg : HighsDomainChange) : Prop :=
  symmetry_tracked w chg ->
  (globaldom_isBinary w (column chg) = true /\ lower_bound_one chg) \/
  globaldom_isBinary w (column chg) = false.

(** [installNode] as the specification describes it: with global orbits
    computed, the new frame holds them exactly when every branching change
    meets the specified condition. *)
Definition installNode_as_specified (s : HighsSearch) (node : OpenNode)
    : Prop :=
  forall s' frame,
    installNode node s = Some (tt, s') ->
    nodestack s' = frame :: nodestack s ->
    globalOrbits (world s') <> None ->
    (stabilizerOrbits frame = globalOrbits (world s') <->
     Forall (keeps_global_orbits_as_specified (world s'))
       (branching_changes (world s'))).











(** The search object of a backtracking function once the flipped bound of
    the top frame [n] is on the domain. *)
Definition after_flip (s : HighsSearch) (n : NodeData)
    (rest : list NodeData) : HighsSearch :=
  set_world (changeBound (branchingdecision (flipped n)) (world s))
    (set_nodestack (flipped n :: rest) s).


(** What a node evaluation leaves alone up to its final block: the tree
    weight, the depth offset and the number of frames. *)
Definition same_frames (s s' : HighsSearch) : Prop :=
  treeweight s' = treeweight s /\
  depthoffset s' = depthoffset s /\
  length (nodestack s') = length (nodestack s).

Definition keeps {A} (m : M A) : Prop :=
  forall s a s', m s = Some (a, s') -> same_frames s s'.


(** The top frame of the stack is closed. *)
Definition closed (s : HighsSearch) : Prop :=
  exists n rest, nodestack s = n :: rest /\ opensubtrees n = 0.

(** The world in which [currentNodeToQueue] reads the reduced
    domain-change stack of a node that it does not prune: the local domain
    is propagated and the columns it changed are forgotten. *)
Definition flushed_world (s : HighsSearch) : World :=
  clearChangedCols_from (Z.of_nat (length (getChangedCols (world s))))
    (propagate (world s)).

(** The open node that [currentNodeToQueue] hands to the queue for the
    current frame [n]. *)
Definition flushed_node (s : HighsSearch) (n : NodeData) : OpenNode :=
  parked (flushed_world s) n (getCurrentDepth_of s).


(** The round trip as the specification words it: whatever the stack that
    [currentNodeToQueue] leaves, [installNode] seats a frame with the
    stored bounds over the stored domain-change stack, at the stored
    depth. *)
Definition round_trip_as_specified (s : HighsSearch) (n : NodeData) : Prop :=
  forall s' s'',
    currentNodeToQueue s = Some (tt, s') ->
    installNode (flushed_node s n) s' = Some (tt, s'') ->
    (exists frame below,
       nodestack s'' = frame :: below /\
       lower_bound frame = lower_bound n /\
       estimate frame = estimate n) /\
    world s'' =
    setDomainChangeStack (on_domchgstack (flushed_node s n))
      (on_branchings (flushed_node s n)) (world s') /\
    getCurrentDepth_of s'' = on_depth (flushed_node s n).

(** The number of frames of a stack that are not closed. *)
Definition open_count (stk : list NodeData) : nat :=
  length (filter (fun n => negb (opensubtrees n =? 0)) stk).

(** The top frame is not closed. *)
Definition top_open (s : HighsSearch) : Prop :=
  exists n rest, nodestack s = n :: rest /\ opensubtrees n <> 0.

(** The stack as a flip leaves it when it pushes a child: a new frame with
    both subtrees open on top of a closed frame. *)
Definition fresh_top (s : HighsSearch) : Prop :=
  exists child parent rest,
    nodestack s = child :: parent :: rest /\
    opensubtrees child = 2 /\ opensubtrees parent = 0.

(** What a flip leaves on the stack: the closed, flipped frame, under a new
    child when the result is [true]. *)
Definition flip_result (s : HighsSearch) (n : NodeData)
    (rest : list NodeData) (b : bool) (s' : HighsSearch) : Prop :=
  depthoffset s' = depthoffset s /\
  if b then exists child,
              nodestack s' = child :: flipped n :: rest /\
              opensubtrees child = 2
  else nodestack s' = flipped n :: rest.

(** The outer loop that [backtrack] and [backtrackPlunge] share, over the
    flip of either. *)
Fixpoint flip_loop (flip : M bool) (fuel : nat) : M bool :=
  match fuel with
  | O => undefined
  | S fuel =>
      size <- nodestack_size ;;
      r <- unwind size ;;
      match r with
      | Return _ b => ret b
      | Continue _ _ =>
          pushed <- flip ;;
          if pushed : bool then ret true else flip_loop flip fuel
      end
  end.

(** The state in which a backtracking function returns [b]: without a
    frame when it returns [false], with a new child on top of a closed
    frame when it returns [true]. *)
Definition backtracked (s : HighsSearch) (b : bool) (s' : HighsSearch)
    : Prop :=
  if b then
    fresh_top s' /\
    (open_count (nodestack s') <= open_count (nodestack s))%nat /\
    (length (nodestack s') <= length (nodestack s) + 1)%nat
  else nodestack s' = [].

(** What [selectBestScore] keeps of the local vectors: the scores and
    [resetBasis] as they are, and every reliability flag that is set. *)
Definition flags_kept (L0 L : SbLocals) : Prop :=
  upscore L = upscore L0 /\ downscore L = downscore L0 /\
  resetBasis L = resetBasis L0 /\
  (forall i, at_ (upscorereliable L0) i false = true ->
             at_ (upscorereliable L) i false = true) /\
  (forall i, at_ (downscorereliable L0) i false = true ->
             at_ (downscorereliable L) i false = true).

(** The scores that the pseudo-costs return are not negative: the
    [assert(score >= 0.0)] of the source. *)
Definition scores_nonnegative (w : World) : Prop :=
  (forall col v, (0 <=? getScore w col v)%float = true) /\
  (forall col up down, (0 <=? getScore2 w col up down)%float = true).

(** The current frame has both subtrees open: the
    [assert(nodestack.back().opensubtrees == 2)] of [branch]. *)
Definition unbranched (s : HighsSearch) : Prop :=
  exists n rest, nodestack s = n :: rest /\ opensubtrees n = 2.

(** The program keeps the current frame unbranched. *)
Definition keeps_top {A} (m : M A) : Prop :=
  forall s a s', unbranched s -> m s = Some (a, s') -> unbranched s'.

(** Every result of the program satisfies [Q]. *)
Definition returns {A} (Q : A -> Prop) (m : M A) : Prop :=
  forall s a s', m s = Some (a, s') -> Q a.

(** The results that close the current node. *)
Definition pruned (r : NodeResult) : Prop :=
  r = kDomainInfeasible \/ r = kLpInfeasible \/ r = kBoundExceeding.

(** What the body of [evaluateNode] returns, or [None] for its
    recursion. *)
Definition evaluated (o : option NodeResult) : Prop :=
  match o with
  | Some r => r = kOpen \/ pruned r
  | None => True
  end.

(** The state of the loop of [branch]: the current frame is unbranched and
    the result is [kOpen] or [kBranched], or the result closes the node. *)
Definition in_branch (r : NodeResult) (s : HighsSearch) : Prop :=
  (unbranched s /\ (r = kOpen \/ r = kBranched)) \/ pruned r.



(** The levels that the frames of a stack do not count: the sum of their
    [skipDepthCount]. *)
Definition skipped (stk : list NodeData) : Z :=
  fold_right Z.add 0 (map skipDepthCount stk).

(** The depth offset that the search has once every frame of the stack is
    popped: each [pop_back] of the backtracking functions adds the
    [skipDepthCount] of the frame to [depthoffset]. *)
Definition root_offset (s : HighsSearch) : Z :=
  depthoffset s + skipped (nodestack s).

(** The current frame counts as a level of depth: it is no frame that a
    one-sided branch of strong branching has left behind. *)
Definition top_counted (s : HighsSearch) : Prop :=
  match nodestack s with
  | n :: _ => skipDepthCount n = 0
  | [] => True
  end.

(** What a program that does not descend keeps of the depth accounting,
    when it starts on a frame that counts. *)
Definition accounted (s s' : HighsSearch) : Prop :=
  top_counted s ->
  root_offset s' = root_offset s /\
  top_counted s' /\
  getCurrentDepth_of s' = getCurrentDepth_of s.

(** The program keeps the depth accounting. *)
Definition keeps_depth {A} (m : M A) : Prop :=
  forall s a s', m s = Some (a, s') -> accounted s s'.

(** The depth accounting in the state [s'] in which a backtracking function
    returns [b] from [s]: the root offset is the one of [s]; the new
    current frame counts as a level, and without a frame the depth offset
    is back at the root offset. *)
Definition levels_restored (s : HighsSearch) (b : bool) (s' : HighsSearch)
    : Prop :=
  root_offset s' = root_offset s /\
  if b then top_counted s' else depthoffset s' = root_offset s.

(** Column [i] of [sol] passes the integrality test of [checkSol]: it is
    no integer column, or its value is not further than the feasibility
    tolerance from the nearest integer. *)
Definition integral_at (w : World) (sol : list double) (i : HighsInt) : bool :=
  negb (variableType_is_kInteger w i) ||
  negb (Dbl.gtb
          (PrimFloat.abs
             (at_ sol i 0 - Dbl.floor (at_ sol i 0 + 0.5))%float)
          (feastol w)).

(** The compensated sum of [checkSol] over all columns. *)
Definition objective_sum (w : World) (sol : list double) : HighsCDouble :=
  fold_left (fun o i => cdouble_add o (at_ sol i 0 * colCost w i)%float)
    (indices (numCol w)) (cdouble_of 0%float).

(** The bound [v] of type [t] on the column [i] does not cross the
    opposite bound that the column has in the world [w]: a lower bound is
    not above the upper bound and an upper bound is not below the lower
    bound. *)
Definition within_bounds (w : World) (t : HighsBoundType) (i : HighsInt)
    (v : double) : Prop :=
  match t with
  | kLower => (colUpper_ w i <? v)%float = false
  | kUpper => (v <? colLower_ w i)%float = false
  end.

(** [Inv] is kept by every bound change that stays within the bounds. *)
Definition kept_within_bounds
    (chg : HighsBoundType -> HighsInt -> double -> World -> World)
    (Inv : World -> Prop) : Prop :=
  forall t i v w, Inv w -> within_bounds w t i v -> Inv (chg t i v w).

(** The column [i] is left alone by both neighbourhoods: it is no integer
    column, or its bounds are equal. *)
Definition skipped_column (w : World) (i : HighsInt) : Prop :=
  variableType_is_kInteger w i = false \/
  (colLower_ w i =? colUpper_ w i)%float = true.

(** What a neighbourhood leaves of the search [s]: only the world changes,
    and every invariant of the world is kept that the bound changes within
    the bounds keep. *)
Definition neighbourhood_of
    (chg : HighsBoundType -> HighsInt -> double -> World -> World)
    (s s' : HighsSearch) : Prop :=
  (exists w', s' = set_world w' s) /\
  (forall Inv, kept_within_bounds chg Inv -> Inv (world s) ->
               Inv (world s')).

(** The stack [stk] is what a backtracking function has made of the stack
    [stk0] before it flips a frame: without a frame, or a lower part of
    [stk0] whose top frame is a frame of [stk0] or closed. *)
Definition unwound (stk0 stk : list NodeData) : Prop :=
  match stk with
  | [] => True
  | t :: rest =>
      exists pre n, stk0 = pre ++ n :: rest /\ (t = n \/ opensubtrees t = 0)
  end.

(** The stack [stk] after a backtracking function has flipped a frame of
    the stack [stk0] and pushed its other child: the frames below the
    flipped frame are those of [stk0]. *)
Definition flipped_in (stk0 stk : list NodeData) : Prop :=
  exists pre n rest child,
    stk0 = pre ++ n :: rest /\
    opensubtrees n <> 0 /\
    stk = child :: flipped n :: rest /\
    opensubtrees child = 2 /\
    lower_bound child = lower_bound n /\
    estimate child = estimate n.

(** What a flip leaves on the stack, with the bounds of the child. *)
Definition flip_leaves (s : HighsSearch) (b : bool) (s' : HighsSearch)
    : Prop :=
  forall n rest,
    nodestack s = n :: rest ->
    if b then
      exists child,
        nodestack s' = child :: flipped n :: rest /\
        opensubtrees child = 2 /\
        lower_bound child = lower_bound n /\
        estimate child = estimate n
    else nodestack s' = flipped n :: rest.

(** The stack and the domain as [branch] leaves them when it has branched:
    the child frame, with both subtrees open and the bounds and the basis of
    its parent, on top of the parent frame, which has one subtree left and a
    branching decision on a column; the change that the domain received
    last is that decision. *)
Definition branched_on (s' : HighsSearch) : Prop :=
  exists child parent rest w,
    nodestack s' = child :: parent :: rest /\
    opensubtrees child = 2 /\
    opensubtrees parent = 1 /\
    column (branchingdecision parent) <> -1 /\
    lower_bound child = lower_bound parent /\
    estimate child = estimate parent /\
    nodeBasis child = nodeBasis parent /\
    world s' = changeBound (branchingdecision parent) w.

(** The re-propagation of the frame [n] that the unwinding of [backtrack]
    and [backtrackPlunge] uncovers, in the world [w] that
    [localdom.backtrack()] has left: the world it leaves, and whether the
    domain is infeasible, so that the frame is closed. *)
(** The re-propagation of the frame [n] that [backtrack] and
    [backtrackPlunge] uncover, on the domain [w] that [localdom.backtrack()]
    has left: [propagate], the orbital fixing of the frame when the
    propagation has changed the domain and left it feasible, and, when the
    domain is infeasible, [clearChangedCols]; the flag tells whether the
    domain is infeasible, in which case the frame is closed. *)
Definition repropagated (n : NodeData) (w : World) : World * bool :=
  let w1 := propagate w in
  let w2 :=
    match stabilizerOrbits n with
    | Some o =>
        if negb (infeasible w1) &&
           negb (getNumDomainChanges w =? getNumDomainChanges w1)
        then snd (orbitalFixing o w1)
        else w1
    | None => w1
    end in
  if infeasible w2
  then (clearChangedCols_from (Z.of_nat (length (getChangedCols w))) w2, true)
  else (w2, false).

(** The search in which a backtracking function reaches the frame [n]: the
    closed frame [c] above it is popped, its skipped level is given back to
    the depth offset, and [n] is re-propagated. *)
(** The search object when [backtrack] or [backtrackPlunge], called on a
    stack with the frame [c] on top of the frame [n], has popped [c]: the
    depth offset has received the skipped levels of [c], the domain is
    backtracked and re-propagated, and [n] is closed if that has made the
    domain infeasible. *)
Definition reached (s : HighsSearch) (c n : NodeData) (rest : list NodeData)
    : HighsSearch :=
  let r := repropagated n (localdom_backtrack (world s)) in
  set_world (fst r)
    (set_nodestack ((if snd r then set_opensubtrees 0 n else n) :: rest)
       (set_depthoffset (depthoffset s + skipDepthCount c) s)).


(** The frame [n'] holds the flipped branching decision of the frame [n]:
    the same column; the upper bound [floor(v - 0.5)] for a lower bound
    [v] and the lower bound [ceil(v + 0.5)] for an upper bound [v]; the
    flipped bound as branching point when [v] was the branching point (a
    fallback branch); and no open subtree. *)
Definition flip_of (n n' : NodeData) : Prop :=
  column (branchingdecision n') = column (branchingdecision n) /\
  (boundtype (branchingdecision n) = kLower ->
   boundtype (branchingdecision n') = kUpper /\
   boundval (branchingdecision n') =
   Dbl.floor (boundval (branchingdecision n) - 0.5)%float) /\
  (boundtype (branchingdecision n) = kUpper ->
   boundtype (branchingdecision n') = kLower /\
   boundval (branchingdecision n') =
   Dbl.ceil (boundval (branchingdecision n) + 0.5)%float) /\
  ((boundval (branchingdecision n) =? branching_point n)%float = true ->
   branching_point n' = boundval (branchingdecision n')) /\
  opensubtrees n' = 0.

(** The pruning test of the flipped sibling of the top frame [n] of [s1]
    answers [pruned]: the flipped bound is put on the domain and the
    sibling is pruned when its lower bound exceeds the cutoff or the domain
    is infeasible, at once, after the propagation or after the orbital
    fixing. *)
Definition sibling_test (s1 : HighsSearch) (n : NodeData)
    (rest : list NodeData) (pruned : bool) : Prop :=
  exists pass w1,
    orbitsValidInChildNode (branchingdecision (flipped n))
      (set_nodestack (flipped n :: rest) s1)
    = Some (pass, set_nodestack (flipped n :: rest) s1) /\
    sibling_pruned (flipped n) pass (after_flip s1 n rest)
    = Some (pruned, set_world w1 (after_flip s1 n rest)).

(** A one-sided branch has been committed between [s] and [s']: the stack
    has one frame more and the depth offset is one less. *)
Definition frame_committed (s s' : HighsSearch) : Prop :=
  length (nodestack s') = S (length (nodestack s)) /\
  depthoffset s' = depthoffset s - 1.

(** The program commits a one-sided branch. *)
Definition commits {A} (m : M A) : Prop :=
  forall s a s', m s = Some (a, s') -> frame_committed s s'.

(** Every run of the program satisfies [Q]. *)
Definition ends {A} (Q : HighsSearch -> A -> HighsSearch -> Prop) (m : M A)
    : Prop :=
  forall s a s', m s = Some (a, s') -> Q s a s'.

(** How a trial branch of strong branching ends: it ends the selection
    with -1 after it has committed the opposite branch, or it leaves the
    frames as they were and the selection goes on. *)
Definition trial_outcome (s : HighsSearch) (r : LoopStep HighsInt SbLocals)
    (s' : HighsSearch) : Prop :=
  match r with
  | Return _ c => c = -1 /\ frame_committed s s'
  | Continue _ _ => same_frames s s'
  end.

(** How the selection ends: with -1 after a one-sided branch is committed,
    or with a candidate below [numfrac] and the frames as they were. *)
Definition selection_outcome (numfrac : HighsInt) (s : HighsSearch)
    (c : HighsInt) (s' : HighsSearch) : Prop :=
  (c = -1 /\ frame_committed s s') \/
  (0 <= c < numfrac /\ same_frames s s').

(** How a pass through the loop of [selectBranchingCandidate] ends. *)
Definition pass_outcome (numfrac : HighsInt) (s : HighsSearch)
    (r : LoopStep HighsInt SbLocals) (s' : HighsSearch) : Prop :=
  match r with
  | Return _ c => selection_outcome numfrac s c s'
  | Continue _ _ => same_frames s s'
  end.

End Vocabulary.

(** Search objects over the small instance, for the concrete cases. *)
Module Examples.

(** One frame that branched upwards on column 3 to the bound 1, from the
    LP value 0.5. *)
Definition up_frame : @NodeData Toy.env :=
  Toy.frame kLower 3 1%float 0.5%float 1 0 None.

Definition one_frame : @HighsSearch Toy.env :=
  Toy.search_on Toy.world0 [up_frame].

(** A stabilizer with the orbit columns 0 and 1 that stabilizes no column,
    and a frame that holds it. *)
Definition orbits01 : Toy.Orbits := Toy.mkOrbits [0; 1] [].



(** A world whose global orbits are computed and whose symmetry data
    tracks column 0, an empty search object over it, and an open node with
    one branching change: the upper bound 0 on column 0. *)
Definition sym_world : Toy.W :=
  mkWorld 0 0%float 0 0 0
    (Toy.mkState [] [] [] [] Toy.Error [] [] [] 8 [] (Some orbits01) [0]).

Definition sym_empty : @HighsSearch Toy.env := Toy.search_on sym_world [].

Definition down_node : OpenNode :=
  mkOpenNode [mkDomChg 0%float 0 kUpper] [0] 0%float 0%float 2.

(** A world whose LP has the one fractional integer 0.5 on column 0, while
    the local domain already holds the lower bound 1 on that column: the
    down side of a probe is infeasible.  [probe_search] has one open frame
    over it, and [probe_locals] are the locals of
    [selectBranchingCandidate] at its first pass. *)
Definition probe_world : Toy.W :=
  mkWorld 0 0%float 0 0 0
    (Toy.mkState [mkDomChg 1%float 0 kLower] [] [] [(0, 0.5%float)] Toy.Error
       [] [] [] 8 [] None []).

Definition probe_search : @HighsSearch Toy.env :=
  Toy.search_on probe_world [Toy.frame kLower (-1) 0%float 0%float 2 0 None].









(** A world whose local domain holds the lower bound 1 on column 3, under
    the one frame that branched upwards on that column: the flipped bound,
    the upper bound 0, is infeasible. *)
Definition clash_world : Toy.W :=
  mkWorld 0 0%float 0 0 0
    (Toy.mkState [mkDomChg 1%float 3 kLower] [] [] [] Toy.Error [] [] [] 8
       [] None []).

Definition clash_search : @HighsSearch Toy.env :=
  Toy.search_on clash_world [up_frame].

(** A world whose local domain is infeasible as it stands. *)
Definition infeasible_world : Toy.W :=
  mkWorld 0 0%float 0 0 0
    (Toy.mkState [mkDomChg 1%float 3 kLower; mkDomChg 0%float 3 kUpper] []
       [] [] Toy.Error [] [] [] 8 [] None []).

Definition infeasible_search : @HighsSearch Toy.env :=
  Toy.search_on infeasible_world [up_frame].

(** A local domain that holds the branching change of [up_frame], the
    lower bound 1 on column 3; a fresh frame [leaf]; a search with [leaf]
    over the open frame [up_frame], and one with [leaf] alone. *)
Definition deep_world : Toy.W :=
  mkWorld 0 0%float 0 0 0
    (Toy.mkState [mkDomChg 1%float 3 kLower] [0] [] [] Toy.Error [] [] [] 8
       [] None []).

Definition leaf : @NodeData Toy.env :=
  Toy.frame kLower (-1) 0%float 0%float 2 1 None.

Definition deep_search : @HighsSearch Toy.env :=
  Toy.search_on deep_world [leaf; up_frame].


(** An LP relaxation that is optimal with the fractional integer 0.5 on
    column 0, and a search with one frame, both of whose subtrees are
    open. *)
Definition branching_world : Toy.W :=
  mkWorld 0 0%float 0 0 0
    (Toy.mkState [] [] [] [(0, 0.5%float)] Toy.Optimal [] [] [] 8 [] None []).

Definition branching_search : @HighsSearch Toy.env :=
  Toy.search_on branching_world
    [Toy.frame kLower (-1) 0%float 0%float 2 0 None].

(** A closed frame [closed_leaf]; a search with [closed_leaf] over the open
    frame [up_frame], whose branching change is the one on the domain: a
    backtrack flips [up_frame] and descends into its sibling. *)
Definition closed_leaf : @NodeData Toy.env :=
  Toy.frame kLower (-1) 0%float 0%float 0 1 None.

Definition returning_search : @HighsSearch Toy.env :=
  Toy.search_on deep_world [closed_leaf; up_frame].

(** The same stack over a domain that holds the lower bound 1 on column 3
    also below the branching change: the flipped bound of [up_frame], the
    upper bound 0, is infeasible, and a backtrack prunes the sibling. *)
Definition fixed_world : Toy.W :=
  mkWorld 0 0%float 0 0 0
    (Toy.mkState [mkDomChg 1%float 3 kLower; mkDomChg 1%float 3 kLower] [1]
       [] [] Toy.Error [] [] [] 8 [] None []).

Definition fixed_search : @HighsSearch Toy.env :=
  Toy.search_on fixed_world [closed_leaf; up_frame].

End Examples.

(** The small instance with two columns, for the functions that loop over
    the columns of the model. *)
Module Columns.

Definition env : Collaborators :=
  {| Ext := @Ext Toy.env;
     HighsBasis := @HighsBasis Toy.env;
     StabilizerOrbits := @StabilizerOrbits Toy.env;
     LpStatus := @LpStatus Toy.env;
     numCol := fun _ => 2;
     colCost := @colCost Toy.env;
     variableType_is_kInteger := @variableType_is_kInteger Toy.env;
     submip := @submip Toy.env;
     feastol := @feastol Toy.env;
     epsilon := @epsilon Toy.env;
     mip_upper_limit := @mip_upper_limit Toy.env;
     rootlpsol := @rootlpsol Toy.env;
     integral_cols := @integral_cols Toy.env;
     globalOrbits := @globalOrbits Toy.env;
     checkLimits := @checkLimits Toy.env;
     addIncumbent := @addIncumbent Toy.env;
     debugSolution_nodePruned := @debugSolution_nodePruned Toy.env;
     debugSolution_checkCut := @debugSolution_checkCut Toy.env;
     highsLogUser_warning := @highsLogUser_warning Toy.env;
     globaldom_infeasible := @globaldom_infeasible Toy.env;
     globaldom_isBinary := @globaldom_isBinary Toy.env;
     symmetries_numPerms := @symmetries_numPerms Toy.env;
     symmetries_columnPosition := @symmetries_columnPosition Toy.env;
     computeStabilizerOrbits := @computeStabilizerOrbits Toy.env;
     orbitCols := @orbitCols Toy.env;
     isStabilized := @isStabilized Toy.env;
     orbitalFixing := @orbitalFixing Toy.env;
     numNodesUp := @numNodesUp Toy.env;
     numNodesDown := @numNodesDown Toy.env;
     emplaceNode := @emplaceNode Toy.env;
     changeBound := @changeBound Toy.env;
     propagate := @propagate Toy.env;
     infeasible := @infeasible Toy.env;
     localdom_backtrack := @localdom_backtrack Toy.env;
     backtrackToGlobal := @backtrackToGlobal Toy.env;
     getDomainChangeStack := @getDomainChangeStack Toy.env;
     getBranchingPositions := @getBranchingPositions Toy.env;
     getNumDomainChanges := @getNumDomainChanges Toy.env;
     getChangedCols := @getChangedCols Toy.env;
     clearChangedCols := @clearChangedCols Toy.env;
     clearChangedCols_from := @clearChangedCols_from Toy.env;
     getReducedDomainChangeStack := @getReducedDomainChangeStack Toy.env;
     setDomainChangeStack := @setDomainChangeStack Toy.env;
     conflictAnalysis := @conflictAnalysis Toy.env;
     conflictAnalysis_proof := @conflictAnalysis_proof Toy.env;
     isGlobalBinary := @isGlobalBinary Toy.env;
     colLower_ := @colLower_ Toy.env;
     colUpper_ := @colUpper_ Toy.env;
     getFractionalIntegers := @getFractionalIntegers Toy.env;
     setStoredBasis := @setStoredBasis Toy.env;
     getStoredBasis := @getStoredBasis Toy.env;
     storeBasis := @storeBasis Toy.env;
     recoverBasis := @recoverBasis Toy.env;
     lp_run := @lp_run Toy.env;
     resolveLp := @resolveLp Toy.env;
     getStatus := @getStatus Toy.env;
     scaledOptimal := @scaledOptimal Toy.env;
     unscaledPrimalFeasible := @unscaledPrimalFeasible Toy.env;
     unscaledDualFeasible := @unscaledDualFeasible Toy.env;
     is_kInfeasible := @is_kInfeasible Toy.env;
     setObjectiveLimit := @setObjectiveLimit Toy.env;
     setIterationLimit := @setIterationLimit Toy.env;
     flushDomain := @flushDomain Toy.env;
     getNumLpIterations := @getNumLpIterations Toy.env;
     resetAges := @resetAges Toy.env;
     getObjective := @getObjective Toy.env;
     lpsolver_col_value := @lpsolver_col_value Toy.env;
     getSolution_col_value := @getSolution_col_value Toy.env;
     modelStatus_is_kObjectiveBound := @modelStatus_is_kObjectiveBound Toy.env;
     computeDualProof := @computeDualProof Toy.env;
     computeDualInfProof := @computeDualInfProof Toy.env;
     computeLPDegneracy := @computeLPDegneracy Toy.env;
     computeBestEstimate := @computeBestEstimate Toy.env;
     lp_numRows := @lp_numRows Toy.env;
     lp_getLp_numRow_ := @lp_getLp_numRow_ Toy.env;
     row_status_size := @row_status_size Toy.env;
     lpsolver_setOptionValue := @lpsolver_setOptionValue Toy.env;
     lpsolver_setOptionValue_int := @lpsolver_setOptionValue_int Toy.env;
     kSimplexStrategyPrimal := @kSimplexStrategyPrimal Toy.env;
     kSimplexStrategyDual := @kSimplexStrategyDual Toy.env;
     lpsolver_clearSolver := @lpsolver_clearSolver Toy.env;
     lpCopy_swap_in := @lpCopy_swap_in Toy.env;
     lpCopy_swap_out := @lpCopy_swap_out Toy.env;
     isReliable := @isReliable Toy.env;
     getPseudocostUp := @getPseudocostUp Toy.env;
     getPseudocostDown := @getPseudocostDown Toy.env;
     getPseudocostUp_tol := @getPseudocostUp_tol Toy.env;
     getPseudocostDown_tol := @getPseudocostDown_tol Toy.env;
     getScore := @getScore Toy.env;
     getScore2 := @getScore2 Toy.env;
     getScoreUp := @getScoreUp Toy.env;
     getScoreDown := @getScoreDown Toy.env;
     getAvgInferencesUp := @getAvgInferencesUp Toy.env;
     getAvgInferencesDown := @getAvgInferencesDown Toy.env;
     addObservation := @addObservation Toy.env;
     addCutoffObservation := @addCutoffObservation Toy.env;
     addInferenceObservation := @addInferenceObservation Toy.env;
     getMinReliable := @getMinReliable Toy.env;
     pseudocost_setMinReliable := @pseudocost_setMinReliable Toy.env;
     setDegeneracyFactor := @setDegeneracyFactor Toy.env;
     generateConflict := @generateConflict Toy.env;
     propagateRedCost := @propagateRedCost Toy.env;
     HighsCDouble := @HighsCDouble Toy.env;
     cdouble_of := @cdouble_of Toy.env;
     cdouble_add := @cdouble_add Toy.env;
     cdouble_to_double := @cdouble_to_double Toy.env;
     random_bit := @random_bit Toy.env;
     reliableatnode_clear := @reliableatnode_clear Toy.env;
     branchingVarReliableAtNode := @branchingVarReliableAtNode Toy.env;
     markBranchingVarUpReliableAtNode := @markBranchingVarUpReliableAtNode Toy.env;
     markBranchingVarDownReliableAtNode := @markBranchingVarDownReliableAtNode Toy.env;
     recoverBasis_default := @recoverBasis_default Toy.env;
     default_lower_bound := @default_lower_bound Toy.env;
     default_estimate := @default_estimate Toy.env;
     default_branching_point := @default_branching_point Toy.env;
     default_branchingdecision := @default_branchingdecision Toy.env;
     default_domgchgStackPos := @default_domgchgStackPos Toy.env |}.

(** The bound change of a neighbourhood on the small domain. *)
Definition change (t : HighsBoundType) (i : HighsInt) (v : double)
    : @World env -> @World env :=
  @changeBound Toy.env (mkDomChg v i t).

(** A search without frames over the empty domain: both columns have the
    bounds 0 and 1. *)
Definition search : @HighsSearch env :=
  @mkSearch env [] 0 0 0%float 0 0 0 kHighsInf false false kRootSol []
    (mkProof [] [] 0%float) Toy.world0.

End Columns.

(* ================================================================= *)
(** * Properties *)

(** Symbolic execution of a member function on a search object whose
    fields are variables: the monad is unfolded, the record projections are
    computed, and the conditions the collaborators decide are split. *)
Ltac mcbn :=
  unfold getCurrentDepth, domchgstack_size, changedcols_size,
    nodestack_size, nodestack_empty, emplace_back, when;
  unfold bind, ret, member, obs, call, call_r, update, back, modify_back,
    modify_second, pop_back, undefined, getCutoffBound;
  cbn [nodestack depthoffset nnodes treeweight lpiterations heurlpiterations
       sblpiterations upper_limit inheuristic inbranching childselrule
       subrootsol inds_vals world set_nodestack set_depthoffset set_nnodes
       set_treeweight set_lpiterations set_heurlpiterations
       set_sblpiterations set_inbranching set_subrootsol set_inds_vals
       set_world getCurrentDepth_of negb andb orb fst snd].

Ltac break_step :=
  match goal with
  | |- context [let (_, _) := ?x in _] =>
      let E := fresh "E" in destruct x eqn:E
  | |- context [match stabilizerOrbits ?n with Some _ => _ | None => _ end] =>
      let E := fresh "E" in destruct (stabilizerOrbits n) eqn:E
  | |- context [if ?b then _ else _] =>
      let E := fresh "E" in destruct b eqn:E
  end; mcbn.

Ltac open_search s :=
  let stk := fresh "stk" in let dof := fresh "dof" in
  let nn := fresh "nn" in let tw := fresh "tw" in
  let lpi := fresh "lpi" in let hlpi := fresh "hlpi" in
  let sbi := fresh "sbi" in let ul := fresh "ul" in
  let inh := fresh "inh" in let inb := fresh "inb" in
  let csr := fresh "csr" in let srs := fresh "srs" in
  let iv := fresh "iv" in let w := fresh "w" in
  destruct s as [stk dof nn tw lpi hlpi sbi ul inh inb csr srs iv w]; mcbn.

(** Running a program one [bind] at a time: the first statement is run on
    the state, the rest is left as it is written. *)
Lemma bind_run {C : Collaborators} A B (m : M A) (k : A -> M B) s a s1 :
  m s = Some (a, s1) -> bind m k s = k a s1.
Proof. intros H. unfold bind. rewrite H. reflexivity. Qed.

Ltac run := erewrite bind_run by reflexivity; cbv beta zeta.
Ltac run_by H := erewrite bind_run by (exact H); cbv beta zeta.
Ltac tidy :=
  cbn [nodestack depthoffset nnodes treeweight lpiterations heurlpiterations
       sblpiterations upper_limit inheuristic inbranching childselrule
       subrootsol inds_vals world set_nodestack set_depthoffset set_world
       set_treeweight fst snd].

Section Shapes.

Context {C : Collaborators}.

Lemma orbitsValidInChildNode_total (chg : HighsDomainChange) s n rest :
  nodestack s = n :: rest ->
  exists b, orbitsValidInChildNode chg s = Some (b, s).
Proof.
  intros H. unfold orbitsValidInChildNode. mcbn. rewrite H.
  repeat break_step; eauto.
Qed.

Lemma branchDownwards_shape s n rest col v p :
  nodestack s = n :: rest ->
  let n1 := branched kUpper col v p n in
  exists pass,
    orbitsValidInChildNode (branchingdecision n1)
      (set_nodestack (n1 :: rest) s)
    = Some (pass, set_nodestack (n1 :: rest) s) /\
    branchDownwards col v p s =
    Some (tt, set_world (changeBound (branchingdecision n1) (world s))
                (set_nodestack (child_at (world s) n1 pass :: n1 :: rest) s)).
Proof.
  intros H n1. unfold branchDownwards, orbitsValidInChildNode.
  open_search s. cbn in H. subst. mcbn. fold (branched kUpper col v p n).
  fold n1. generalize dependent n1. intros n1.
  repeat break_step; (eexists; split; reflexivity).
Qed.

Lemma branchUpwards_shape s n rest col v p :
  nodestack s = n :: rest ->
  let n1 := branched kLower col v p n in
  exists pass,
    orbitsValidInChildNode (branchingdecision n1)
      (set_nodestack (n1 :: rest) s)
    = Some (pass, set_nodestack (n1 :: rest) s) /\
    branchUpwards col v p s =
    Some (tt, set_world (changeBound (branchingdecision n1) (world s))
                (set_nodestack (child_at (world s) n1 pass :: n1 :: rest) s)).
Proof.
  intros H n1. unfold branchUpwards, orbitsValidInChildNode.
  open_search s. cbn in H. subst. mcbn. fold (branched kLower col v p n).
  fold n1. generalize dependent n1. intros n1.
  repeat break_step; (eexists; split; reflexivity).
Qed.

Lemma branch_open_child_shape s n rest :
  nodestack s = n :: rest ->
  exists pass,
    orbitsValidInChildNode (branchingdecision n) s = Some (pass, s) /\
    branch_open_child s =
    Some (kBranched,
          set_world (changeBound (branchingdecision n) (world s))
            (set_nodestack
               (child_at (world s) (set_opensubtrees 1 n) pass
                :: set_opensubtrees 1 n :: rest) s)).
Proof.
  intros H. unfold branch_open_child, orbitsValidInChildNode.
  open_search s. cbn in H. subst. mcbn.
  repeat break_step; (eexists; split; reflexivity).
Qed.

Lemma sibling_pruned_total currnode pass s :
  exists b w', sibling_pruned currnode pass s = Some (b, set_world w' s).
Proof.
  open_search s. unfold sibling_pruned. mcbn.
  repeat break_step; eexists _, _; reflexivity.
Qed.

(** [backtrack_flip]: [b] is what the pruning test of the flipped sibling
    answers, [w1] the world it leaves. *)
Lemma backtrack_flip_shape s n rest :
  nodestack s = n :: rest ->
  let s1 := set_nodestack (flipped n :: rest) s in
  exists pass b w1,
    orbitsValidInChildNode (branchingdecision (flipped n)) s1
    = Some (pass, s1) /\
    sibling_pruned (flipped n) pass
      (set_world (changeBound (branchingdecision (flipped n)) (world s)) s1)
    = Some (b, set_world w1 s1) /\
    backtrack_flip s =
    Some (if b then
            (false,
             set_treeweight
               (treeweight s + Dbl.pow_half (getCurrentDepth_of s))%float
               (set_world (undo_trial (world s) w1) s1))
          else
            (true,
             set_world (flushDomain w1)
               (set_nodestack
                  (child_at (world s) (flipped n) pass :: flipped n :: rest)
                  s))).
Proof.
  intros H s1. subst s1.
  unfold backtrack_flip, orbitsValidInChildNode.
  open_search s. cbn in H. subst. mcbn. fold (flipped n).
  generalize (flipped n). intros n'.
  repeat break_step.
  all: match goal with |- context [sibling_pruned ?a ?b ?S] =>
    destruct (sibling_pruned_total a b S) as [b0 [w1 Hs]]; rewrite Hs end.
  all: eexists; exists b0, w1; split; [reflexivity|]; split; [exact Hs|].
  all: destruct b0; mcbn; reflexivity.
Qed.

Lemma plunge_nodeScore_closed (w : World) (n : NodeData) :
  plunge_nodeScore w (set_opensubtrees 0 n) = plunge_nodeScore w n.
Proof. destruct n; reflexivity. Qed.

(** [backtrackPlunge_flip]: a pruned sibling, a sibling that goes to the
    queue, or a child frame. *)
Lemma backtrackPlunge_flip_shape s n rest :
  nodestack s = n :: rest ->
  let s1 := set_nodestack (flipped n :: rest) s in
  exists pass b w1,
    orbitsValidInChildNode (branchingdecision (flipped n)) s1
    = Some (pass, s1) /\
    sibling_pruned (flipped n) pass
      (set_world (changeBound (branchingdecision (flipped n)) (world s)) s1)
    = Some (b, set_world w1 s1) /\
    backtrackPlunge_flip s =
    Some (if b then
            (false,
             set_treeweight
               (treeweight s + Dbl.pow_half (getCurrentDepth_of s))%float
               (set_world (undo_trial (world s) w1) s1))
          else if ancestor_loop w1 (plunge_nodeScore (world s) n) rest then
            (false,
             set_world
               (emplaceNode
                  (parked (undo_trial (world s) w1) (flipped n)
                     (getCurrentDepth_of s + 1))
                  (undo_trial (world s) w1)) s1)
          else
            (true,
             set_world (flushDomain w1)
               (set_nodestack
                  (child_at (world s) (flipped n) pass :: flipped n :: rest)
                  s))).
Proof.
  intros H s1. subst s1.
  unfold backtrackPlunge_flip, orbitsValidInChildNode.
  open_search s. cbn in H. subst. mcbn. fold (flipped n).
  rewrite plunge_nodeScore_closed.
  generalize (flipped n). intros n'.
  repeat break_step.
  all: match goal with |- context [sibling_pruned ?a ?b ?S] =>
    destruct (sibling_pruned_total a b S) as [b0 [w1 Hs]]; rewrite Hs end.
  all: eexists; exists b0, w1; split; [reflexivity|]; split; [exact Hs|].
  all: destruct b0; mcbn; try reflexivity.
  all: unfold undo_trial, parked; destruct (ancestor_loop _ _ _); mcbn.
  all: try reflexivity.
  all: destruct (getReducedDomainChangeStack _); reflexivity.
Qed.

End Shapes.

(* ================================================================= *)
(** ** The flip of the branching decision *)

Section Flip.

Context {C : Collaborators}.

Lemma flipped_decision (n : NodeData) :
  column (branchingdecision (flipped n)) = column (branchingdecision n) /\
  (boundtype (branchingdecision n) = kLower ->
   boundtype (branchingdecision (flipped n)) = kUpper /\
   boundval (branchingdecision (flipped n)) =
   Dbl.floor (boundval (branchingdecision n) - 0.5)%float) /\
  (boundtype (branchingdecision n) = kUpper ->
   boundtype (branchingdecision (flipped n)) = kLower /\
   boundval (branchingdecision (flipped n)) =
   Dbl.ceil (boundval (branchingdecision n) + 0.5)%float) /\
  ((boundval (branchingdecision n) =? branching_point n)%float = true ->
   branching_point (flipped n) = boundval (branchingdecision (flipped n))) /\
  opensubtrees (flipped n) = 0.
Proof.
  unfold flipped, flip_branchingdecision.
  destruct n as [lb es bp lo nb so [v c t] pos sk os].
  cbn [set_opensubtrees branchingdecision boundval column boundtype
       branching_point opensubtrees].
  destruct t, (v =? bp)%float; cbn; repeat split; intros; congruence.
Qed.

End Flip.

(* ================================================================= *)
(** ** Inheritance of the stabilizer orbits *)

Section Orbits.

Context {C : Collaborators}.





End Orbits.


(* ================================================================= *)
(** ** Installing a node: the global orbits *)

Section Install.

Context {C : Collaborators}.

Lemma globalSymmetriesValid_loop_spec (w : World)
    (st : list HighsDomainChange) (bp : list HighsInt) :
  globalSymmetriesValid_loop w st bp = true <->
  Forall (keeps_global_orbits w)
    (map (fun i => at_ st i (mkDomChg 0%float 0 kLower)) bp).
Proof.
  induction bp as [|i bp IH]; cbn [globalSymmetriesValid_loop map].
  - split; [constructor|reflexivity].
  - set (chg := at_ st i (mkDomChg 0%float 0 kLower)).
    destruct (symmetries_columnPosition w (column chg) =? -1) eqn:Et.
    + apply Z.eqb_eq in Et. rewrite IH. split.
      * intros F. constructor; [|exact F]. intros T. contradiction.
      * intros F. inversion F; assumption.
    + apply Z.eqb_neq in Et.
      destruct (globaldom_isBinary w (column chg)) eqn:Eb; cbn [negb orb].
      * destruct (boundtype chg) eqn:Ebt; cbn [HighsBoundType_eqb andb].
        -- destruct (boundval chg =? 1)%float eqn:Ev.
           ++ split; [discriminate|]. intros F. inversion F as [|? ? K _].
              destruct (K Et) as [_ K']. exfalso. apply K'. split; assumption.
           ++ rewrite IH. split.
              ** intros F. constructor; [|exact F]. intros _.
                 split; [exact Eb|]. intros [_ K]. congruence.
              ** intros F. inversion F; assumption.
        -- rewrite IH. split.
           ++ intros F. constructor; [|exact F]. intros _.
              split; [exact Eb|]. intros [K _]. congruence.
           ++ intros F. inversion F; assumption.
      * split; [discriminate|]. intros F. inversion F as [|? ? K _].
        destruct (K Et) as [K' _]. congruence.
Qed.

(** C3, as the source has it.  [installNode] always seats a new frame on
    top of the stack, over the domain-change stack that
    [setDomainChangeStack] leaves.  When global orbits have been computed,
    the frame holds them exactly when every branching change whose column
    the symmetry data tracks is on a binary column and is no lower bound of
    1; when some branching change on a tracked column is on a column that
    is not binary or sets a lower bound of 1, the frame holds no
    stabilizer. *)
Theorem installNode_global_orbits :
  forall (s : HighsSearch) (node : OpenNode),
    exists s' frame,
      installNode node s = Some (tt, s') /\
      nodestack s' = frame :: nodestack s /\
      world s' =
      setDomainChangeStack (on_domchgstack node) (on_branchings node)
        (world s) /\
      (globalOrbits (world s') <> None ->
       (stabilizerOrbits frame = globalOrbits (world s') <->
        Forall (keeps_global_orbits (world s'))
          (branching_changes (world s'))) /\
       (~ Forall (keeps_global_orbits (world s'))
            (branching_changes (world s')) ->
        stabilizerOrbits frame = None)).
Proof.
  intros s node. unfold installNode. open_search s.
  eexists _, _. split; [reflexivity|]. cbn [nodestack world].
  split; [reflexivity|]. split; [reflexivity|].
  cbn [world set_world set_depthoffset set_subrootsol set_nodestack].
  set (w' := setDomainChangeStack _ _ _).
  intros Hg. unfold NodeData_new. cbn [stabilizerOrbits].
  destruct (globalOrbits w') as [o|] eqn:Eo; [|congruence].
  cbn [is_some]. unfold branching_changes.
  destruct (globalSymmetriesValid_loop w' (getDomainChangeStack w')
              (getBranchingPositions w')) eqn:El.
  - apply globalSymmetriesValid_loop_spec in El. split; [tauto|tauto].
  - assert (Hn : ~ Forall (keeps_global_orbits w')
                     (map (fun i => at_ (getDomainChangeStack w') i
                                      (mkDomChg 0%float 0 kLower))
                        (getBranchingPositions w'))).
    { intros F. apply globalSymmetriesValid_loop_spec in F. congruence. }
    split; [|reflexivity]. split; [discriminate|tauto].
Qed.

End Install.

(** The counterexample to C3 as the specification words it: the open node
    [Examples.down_node] has one branching change, the upper bound 0 on the
    tracked binary column 0.  That change neither sets a binary variable to
    1 nor is it on a column that is not binary, yet [installNode] seats the
    frame with the global orbits. *)
Lemma installNode_as_specified_fails :
  ~ @installNode_as_specified Toy.env Examples.sym_empty Examples.down_node.
Proof.
  intros H.
  pose proof (H _ _ eq_refl eq_refl) as H0.
  assert (Hg : forall A (x : A), Some x <> None) by discriminate.
  destruct (H0 (Hg _ _)) as [K _]. specialize (K eq_refl).
  inversion K as [|? ? K1 _].
  assert (T : (0 : Z) <> -1) by discriminate.
  destruct (K1 T) as [[_ [F _]]|F]; discriminate.
Qed.

(* ================================================================= *)
(** ** Strong branching: a trial side that propagates to infeasibility *)

Section Probing.

Context {C : Collaborators}.








End Probing.


(* ================================================================= *)
(** ** The strong-branching budget of [branch] *)

Section Budget.

Context {C : Collaborators}.


End Budget.


(* ================================================================= *)
(** ** Plunging: when the sibling goes to the queue *)

Section Plunge.

Context {C : Collaborators}.




End Plunge.



(* ================================================================= *)
(** ** The C entry point: the row bounds of the LP *)

Section CallHighs.


Import MinimalAPI.

Lemma firstn_snoc {A} (buf : list A) (n : nat) (x : A) :
  nth_error buf n = Some x -> firstn (S n) buf = firstn n buf ++ [x].
Proof.
  revert n. induction buf as [|a buf IH]; intros [|n] H; cbn in *;
    try discriminate.
  - injection H as ->. reflexivity.
  - rewrite (IH _ H). reflexivity.
Qed.

Lemma read_range_spec {A} (buf : list A) (n : nat) :
  read_range buf n =
  map Value (firstn n buf)
  ++ map Beyond (seq (length buf) (n - length buf)).
Proof.
  unfold read_range. induction n as [|n IH]; [reflexivity|].
  rewrite seq_S, map_app, IH. cbn [map Nat.add].
  destruct (nth_error buf n) as [x|] eqn:E.
  - assert (L : (n < length buf)%nat)
      by (apply nth_error_Some; congruence).
    rewrite firstn_snoc with (x := x) by exact E. rewrite map_app.
    replace (S n - length buf)%nat with 0%nat by lia.
    replace (n - length buf)%nat with 0%nat by lia.
    cbn. rewrite !app_nil_r. reflexivity.
  - assert (L : (length buf <= n)%nat) by (apply nth_error_None; exact E).
    rewrite !firstn_all2 by lia.
    replace (S n - length buf)%nat with (S (n - length buf)) by lia.
    rewrite seq_S, map_app, app_assoc. cbn [map].
    replace (length buf + (n - length buf))%nat with n by lia.
    reflexivity.
Qed.

Lemma read_range_length {A} (buf : list A) (n : nat) :
  length (read_range buf n) = n.
Proof. unfold read_range. rewrite length_map, length_seq. reflexivity. Qed.

(** C10.  For a call of [callhighs] with row buffers of [numrow] entries,
    the LP's row lower bounds are the [numrow] entries of [rowlower], while
    the row upper bounds are read from the first [numcol] positions of
    [rowupper]: the vector [rowUpper_] has [numcol] elements, so when
    [numrow <> numcol] its size differs from [numRow_] and from the size
    of [rowLower_], and when [numcol > numrow] every position from
    [numrow] on is a read beyond the end of the caller's buffer. *)
Theorem callhighs_row_upper_from_numcol :
  forall (numcol numrow : Z)
         (colcost collower colupper rowlower rowupper : list double)
         (astart aindex : list Z) (avalue : list double) (numNz : Z),
    0 <= numcol -> 0 <= numrow ->
    length rowlower = Z.to_nat numrow ->
    length rowupper = Z.to_nat numrow ->
    nth_error astart (Z.to_nat numcol) = Some numNz -> 0 <= numNz ->
    exists lp,
      callhighs numcol numrow colcost collower colupper rowlower rowupper
        astart aindex avalue = Some lp /\
      numCol_ lp = numcol /\ numRow_ lp = numrow /\
      rowLower_ lp = map Value rowlower /\
      rowUpper_ lp =
        map Value (firstn (Z.to_nat numcol) rowupper)
        ++ map Beyond (seq (Z.to_nat numrow) (Z.to_nat (numcol - numrow))) /\
      Z.of_nat (length (rowUpper_ lp)) = numcol /\
      (numrow <> numcol ->
       Z.of_nat (length (rowUpper_ lp)) <> numRow_ lp /\
       length (rowUpper_ lp) <> length (rowLower_ lp)) /\
      (numrow < numcol ->
       forall i, numrow <= i < numcol ->
         nth_error (rowUpper_ lp) (Z.to_nat i) = Some (Beyond (Z.to_nat i))).
Proof.
  intros numcol numrow colcost collower colupper rowlower rowupper astart
    aindex avalue numNz Hc Hr Hl Hu Ha Hz.
  unfold callhighs. rewrite Ha.
  replace (numcol <? 0) with false by (symmetry; apply Z.ltb_ge; lia).
  replace (numrow <? 0) with false by (symmetry; apply Z.ltb_ge; lia).
  replace (numNz <? 0) with false by (symmetry; apply Z.ltb_ge; lia).
  cbn [orb]. eexists. split; [reflexivity|].
  cbn [numCol_ numRow_ rowLower_ rowUpper_].
  split; [reflexivity|]. split; [reflexivity|].
  split.
  { rewrite read_range_spec, Hl, Nat.sub_diag, <- Hl, firstn_all.
    cbn. apply app_nil_r. }
  split.
  { rewrite read_range_spec, Hu. do 3 f_equal. lia. }
  split.
  { rewrite read_range_length. lia. }
  split.
  { intros Hne. rewrite !read_range_length. split; lia. }
  intros Hlt i Hi. unfold read_range.
  rewrite nth_error_map, nth_error_seq.
  replace (Z.to_nat i <? Z.to_nat numcol)%nat with true
    by (symmetry; apply Nat.ltb_lt; lia).
  cbn [option_map Nat.add].
  replace (nth_error rowupper (Z.to_nat i)) with (@None double);
    [reflexivity|].
  symmetry. apply nth_error_None. lia.
Qed.

End CallHighs.

(** Two columns and one row: the second row upper bound is read beyond the
    one-element buffer. *)
Lemma callhighs_row_upper_from_numcol_witness :
  exists lp,
    MinimalAPI.callhighs 2 1 [1; 1]%float [0; 0]%float [1; 1]%float
      [0]%float [4]%float [0; 1; 2] [0; 0] [1; 1]%float = Some lp /\
    MinimalAPI.rowLower_ lp = [MinimalAPI.Value 0%float] /\
    MinimalAPI.rowUpper_ lp
    = [MinimalAPI.Value 4%float; MinimalAPI.Beyond 1].
Proof.
  destruct (@callhighs_row_upper_from_numcol 2 1 [1; 1]%float [0; 0]%float
              [1; 1]%float [0]%float [4]%float [0; 1; 2] [0; 0]
              [1; 1]%float 2
              ltac:(lia) ltac:(lia) eq_refl eq_refl eq_refl ltac:(lia))
    as [lp [E [_ [_ [Hl [Hu _]]]]]].
  exists lp. split; [exact E|]. split; [exact Hl|exact Hu].
Defined.

(* ================================================================= *)
(** ** Pruned subtrees and the tree weight *)

Section Weight.

Context {C : Collaborators}.

Lemma same_frames_refl s : same_frames s s.
Proof. repeat split. Qed.

Lemma same_frames_trans s1 s2 s3 :
  same_frames s1 s2 -> same_frames s2 s3 -> same_frames s1 s3.
Proof. unfold same_frames. intuition congruence. Qed.

Lemma keeps_ret A (a : A) : keeps (ret a).
Proof. intros s a' s' H. inversion H. apply same_frames_refl. Qed.

Lemma keeps_bind A B (m : M A) (k : A -> M B) :
  keeps m -> (forall a, keeps (k a)) -> keeps (bind m k).
Proof.
  intros Hm Hk s b s' H. unfold bind in H.
  destruct (m s) as [[a s1]|] eqn:E; [|discriminate].
  exact (same_frames_trans (Hm _ _ _ E) (Hk _ _ _ _ H)).
Qed.

Lemma keeps_undefined A : keeps (@undefined C A).
Proof. intros s a s' H. discriminate. Qed.

Lemma keeps_member A (f : HighsSearch -> A) : keeps (member f).
Proof. intros s a s' H. inversion H. apply same_frames_refl. Qed.

Lemma keeps_obs A (f : World -> A) : keeps (obs f).
Proof. intros s a s' H. inversion H. apply same_frames_refl. Qed.

Lemma keeps_call (f : World -> World) : keeps (call f).
Proof. intros s a s' H. inversion H. destruct s. repeat split. Qed.

Lemma keeps_call_r A (f : World -> A * World) : keeps (call_r f).
Proof.
  intros s a s' H. unfold call_r in H. destruct (f (world s)).
  inversion H. destruct s. repeat split.
Qed.

Lemma keeps_update (f : HighsSearch -> HighsSearch) :
  (forall s, same_frames s (f s)) -> keeps (update f).
Proof. intros Hf s a s' H. inversion H. apply Hf. Qed.

Lemma keeps_back : keeps back.
Proof.
  intros s a s' H. unfold back in H. destruct (nodestack s); inversion H.
  apply same_frames_refl.
Qed.

Lemma keeps_modify_back (f : NodeData -> NodeData) : keeps (modify_back f).
Proof.
  intros s a s' H. unfold modify_back in H.
  destruct s as [stk dof nn tw lpi hlpi sbi ul inh inb csr srs iv w].
  cbn in H. destruct stk; inversion H. repeat split.
Qed.

Lemma keeps_getCutoffBound : keeps getCutoffBound.
Proof. intros s a s' H. inversion H. apply same_frames_refl. Qed.

Lemma keeps_when (b : bool) (m : M unit) : keeps m -> keeps (when b m).
Proof. intros H. destruct b; [exact H|apply keeps_ret]. Qed.

Ltac keeps_step :=
  first
    [ apply keeps_when; cbv zeta
    | apply keeps_bind; [|intros]
    | apply keeps_ret
    | apply keeps_undefined
    | apply keeps_member
    | apply keeps_obs
    | apply keeps_call
    | apply keeps_call_r
    | apply keeps_back
    | apply keeps_modify_back
    | apply keeps_getCutoffBound
    | apply keeps_update;
      (let s := fresh "s" in intros s; destruct s; repeat split)
    | match goal with
      | |- keeps (if ?b then _ else _) => destruct b
      | |- keeps (match ?x with _ => _ end) => destruct x
      end ].

Ltac mcbn_in H :=
  unfold getCurrentDepth, when in H;
  unfold bind, ret, member, call, update, modify_back in H;
  cbn [nodestack depthoffset treeweight world set_world set_treeweight
       set_nodestack getCurrentDepth_of] in H.

Ltac keeps_tac := repeat keeps_step.

Lemma keeps_conflict_from_proof p : keeps (conflict_from_proof p).
Proof. unfold conflict_from_proof. keeps_tac. Qed.

Lemma keeps_addBoundExceedingConflict : keeps addBoundExceedingConflict.
Proof.
  unfold addBoundExceedingConflict.
  repeat first [apply keeps_conflict_from_proof | keeps_step].
Qed.

Lemma keeps_addInfeasibleConflict : keeps addInfeasibleConflict.
Proof.
  unfold addInfeasibleConflict.
  repeat first [apply keeps_conflict_from_proof | keeps_step].
Qed.

Lemma keeps_parent_cutoff_observation parent :
  keeps (parent_cutoff_observation parent).
Proof. unfold parent_cutoff_observation. keeps_tac. Qed.

Lemma keeps_evaluate_scaledOptimal parent status :
  keeps (evaluate_scaledOptimal parent status).
Proof.
  unfold evaluate_scaledOptimal.
  repeat first [apply keeps_addBoundExceedingConflict | keeps_step].
Qed.

Lemma keeps_evaluate_body : keeps evaluate_body.
Proof.
  unfold evaluate_body, getParentNodeData, domchgstack_size.
  repeat first [ apply keeps_parent_cutoff_observation
               | apply keeps_evaluate_scaledOptimal
               | apply keeps_addInfeasibleConflict
               | keeps_step ].
Qed.

Lemma same_frames_depth s s' :
  same_frames s s' -> getCurrentDepth_of s' = getCurrentDepth_of s.
Proof. unfold same_frames, getCurrentDepth_of. intros [_ [-> ->]]. reflexivity. Qed.

(** The final block of [evaluateNode]. *)
Lemma evaluate_finish_spec s result r s' :
  evaluate_finish result s = Some (r, s') ->
  r = result /\
  (result = kOpen -> s' = s) /\
  (result <> kOpen ->
   treeweight s' =
   (treeweight s + Dbl.pow_half (getCurrentDepth_of s - 1))%float /\
   depthoffset s' = depthoffset s /\
   exists n rest,
     nodestack s = n :: rest /\
     nodestack s' = set_opensubtrees 0 n :: rest).
Proof.
  unfold evaluate_finish. intros H.
  destruct result; cbn [NodeResult_eqb negb] in H.
  all: destruct s as [stk dof nn tw lpi hlpi sbi ul inh inb csr srs iv w].
  all: mcbn_in H.
  all: try (destruct stk as [|n rest]; [discriminate|]).
  all: inversion H; subst.
  all: split; [reflexivity|]; split; intros K;
    try discriminate; try congruence; try reflexivity.
  all: cbn; split; [reflexivity|]; split; [reflexivity|].
  all: exists n, rest; split; reflexivity.
Qed.

Lemma evaluateNode_spec fuel :
  forall s r s',
    evaluateNode fuel s = Some (r, s') ->
    (r = kOpen -> treeweight s' = treeweight s) /\
    (r <> kOpen ->
     treeweight s' =
     (treeweight s + Dbl.pow_half (getCurrentDepth_of s - 1))%float /\
     getCurrentDepth_of s' = getCurrentDepth_of s /\
     exists n rest, nodestack s' = n :: rest /\ opensubtrees n = 0).
Proof.
  induction fuel as [|fuel IH]; intros s r s' H; [discriminate|].
  cbn [evaluateNode] in H. unfold bind in H.
  destruct (evaluate_body s) as [[[result|] s1]|] eqn:E; [| |discriminate].
  - pose proof (keeps_evaluate_body _ E) as K.
    destruct (evaluate_finish_spec _ _ H) as [-> [Ho Hp]]. split.
    + intros R. rewrite (Ho R). apply K.
    + intros R. destruct (Hp R) as [Hw [Hd [n [rest [Hs Hs']]]]].
      destruct K as [Kw [Kd Kl]].
      rewrite Hw, Kw. unfold getCurrentDepth_of.
      rewrite Hd, Kd, Hs', <- Kl, Hs. cbn [length].
      split; [reflexivity|]. split; [reflexivity|].
      exists (set_opensubtrees 0 n), rest. split; [reflexivity|].
      destruct n; reflexivity.
  - pose proof (keeps_evaluate_body _ E) as K.
    destruct (IH _ _ _ H) as [Ho Hp]. split.
    + intros R. rewrite (Ho R). apply K.
    + intros R. destruct (Hp R) as [Hw [Hd Hn]].
      rewrite Hw, Hd, (same_frames_depth K). destruct K as [-> _].
      repeat split; [exact Hn].
Qed.

Lemma flushStatistics_spec s :
  exists s',
    flushStatistics s = Some (tt, s') /\
    pruned_treeweight (world s') =
    (pruned_treeweight (world s) + treeweight s)%float /\
    treeweight s' = 0%float /\
    nodestack s' = nodestack s /\ depthoffset s' = depthoffset s.
Proof.
  destruct s as [stk dof nn tw lpi hlpi sbi ul inh inb csr srs iv w].
  eexists. split; [reflexivity|]. repeat split.
Qed.

Lemma depth_of_frame s :
  getCurrentDepth_of s - 1 = logical_depth s.
Proof. unfold getCurrentDepth_of, logical_depth. lia. Qed.

Lemma depth_of_child s :
  getCurrentDepth_of s = logical_depth s + 1.
Proof. unfold getCurrentDepth_of, logical_depth. lia. Qed.

End Weight.

(* ================================================================= *)
(** ** [backtrack] returns *)

Section Totality.

Context {C : Collaborators}.

Lemma unwind_body_total s n rest :
  nodestack s = n :: rest ->
  exists r s',
    unwind_body s = Some (r, s') /\
    length (nodestack s') = length rest /\
    (rest = [] -> r = @Return bool unit false) /\
    (rest <> [] -> r = @Continue bool unit tt).
Proof.
  intros H. unfold unwind_body. open_search s. cbn in H. subst stk. mcbn.
  destruct rest as [|p rest]; mcbn.
  - eexists _, _. split; [reflexivity|]. cbn. repeat split. congruence.
  - repeat break_step.
    all: eexists _, _; (split; [reflexivity|]); cbn;
      repeat split; congruence.
Qed.

Lemma unwind_total fuel :
  forall s,
    nodestack s <> [] ->
    (length (nodestack s) <= fuel)%nat ->
    exists r s',
      unwind fuel s = Some (r, s') /\
      (length (nodestack s') <= length (nodestack s))%nat /\
      (closed s -> (length (nodestack s') < length (nodestack s))%nat) /\
      ((r = @Return bool unit false /\ nodestack s' = []) \/
       (r = @Continue bool unit tt /\ nodestack s' <> [])).
Proof.
  induction fuel as [|fuel IH]; intros s Hne Hlen.
  - destruct (nodestack s); [congruence|cbn in Hlen; lia].
  - destruct (nodestack s) as [|n rest] eqn:Hs; [congruence|].
    cbn [unwind].
    erewrite bind_run by (unfold back; rewrite Hs; reflexivity).
    destruct (opensubtrees n =? 0) eqn:Eo.
    + destruct (unwind_body_total s Hs) as [r [s1 [E [Hl [Hr0 Hr1]]]]].
      run_by E. destruct rest as [|p rest].
      * rewrite (Hr0 eq_refl). exists (@Return bool unit false), s1.
        split; [reflexivity|]. cbn in Hl.
        split; [cbn; lia|]. split; [intros _; cbn; lia|].
        left. split; [reflexivity|]. destruct (nodestack s1); [reflexivity|].
        discriminate.
      * rewrite (Hr1 ltac:(discriminate)).
        assert (Hne1 : nodestack s1 <> [])
          by (destruct (nodestack s1); [discriminate|congruence]).
        destruct (IH s1 Hne1) as [r' [s' [E' [Hl' [_ Hres]]]]].
        { rewrite Hl. cbn [length] in *. lia. }
        exists r', s'. split; [exact E'|]. rewrite Hl in Hl'. cbn [length] in *.
        split; [lia|]. split; [intros _; lia|]. exact Hres.
    + exists (@Continue bool unit tt), s. split; [reflexivity|].
      rewrite Hs. split; [lia|]. split.
      * intros [n' [rest' [Hs' Ho]]]. rewrite Hs in Hs'.
        injection Hs' as <- <-. rewrite Ho in Eo. discriminate.
      * right. split; [reflexivity|discriminate].
Qed.




End Totality.

(* ================================================================= *)
(** ** The queue: a node that is flushed and seated again *)

Section RoundTrip.

Context {C : Collaborators}.


Lemma installNode_shape (node : OpenNode) s :
  exists frame,
    installNode node s =
    Some (tt,
          set_depthoffset (on_depth node - 1)
            (set_subrootsol []
               (set_nodestack (frame :: nodestack s)
                  (set_world
                     (setDomainChangeStack (on_domchgstack node)
                        (on_branchings node) (world s)) s)))) /\
    lower_bound frame = on_lower_bound node /\
    estimate frame = on_estimate node /\
    opensubtrees frame = 2.
Proof.
  unfold installNode.
  destruct s as [stk dof nn tw lpi hlpi sbi ul inh inb csr srs iv w]. mcbn.
  eexists. split; [reflexivity|]. repeat split.
Qed.

Lemma bind_assoc A B D (m : M A) (k1 : A -> M B) (k2 : B -> M D) s :
  bind (bind m k1) k2 s = bind m (fun a => bind (k1 a) k2) s.
Proof.
  unfold bind. destruct (m s) as [[a s1]|]; reflexivity.
Qed.




End RoundTrip.


(** The counterexample to C9 as the specification words it: under
    [Examples.leaf] the frame [Examples.up_frame] is still open, so that [currentNodeToQueue]
    leaves its flipped sibling and a child on the stack; the node stored at
    depth 2 is then seated as a third frame, at depth 4. *)
Lemma round_trip_as_specified_fails :
  ~ @round_trip_as_specified Toy.env Examples.deep_search Examples.leaf.
Proof.
  intros H.
  destruct (@currentNodeToQueue Toy.env Examples.deep_search)
    as [[[] s']|] eqn:E;
    [|vm_compute in E; discriminate].
  destruct (@installNode Toy.env
              (@flushed_node Toy.env Examples.deep_search Examples.leaf) s')
    as [[[] s'']|] eqn:Ei.
  - destruct (H s' s'' E Ei) as [_ [_ Hd]].
    vm_compute in E. injection E as <-.
    vm_compute in Ei. injection Ei as <-.
    vm_compute in Hd. discriminate.
  - vm_compute in E. injection E as <-. vm_compute in Ei. discriminate.
Qed.

(* ================================================================= *)
(** ** The backtracking functions return *)

Section OpenFrames.

Context {C : Collaborators}.

Lemma open_count_cons n stk :
  open_count (n :: stk) =
  ((if (opensubtrees n =? 0)%Z then 0 else 1) + open_count stk)%nat.
Proof. unfold open_count. cbn. destruct (opensubtrees n =? 0); reflexivity. Qed.

Lemma unwind_body_stack s n rest r s' :
  nodestack s = n :: rest ->
  unwind_body s = Some (r, s') ->
  depthoffset s' = depthoffset s + skipDepthCount n /\
  match rest with
  | [] => nodestack s' = []
  | p :: below =>
      nodestack s' = p :: below \/
      (opensubtrees p <> 0 /\ nodestack s' = set_opensubtrees 0 p :: below)
  end.
Proof.
  intros H. unfold unwind_body. open_search s. cbn in H. subst stk. mcbn.
  destruct rest as [|p rest]; mcbn.
  - intros E. injection E as <- <-. split; reflexivity.
  - repeat break_step; intros K; injection K as <- <-; tidy;
      (split; [reflexivity|]); auto.
    all: right; split; [|reflexivity].
    all: intros Z; rewrite Z in *; discriminate.
Qed.

Lemma opensubtrees_set (z : Z) (p : NodeData) :
  opensubtrees (set_opensubtrees z p) = z.
Proof. destruct p; reflexivity. Qed.

Lemma open_count_closed p below :
  (open_count (set_opensubtrees 0 p :: below) <= open_count (p :: below))%nat.
Proof.
  rewrite !open_count_cons, opensubtrees_set. cbn [Z.eqb].
  destruct (opensubtrees p =? 0); lia.
Qed.

Lemma unwind_body_open s n rest r s' :
  nodestack s = n :: rest ->
  unwind_body s = Some (r, s') ->
  (open_count (nodestack s') <= open_count rest)%nat.
Proof.
  intros H E. destruct (unwind_body_stack s H E) as [_ K].
  destruct rest as [|p below]; [rewrite K; lia|].
  destruct K as [->|[_ ->]]; [lia|apply open_count_closed].
Qed.

Lemma unwind_open fuel :
  forall s r s',
    unwind fuel s = Some (r, s') ->
    (open_count (nodestack s') <= open_count (nodestack s))%nat /\
    (r = @Continue bool unit tt ->
     exists n rest, nodestack s' = n :: rest /\ opensubtrees n <> 0).
Proof.
  induction fuel as [|fuel IH]; intros s r s'; cbn [unwind]; unfold bind, back.
  - destruct (nodestack s) as [|n rest] eqn:Hs; [discriminate|].
    destruct (opensubtrees n =? 0) eqn:Eo; [discriminate|].
    intros K. inversion K; subst. rewrite Hs. split; [lia|]. intros _.
    exists n, rest. split; [reflexivity|]. intros Z. rewrite Z in Eo.
    discriminate.
  - destruct (nodestack s) as [|n rest] eqn:Hs; [discriminate|].
    destruct (opensubtrees n =? 0) eqn:Eo.
    + destruct (unwind_body s) as [[[b|[]] s1]|] eqn:E; [| |discriminate].
      * intros K. inversion K; subst.
        pose proof (unwind_body_open s Hs E) as L.
        rewrite open_count_cons. split; [lia|]. discriminate.
      * intros K. destruct (IH _ _ _ K) as [L1 L2].
        pose proof (unwind_body_open s Hs E) as L.
        rewrite open_count_cons. split; [lia|exact L2].
    + intros K. inversion K; subst. rewrite Hs. split; [lia|]. intros _.
      exists n, rest. split; [reflexivity|]. intros Z. rewrite Z in Eo.
      discriminate.
Qed.

Lemma child_at_open w n pass : opensubtrees (child_at w n pass) = 2.
Proof. reflexivity. Qed.

Lemma flipped_closed (n : NodeData) : opensubtrees (flipped n) = 0.
Proof. apply flipped_decision. Qed.

Lemma backtrack_flip_result s n rest :
  nodestack s = n :: rest ->
  exists b s', backtrack_flip s = Some (b, s') /\ flip_result s n rest b s'.
Proof.
  intros H.
  destruct (backtrack_flip_shape s H) as [pass [p [w1 [_ [_ E]]]]].
  destruct s as [stk dof nn tw lpi hlpi sbi ul inh inb csr srs iv w].
  destruct p; eexists _, _; (split; [exact E|]); split; try reflexivity.
  eexists. split; reflexivity.
Qed.

Lemma backtrackPlunge_flip_result s n rest :
  nodestack s = n :: rest ->
  exists b s',
    backtrackPlunge_flip s = Some (b, s') /\ flip_result s n rest b s'.
Proof.
  intros H.
  destruct (backtrackPlunge_flip_shape s H) as [pass [p [w1 [_ [_ E]]]]].
  destruct s as [stk dof nn tw lpi hlpi sbi ul inh inb csr srs iv w].
  destruct p; [|destruct (ancestor_loop _ _ _)];
    eexists _, _; (split; [exact E|]); split; try reflexivity.
  eexists. split; reflexivity.
Qed.

Lemma flip_result_open s n rest b s' :
  nodestack s = n :: rest ->
  opensubtrees n <> 0 ->
  flip_result s n rest b s' ->
  (open_count (nodestack s') <= open_count (nodestack s))%nat /\
  length (nodestack s') = ((if b then 1 else 0) + length (nodestack s))%nat /\
  (b = true -> fresh_top s') /\
  (b = false -> closed s').
Proof.
  intros H Ho [_ R]. rewrite H. rewrite (open_count_cons n).
  apply Z.eqb_neq in Ho. rewrite Ho. destruct b.
  - destruct R as [child [R Hc]]. rewrite R.
    rewrite !open_count_cons, Hc, flipped_closed. cbn [Z.eqb length].
    split; [lia|]. split; [lia|]. split; [|discriminate].
    intros _. exists child, (flipped n), rest.
    split; [exact R|]. split; [exact Hc|apply flipped_closed].
  - rewrite R, open_count_cons, flipped_closed. cbn [Z.eqb length].
    split; [lia|]. split; [lia|]. split; [discriminate|].
    intros _. exists (flipped n), rest. split; [exact R|].
    apply flipped_closed.
Qed.

Lemma backtrack_loop_flip_loop fuel :
  backtrack_loop fuel = flip_loop backtrack_flip fuel.
Proof. induction fuel as [|fuel IH]; cbn; [|rewrite IH]; reflexivity. Qed.

Lemma backtrackPlunge_loop_flip_loop fuel :
  backtrackPlunge_loop fuel = flip_loop backtrackPlunge_flip fuel.
Proof. induction fuel as [|fuel IH]; cbn; [|rewrite IH]; reflexivity. Qed.

Section FlipLoop.

Variable flip : M bool.

Hypothesis flip_spec :
  forall s n rest,
    nodestack s = n :: rest ->
    exists b s', flip s = Some (b, s') /\ flip_result s n rest b s'.

Lemma flip_loop_total fuel :
  forall s,
    nodestack s <> [] ->
    (length (nodestack s) + 1 <= fuel)%nat \/
    (closed s /\ (length (nodestack s) <= fuel)%nat) ->
    exists b s', flip_loop flip fuel s = Some (b, s') /\ backtracked s b s'.
Proof.
  induction fuel as [|fuel IH]; intros s Hne Hlen.
  - destruct (nodestack s); [congruence|]. cbn in Hlen.
    destruct Hlen as [Hlen|[_ Hlen]]; lia.
  - cbn [flip_loop]. unfold nodestack_size. run.
    destruct (@unwind_total _ (length (nodestack s)) s Hne (le_n _))
      as [r [s1 [E [Hl [Hc Hres]]]]].
    destruct (unwind_open _ _ E) as [Ho Htop].
    run_by E. destruct Hres as [[-> Hs1]|[-> Hs1]].
    + exists false, s1. split; [reflexivity|exact Hs1].
    + destruct (Htop eq_refl) as [n1 [rest1 [Hn1 Hopen]]].
      destruct (flip_spec s1 Hn1) as [b [s2 [E2 R]]].
      destruct (flip_result_open Hn1 Hopen R) as [Ho2 [Hl2 [Hf Hcl]]].
      run_by E2. destruct b.
      * exists true, s2. split; [reflexivity|].
        split; [exact (Hf eq_refl)|]. split; lia.
      * destruct (IH s2) as [b' [s3 [E3 R3]]].
        -- destruct (Hcl eq_refl) as [n2 [rest2 [Hs2 _]]]. rewrite Hs2.
           discriminate.
        -- right. split; [exact (Hcl eq_refl)|].
           destruct Hlen as [Hlen|[Hcls Hlen]]; [lia|].
           specialize (Hc Hcls). lia.
        -- exists b', s3. split; [exact E3|].
           unfold backtracked in *. destruct b'; [|exact R3].
           destruct R3 as [F [K1 K2]]. split; [exact F|]. split; lia.
Qed.

End FlipLoop.

Lemma backtracked_same_stack s b s1 s2 :
  nodestack s2 = nodestack s1 -> backtracked s b s1 -> backtracked s b s2.
Proof.
  unfold backtracked, fresh_top. intros E. rewrite E. exact (fun H => H).
Qed.

Lemma backtracked_iff s b s' :
  backtracked s b s' -> (b = false <-> nodestack s' = []).
Proof.
  unfold backtracked. destruct b.
  - intros [[child [parent [rest [E _]]]] _]. rewrite E.
    split; discriminate.
  - intros E. split; auto.
Qed.

Lemma backtrack_spec (rb : bool) s :
  exists b s', backtrack rb s = Some (b, s') /\
               backtracked s b s' /\
               (nodestack s = [] -> s' = s).
Proof.
  { unfold backtrack, nodestack_empty, nodestack_size. run.
    destruct (nodestack s) as [|n rest] eqn:Hs.
    - exists false, s. split; [reflexivity|]. split; [exact Hs|].
      reflexivity.
    - run. rewrite Hs, backtrack_loop_flip_loop.
      destruct (@flip_loop_total _ backtrack_flip_result
                  (S (length (n :: rest))) s)
        as [b [s1 [E R]]].
      { rewrite Hs. discriminate. }
      { left. rewrite Hs. lia. }
      run_by E. destruct b.
      + destruct R as [F R]. destruct F as [c [p [below [Hs1 Hcp]]]].
        erewrite bind_run by (unfold back; rewrite Hs1; reflexivity).
        destruct (rb && is_some (nodeBasis c)); unfold when.
        * eexists true, _. split; [reflexivity|]. split; [|discriminate].
          apply backtracked_same_stack with (s1 := s1);
            [destruct s1; reflexivity|].
          split; [exists c, p, below; split; assumption|].
          first [exact R | rewrite Hs; exact R | rewrite Hs in R; exact R].
        * exists true, s1. split; [reflexivity|]. split; [|discriminate].
          split; [exists c, p, below; split; assumption|].
          first [exact R | rewrite Hs; exact R | rewrite Hs in R; exact R].
      + exists false, s1. split; [reflexivity|]. split; [exact R|].
        discriminate. }
Qed.

Lemma backtrackPlunge_spec s :
  exists b s', backtrackPlunge s = Some (b, s') /\
               backtracked s b s' /\
               (nodestack s = [] -> s' = s).
Proof.
  { unfold backtrackPlunge, nodestack_empty, nodestack_size. run.
    destruct (nodestack s) as [|n rest] eqn:Hs.
    - exists false, s. split; [reflexivity|]. split; [exact Hs|].
      reflexivity.
    - run. rewrite Hs, backtrackPlunge_loop_flip_loop.
      destruct (@flip_loop_total _ backtrackPlunge_flip_result
                  (S (length (n :: rest))) s)
        as [b [s1 [E R]]].
      { rewrite Hs. discriminate. }
      { left. rewrite Hs. lia. }
      run_by E. destruct b.
      + destruct R as [F R]. destruct F as [c [p [below [Hs1 Hcp]]]].
        erewrite bind_run by (unfold back; rewrite Hs1; reflexivity).
        destruct (is_some (nodeBasis c)); unfold when.
        * eexists true, _. split; [reflexivity|]. split; [|discriminate].
          apply backtracked_same_stack with (s1 := s1);
            [destruct s1; reflexivity|].
          split; [exists c, p, below; split; assumption|].
          first [exact R | rewrite Hs; exact R | rewrite Hs in R; exact R].
        * exists true, s1. split; [reflexivity|]. split; [|discriminate].
          split; [exists c, p, below; split; assumption|].
          first [exact R | rewrite Hs; exact R | rewrite Hs in R; exact R].
      + exists false, s1. split; [reflexivity|]. split; [exact R|].
        discriminate. }
Qed.

(** [backtrack] returns: [false] exactly when no frame is left, and then
    an empty stack is left as it is; [true] with a new child, with both
    subtrees open, on top of the frame it has flipped and closed.  The
    number of frames that are not closed does not grow. *)
Theorem backtrack_returns :
  forall (recoverBasis_ : bool) (s : HighsSearch),
    exists b s',
      backtrack recoverBasis_ s = Some (b, s') /\
      (b = false <-> nodestack s' = []) /\
      (b = true ->
       fresh_top s' /\
       (open_count (nodestack s') <= open_count (nodestack s))%nat) /\
      (nodestack s = [] -> s' = s).
Proof.
  intros rb s.
  destruct (backtrack_spec rb s) as [b [s' [E [R Hn]]]]. exists b, s'.
  split; [exact E|]. split; [exact (@backtracked_iff s b s' R)|].
  split; [|exact Hn].
  intros ->. destruct R as [F [Ho _]]. split; assumption.
Qed.

(** [backtrackPlunge] returns in the same way, whether the siblings it
    passes are pruned, go to the queue, or are descended into. *)
Theorem backtrackPlunge_returns :
  forall s : HighsSearch,
    exists b s',
      backtrackPlunge s = Some (b, s') /\
      (b = false <-> nodestack s' = []) /\
      (b = true ->
       fresh_top s' /\
       (open_count (nodestack s') <= open_count (nodestack s))%nat) /\
      (nodestack s = [] -> s' = s).
Proof.
  intros s.
  destruct (backtrackPlunge_spec s) as [b [s' [E [R Hn]]]]. exists b, s'.
  split; [exact E|]. split; [exact (@backtracked_iff s b s' R)|].
  split; [|exact Hn].
  intros ->. destruct R as [F [Ho _]]. split; assumption.
Qed.

Lemma untilDepth_unwind_total (targetDepth : HighsInt) fuel :
  forall s,
    nodestack s <> [] ->
    (length (nodestack s) <= fuel)%nat ->
    (~ closed s -> getCurrentDepth_of s < targetDepth) ->
    exists r s',
      untilDepth_unwind fuel targetDepth s = Some (r, s') /\
      ((r = @Return bool unit false /\ nodestack s' = []) \/
       (r = @Continue bool unit tt /\
        getCurrentDepth_of s' < targetDepth /\
        exists n rest, nodestack s' = n :: rest /\ opensubtrees n <> 0)).
Proof.
  induction fuel as [|fuel IH]; intros s Hne Hlen Hd.
  - destruct (nodestack s); [congruence|cbn in Hlen; lia].
  - destruct (nodestack s) as [|n rest] eqn:Hs; [congruence|].
    cbn [untilDepth_unwind].
    erewrite bind_run by (unfold back; rewrite Hs; reflexivity).
    destruct (opensubtrees n =? 0) eqn:Eo.
    + destruct s as [stk dof nn tw lpi hlpi sbi ul inh inb csr srs iv w].
      cbn [nodestack] in Hs. subst stk. clear Hd.
      run. tidy. run. tidy. run. tidy. unfold nodestack_empty. run. tidy.
      destruct rest as [|p rest].
      * run. eexists _, _. split; [reflexivity|]. left. split; reflexivity.
      * unfold getCurrentDepth. run. tidy. unfold when.
        destruct (getCurrentDepth_of _ >=? targetDepth) eqn:Ed.
        -- run. tidy. apply IH; tidy.
           ++ discriminate.
           ++ cbn [length] in *. lia.
           ++ intros K. exfalso. apply K.
              exists (set_opensubtrees 0 p), rest.
              split; [reflexivity|apply opensubtrees_set].
        -- run. apply IH; tidy.
           ++ discriminate.
           ++ cbn [length] in *. lia.
           ++ intros _. rewrite Z.geb_leb in Ed. apply Z.leb_gt in Ed.
              exact Ed.
    + exists (@Continue bool unit tt), s. split; [reflexivity|]. right.
      split; [reflexivity|].
      assert (Hn : opensubtrees n <> 0)
        by (intros Z; rewrite Z in Eo; discriminate).
      split.
      * apply Hd. intros [n' [rest' [Hs' Ho]]]. rewrite Hs in Hs'.
        injection Hs' as <- <-. contradiction.
      * exists n, rest. split; [exact Hs|exact Hn].
Qed.

Lemma backtrackUntilDepth_spec (targetDepth : HighsInt) (s : HighsSearch) :
  exists b s',
    backtrackUntilDepth targetDepth s = Some (b, s') /\
    (b = false <-> nodestack s' = []) /\
    (b = true -> fresh_top s' /\ getCurrentDepth_of s' <= targetDepth) /\
    (nodestack s = [] -> s' = s).
Proof.
  revert targetDepth s.
  intros t s. unfold backtrackUntilDepth, nodestack_empty, nodestack_size.
  run. destruct (nodestack s) as [|n rest] eqn:Hs.
  - exists false, s. split; [reflexivity|]. split; [tauto|].
    split; [discriminate|reflexivity].
  - unfold getCurrentDepth. run.
    match goal with |- context [bind (when ?c ?m) _ s] =>
      assert (Hw : exists s0, when c m s = Some (tt, s0) /\
                   length (nodestack s0) = length (n :: rest) /\
                   nodestack s0 <> [] /\
                   (~ closed s0 -> getCurrentDepth_of s0 < t))
    end.
    { unfold when. destruct (getCurrentDepth_of s >=? t) eqn:Ed.
      - destruct s as [stk dof nn tw lpi hlpi sbi ul inh inb csr srs iv w].
        cbn [nodestack] in Hs. subst stk. eexists. split; [reflexivity|].
        tidy. split; [reflexivity|]. split; [discriminate|].
        intros K. exfalso. apply K. exists (set_opensubtrees 0 n), rest.
        split; [reflexivity|apply opensubtrees_set].
      - exists s. split; [reflexivity|]. rewrite Hs.
        split; [reflexivity|]. split; [discriminate|]. intros _.
        rewrite Z.geb_leb in Ed. apply Z.leb_gt in Ed. exact Ed. }
    destruct Hw as [s0 [E0 [Hl0 [Hne0 Hd0]]]]. run_by E0. run.
    destruct (@untilDepth_unwind_total t (length (nodestack s0)) s0 Hne0
                (le_n _) Hd0) as [r [s1 [E1 Hres]]].
    run_by E1. destruct Hres as [[-> Hs1]|[-> [Hd1 [n1 [rest1 [Hs1 Ho1]]]]]].
    + exists false, s1. split; [reflexivity|]. split; [tauto|].
      split; discriminate.
    + destruct s1 as [stk dof nn tw lpi hlpi sbi ul inh inb csr srs iv w].
      cbn [nodestack] in Hs1. subst stk. run. tidy. run. tidy.
      unfold domchgstack_size. run. tidy. run. tidy.
      fold (flipped n1).
      match goal with |- context [bind (orbitsValidInChildNode ?c) _ ?S] =>
        destruct (@orbitsValidInChildNode_total _ c S (flipped n1) rest1
                    eq_refl) as [pass Ev]
      end.
      run_by Ev. run. tidy. unfold emplace_back. run. tidy. run. tidy.
      run. tidy. run. tidy. run. unfold when.
      unfold getCurrentDepth_of in *. cbn [nodestack depthoffset length] in *.
      match goal with |- context [if ?c then _ else _] => destruct c end.
      all: repeat (run; tidy).
      all: eexists true, _; (split; [reflexivity|]); tidy.
      all: split; [split; [discriminate|intros K; discriminate]|].
      all: split; [|discriminate].
      all: intros _; split;
        [eexists _, (flipped n1), rest1; split; [reflexivity|];
         split; [reflexivity|apply flipped_closed]
        |cbn [nodestack depthoffset length]; lia].
Qed.

(** [backtrackUntilDepth] returns: [false] exactly when no frame is left;
    [true] with a new child on top of the frame it has flipped, at a depth
    that does not exceed the target. *)
Theorem backtrackUntilDepth_returns :
  forall (targetDepth : HighsInt) (s : HighsSearch),
    exists b s',
      backtrackUntilDepth targetDepth s = Some (b, s') /\
      (b = false <-> nodestack s' = []) /\
      (b = true -> fresh_top s' /\ getCurrentDepth_of s' <= targetDepth) /\
      (nodestack s = [] -> s' = s).
Proof.
  intros targetDepth s.
  destruct (backtrackUntilDepth_spec targetDepth s) as [b [s' [E [Hf Ht]]]].
  exists b, s'. split; [exact E|]. split; [exact Hf|exact Ht].
Qed.

Lemma node_to_queue_or_prune_total s n rest :
  nodestack s = n :: rest ->
  exists prune s1,
    node_to_queue_or_prune s = Some (prune, s1) /\
    nodestack s1 = n :: rest /\
    depthoffset s1 = depthoffset s /\
    treeweight s1 = treeweight s.
Proof.
  intros H. unfold node_to_queue_or_prune. open_search s. cbn in H.
  subst stk. repeat break_step.
  all: eexists _, _; split; [reflexivity|]; repeat split.
Qed.

Lemma fresh_top_open s : fresh_top s -> top_open s.
Proof.
  intros [c [p [rest [E [Hc _]]]]]. exists c, (p :: rest).
  split; [exact E|]. rewrite Hc. discriminate.
Qed.

Lemma openNodes_loop_total fuel :
  forall s basis,
    nodestack s = [] \/ top_open s ->
    (open_count (nodestack s) <= fuel)%nat ->
    exists basis' s',
      openNodes_loop fuel basis s = Some (basis', s') /\
      nodestack s' = [].
Proof.
  induction fuel as [|fuel IH]; intros s basis Htop Hc.
  - destruct Htop as [He|[n [rest [Hs Ho]]]].
    + exists basis, s. cbn [openNodes_loop]. unfold nodestack_empty. run.
      rewrite He. split; [reflexivity|reflexivity].
    + rewrite Hs, open_count_cons in Hc. apply Z.eqb_neq in Ho.
      rewrite Ho in Hc. lia.
  - cbn [openNodes_loop]. unfold nodestack_empty. run.
    destruct (nodestack s) as [|n rest] eqn:Hs.
    + exists basis, s. split; [reflexivity|exact Hs].
    + destruct Htop as [He|[n' [rest' [Hs' Ho]]]]; [congruence|].
      rewrite Hs in Hs'. injection Hs' as <- <-.
      destruct (node_to_queue_or_prune_total s Hs)
        as [prune [s1 [E1 [Hs1 _]]]].
      run_by E1.
      assert (Hw : exists s2,
                 when prune (call debugSolution_nodePruned ;;
                             add_pruned_treeweight) s1 = Some (tt, s2) /\
                 nodestack s2 = n :: rest).
      { destruct s1 as [stk dof nn tw lpi hlpi sbi ul inh inb csr srs iv w].
        cbn [nodestack] in Hs1. subst stk. unfold when.
        destruct prune; [|eexists; split; reflexivity].
        unfold add_pruned_treeweight, getCurrentDepth.
        eexists. split; [reflexivity|reflexivity]. }
      destruct Hw as [s2 [E2 Hs2]]. run_by E2.
      destruct s2 as [stk dof nn tw lpi hlpi sbi ul inh inb csr srs iv w].
      cbn [nodestack] in Hs2. subst stk. run. tidy. run. tidy.
      match goal with
      | |- context [bind (when ?c ?m) _ ?S] =>
          assert (Hb : exists s3 n3, when c m S = Some (tt, s3) /\
                         nodestack s3 = n3 :: rest /\ opensubtrees n3 = 0)
      end.
      { unfold when. destruct (is_some _).
        - eexists _, _. split; [reflexivity|]. tidy.
          split; [reflexivity|].
          destruct n; reflexivity.
        - eexists _, _. split; [reflexivity|]. tidy.
          split; [reflexivity|]. apply opensubtrees_set. }
      destruct Hb as [s3 [n3 [E3 [Hs3 Ho3]]]]. run_by E3.
      destruct (backtrack_spec false s3) as [b [s4 [E4 [R4 _]]]].
      run_by E4. apply IH.
      * destruct b; [right; apply fresh_top_open; apply R4|left; exact R4].
      * destruct b; [|rewrite R4; cbn; lia].
        destruct R4 as [_ [K _]]. rewrite Hs3, open_count_cons, Ho3 in K.
        rewrite open_count_cons in Hc. apply Z.eqb_neq in Ho.
        rewrite Ho in Hc. cbn [Z.eqb] in K. lia.
Qed.

(** [openNodesToQueue] returns and leaves no frame on the stack, once the
    loop is given as many passes as the stack has frames. *)
Theorem openNodesToQueue_empties_stack :
  forall (fuel : nat) (s : HighsSearch),
    (length (nodestack s) <= fuel)%nat ->
    exists s', openNodesToQueue fuel s = Some (tt, s') /\ nodestack s' = [].
Proof.
  intros fuel s Hf. unfold openNodesToQueue, nodestack_empty. run.
  destruct (nodestack s) as [|n rest] eqn:Hs.
  - exists s. split; [reflexivity|exact Hs].
  - erewrite bind_run by (unfold back; rewrite Hs; reflexivity).
    assert (Hc : forall stk, (open_count stk <= length stk)%nat)
      by (intros stk; unfold open_count; apply filter_length_le).
    assert (H1 : exists basis s1,
               (if opensubtrees n =? 0
                then
                  when (is_some (nodeBasis n)) (modify_back (set_nodeBasis None)) ;;
                  b <- backtrack false ;;
                  ret (if is_some (nodeBasis n) then nodeBasis n else None)
                else ret None) s = Some (basis, s1) /\
               (nodestack s1 = [] \/ top_open s1) /\
               (open_count (nodestack s1) <= fuel)%nat).
    { destruct (opensubtrees n =? 0) eqn:Eo.
      - assert (Hb : exists s0,
                   when (is_some (nodeBasis n))
                     (modify_back (set_nodeBasis None)) s = Some (tt, s0) /\
                   open_count (nodestack s0) = open_count (n :: rest)).
        { destruct s as [stk dof nn tw lpi hlpi sbi ul inh inb csr srs iv w].
          cbn [nodestack] in Hs. subst stk. unfold when.
          destruct (is_some (nodeBasis n)).
          - eexists. split; [reflexivity|]. tidy.
            rewrite !open_count_cons. destruct n; reflexivity.
          - eexists. split; reflexivity. }
        destruct Hb as [s0 [E0 Hc0]]. run_by E0.
        destruct (backtrack_spec false s0) as [b [s1 [E1 [R1 _]]]].
        run_by E1. eexists _, s1. split; [reflexivity|].
        destruct b.
        + split; [right; apply fresh_top_open; apply R1|].
          destruct R1 as [_ [K _]]. rewrite Hc0 in K.
          pose proof (Hc (n :: rest)). lia.
        + split; [left; exact R1|]. rewrite R1. cbn. lia.
      - exists None, s. split; [reflexivity|]. rewrite Hs. split.
        + right. exists n, rest. split; [exact Hs|].
          intros Z. rewrite Z in Eo. discriminate.
        + pose proof (Hc (n :: rest)). lia. }
    destruct H1 as [basis [s1 [E1 [Ht1 Hc1]]]]. run_by E1.
    destruct (openNodes_loop_total basis Ht1 Hc1) as [basis' [s2 [E2 Hs2]]].
    run_by E2. run.
    destruct s2 as [stk dof nn tw lpi hlpi sbi ul inh inb csr srs iv w].
    cbn [nodestack] in Hs2. subst stk. destruct basis' as [b|].
    + run. unfold when. destruct (row_status_size b =? _).
      * run. eexists. split; reflexivity.
      * run. eexists. split; reflexivity.
    + eexists. split; reflexivity.
Qed.

End OpenFrames.

(** The two frames of [Examples.deep_search] are flushed in two passes. *)
Lemma openNodesToQueue_empties_stack_witness :
  exists s',
    @openNodesToQueue Toy.env 2 Examples.deep_search = Some (tt, s') /\
    nodestack s' = [].
Proof.
  apply (@openNodesToQueue_empties_stack Toy.env 2 Examples.deep_search).
  exact (le_n 2).
Defined.

(* ================================================================= *)
(** ** The selection among the candidates *)

Section Selection.

Context {C : Collaborators}.

Lemma set_nth_true (v : list bool) (k i : nat) :
  nth i v false = true -> nth i (set_nth v k true) false = true.
Proof.
  revert k i. induction v as [|x v IH]; intros k i; [destruct k; trivial|].
  destruct k, i; cbn; auto.
Qed.

Lemma set_at_true (v : list bool) (k i : Z) :
  at_ v i false = true -> at_ (set_at v k true) i false = true.
Proof. unfold at_, set_at. apply set_nth_true. Qed.

Lemma flags_kept_refl L : flags_kept L L.
Proof. repeat split; auto. Qed.

Lemma flags_kept_trans L0 L1 L2 :
  flags_kept L0 L1 -> flags_kept L1 L2 -> flags_kept L0 L2.
Proof.
  unfold flags_kept. intros [A1 [A2 [A3 [A4 A5]]]] [B1 [B2 [B3 [B4 B5]]]].
  repeat split; try congruence; auto.
Qed.

Lemma nonneg_above_minus_one (x : double) :
  (0 <=? x)%float = true -> Dbl.gtb x (-1)%float = true.
Proof.
  unfold Dbl.gtb. rewrite leb_spec, ltb_spec.
  replace (Prim2SF 0) with (S754_zero false) by reflexivity.
  replace (Prim2SF (-1)) with (S754_finite true 4503599627370496 (-52))
    by reflexivity.
  destruct (Prim2SF x) as [[|]| [|] | |[|] m e]; cbn; congruence.
Qed.

Lemma fold_left_invariant A B (f : A -> B -> A) (P : A -> Prop)
    (l : list B) :
  forall a,
    P a -> (forall a b, In b l -> P a -> P (f a b)) -> P (fold_left f l a).
Proof.
  induction l as [|b l IH]; intros a Ha Hf; [exact Ha|].
  cbn. apply IH.
  - apply Hf; [left; reflexivity|exact Ha].
  - intros a' b' Hb. apply Hf. right. exact Hb.
Qed.

Lemma In_indices (n k : Z) : In k (indices n) -> 0 <= k < n.
Proof.
  unfold indices. intros H. apply in_map_iff in H.
  destruct H as [i [<- Hi]]. apply in_seq in Hi. lia.
Qed.

Lemma indices_pos (n : Z) :
  0 < n -> indices n = 0 :: map Z.of_nat (seq 1 (Z.to_nat n - 1)).
Proof.
  intros H. unfold indices.
  replace (Z.to_nat n) with (S (Z.to_nat n - 1)) at 1 by lia.
  reflexivity.
Qed.

Lemma selectBestScore_spec (w : World) (numfrac : HighsInt)
    (final : bool) (L0 : SbLocals) :
  let k := fst (selectBestScore w numfrac final L0) in
  let L := snd (selectBestScore w numfrac final L0) in
  (k = -1 \/ 0 <= k < numfrac) /\
  flags_kept L0 L /\
  (0 < numfrac -> scores_nonnegative w -> 0 <= k < numfrac).
Proof.
  unfold selectBestScore. cbv zeta.
  match goal with |- context [fold_left ?f ?l ?a] =>
    set (step := f); set (init := a)
  end.
  assert (Hstep : forall acc k,
             0 <= k < numfrac ->
             flags_kept L0 (snd acc) ->
             flags_kept L0 (snd (step acc k)) /\
             (best (fst (step acc k)) = best (fst acc) \/
              best (fst (step acc k)) = k) /\
             (scores_nonnegative w ->
              bestscore (fst acc) = (-1)%float ->
              best (fst (step acc k)) = k)).
  { intros [B L] k Hk HL. unfold step. cbn [fst snd].
    match goal with |- context [if ?c then (mkBest _ _ _ _, ?L1) else _] =>
      set (cond := c); set (L' := L1)
    end.
    assert (HL' : flags_kept L0 L').
    { apply flags_kept_trans with (L1 := L); [exact HL|].
      unfold L', flags_kept.
      cbn [upscore downscore resetBasis upscorereliable downscorereliable].
      repeat split; intros i Hi;
        match goal with |- context [if ?c then _ else _] => destruct c end;
        auto using set_at_true. }
    split; [destruct cond; exact HL'|].
    split; [destruct cond; cbn; auto|].
    intros [Hs1 Hs2] Hb. cbn [fst] in Hb. unfold cond. rewrite Hb.
    match goal with |- context [Dbl.gtb ?sc (-1)%float || _] =>
      assert (Hg : Dbl.gtb sc (-1)%float = true)
    end.
    { repeat match goal with |- context [if ?c then _ else _] =>
               destruct c end;
        first [apply nonneg_above_minus_one; auto | reflexivity]. }
    rewrite Hg. reflexivity. }
  assert (Hinv : forall l acc,
             (forall k, In k l -> 0 <= k < numfrac) ->
             flags_kept L0 (snd acc) ->
             flags_kept L0 (snd (fold_left step l acc)) /\
             (best (fst (fold_left step l acc)) = best (fst acc) \/
              0 <= best (fst (fold_left step l acc)) < numfrac)).
  { induction l as [|k l IH]; intros acc Hl HL; [cbn; auto|].
    cbn [fold_left].
    destruct (Hstep acc k (Hl k (or_introl eq_refl)) HL) as [H1 [H2 _]].
    destruct (IH (step acc k) (fun j Hj => Hl j (or_intror Hj)) H1)
      as [K1 K2].
    split; [exact K1|].
    pose proof (Hl k (or_introl eq_refl)).
    destruct K2 as [K2|K2]; [|right; exact K2].
    destruct H2 as [H2|H2]; [left; congruence|right; lia]. }
  destruct (fold_left step (indices numfrac) init) as [B L] eqn:Ef.
  cbn [fst snd].
  destruct (Hinv (indices numfrac) init (@In_indices numfrac)
              (flags_kept_refl L0)) as [I1 I2].
  rewrite Ef in I1, I2. cbn [fst snd] in I1, I2.
  split; [destruct I2 as [I2|I2]; [left; exact I2|right; exact I2]|].
  split; [exact I1|].
  intros Hpos [Hs1 Hs2].
  rewrite (indices_pos Hpos) in Ef. cbn [fold_left] in Ef.
  assert (H0 : best (fst (step init 0)) = 0).
  { apply (Hstep init 0); [lia|apply flags_kept_refl|split; assumption|].
    reflexivity. }
  destruct (Hinv (map Z.of_nat (seq 1 (Z.to_nat numfrac - 1))) (step init 0))
    as [_ J].
  { intros k Hk. apply in_map_iff in Hk. destruct Hk as [i [<- Hi]].
    apply in_seq in Hi. lia. }
  { apply (Hstep init 0); [lia|apply flags_kept_refl]. }
  rewrite Ef in J. cbn [fst] in J. destruct J as [J|J]; [|exact J].
  rewrite J, H0. lia.
Qed.

(** [selectBestScore] returns -1 or the index of a candidate; it returns
    an index when there is a candidate and the scores are not negative.
    It does not touch the scores and [resetBasis], and it never takes back
    a reliability flag. *)
Theorem selectBestScore_in_range :
  forall (w : World) (numfrac : HighsInt) (finalSelection : bool)
         (L0 : SbLocals),
    let k := fst (selectBestScore w numfrac finalSelection L0) in
    let L := snd (selectBestScore w numfrac finalSelection L0) in
    (k = -1 \/ 0 <= k < numfrac) /\
    flags_kept L0 L /\
    (0 < numfrac -> scores_nonnegative w -> 0 <= k < numfrac).
Proof. intros w numfrac final L0. apply selectBestScore_spec. Qed.

Lemma sb_init_resetBasis (w : World) (numfrac : HighsInt) :
  resetBasis (sb_init w numfrac) = false.
Proof.
  unfold sb_init. cbv zeta.
  apply fold_left_invariant with (P := fun L => resetBasis L = false);
    [reflexivity|].
  intros L k _ HL. destruct (isReliable _ _ || _); [cbn|]; exact HL.
Qed.

(** When the strong-branching iterations have used up the budget,
    [selectBranchingCandidate] probes nothing: it returns the final
    selection among the candidates as the pseudo-costs score them, without
    asking for the limits, and leaves the search, the domain and the LP as
    they are. *)
Theorem exhausted_budget_selects_without_probing :
  forall (fuel : nat) (maxSbIters : int64_t) (s : HighsSearch),
    maxSbIters <= sblpiterations s + sb_lp_iterations (world s) ->
    let numfrac := Z.of_nat (length (getFractionalIntegers (world s))) in
    selectBranchingCandidate (S fuel) maxSbIters s =
    Some (fst (selectBestScore (world s) numfrac true
                 (sb_init (world s) numfrac)), s).
Proof.
  intros fuel maxSbIters s Hb numfrac.
  unfold selectBranchingCandidate. run. fold numfrac.
  cbn [sb_loop]. unfold sb_iteration. rewrite !bind_assoc.
  unfold getStrongBranchingLpIterations. run.
  replace (sblpiterations s + sb_lp_iterations (world s) >=? maxSbIters)
    with true by (symmetry; rewrite Z.geb_leb; apply Z.leb_le; exact Hb).
  rewrite !bind_assoc. run. rewrite !bind_assoc. run.
  pose proof (selectBestScore_spec (world s) numfrac true
                (sb_init (world s) numfrac)) as K.
  cbv zeta in K. destruct K as [_ [[_ [_ [Hr _]]] _]].
  rewrite sb_init_resetBasis in Hr.
  destruct (selectBestScore (world s) numfrac true
              (sb_init (world s) numfrac)) as [k L].
  cbn [fst snd] in *. rewrite orb_true_r, Hr.
  rewrite !bind_assoc. run. run. reflexivity.
Qed.

End Selection.

Lemma selectBestScore_in_range_witness :
  0 <= fst (@selectBestScore Toy.env Examples.probe_world 1 true
              (@sb_init Toy.env Examples.probe_world 1)) < 1.
Proof.
  destruct (@selectBestScore_in_range Toy.env Examples.probe_world 1 true
              (@sb_init Toy.env Examples.probe_world 1)) as [_ [_ H]].
  apply H; [lia|]. split; intros; reflexivity.
Defined.

Lemma exhausted_budget_selects_without_probing_witness :
  @selectBranchingCandidate Toy.env 1 0 Examples.probe_search
  = Some (0, Examples.probe_search).
Proof.
  rewrite (@exhausted_budget_selects_without_probing Toy.env 0 0
             Examples.probe_search); [|vm_compute; discriminate].
  vm_compute. reflexivity.
Defined.

(* ================================================================= *)
(** ** The results of [branch] and [dive] *)

Section Branching.

Context {C : Collaborators}.

Lemma unbranched_same_stack s s' :
  nodestack s' = nodestack s -> unbranched s -> unbranched s'.
Proof. unfold unbranched. intros ->. exact (fun H => H). Qed.

Lemma keeps_top_ret A (a : A) : keeps_top (ret a).
Proof. intros s a' s' H E. inversion E; subst. exact H. Qed.

Lemma keeps_top_bind A B (m : M A) (k : A -> M B) :
  keeps_top m -> (forall a, keeps_top (k a)) -> keeps_top (bind m k).
Proof.
  intros Hm Hk s b s' H E. unfold bind in E.
  destruct (m s) as [[a s1]|] eqn:E1; [|discriminate].
  exact (Hk a s1 b s' (Hm s a s1 H E1) E).
Qed.

Lemma keeps_top_undefined A : keeps_top (@undefined C A).
Proof. intros s a s' _ E. discriminate. Qed.

Lemma keeps_top_member A (f : HighsSearch -> A) : keeps_top (member f).
Proof. intros s a s' H E. inversion E; subst. exact H. Qed.

Lemma keeps_top_obs A (f : World -> A) : keeps_top (obs f).
Proof. intros s a s' H E. inversion E; subst. exact H. Qed.

Lemma keeps_top_getCutoffBound : keeps_top getCutoffBound.
Proof. intros s a s' H E. inversion E; subst. exact H. Qed.

Lemma keeps_top_back : keeps_top back.
Proof.
  intros s a s' H E. unfold back in E.
  destruct (nodestack s); inversion E; subst. exact H.
Qed.

Lemma keeps_top_call (f : World -> World) : keeps_top (call f).
Proof.
  intros s a s' H E. inversion E; subst.
  apply unbranched_same_stack with (s := s); [destruct s; reflexivity|exact H].
Qed.

Lemma keeps_top_call_r A (f : World -> A * World) : keeps_top (call_r f).
Proof.
  intros s a s' H E. unfold call_r in E. destruct (f (world s)).
  inversion E; subst.
  apply unbranched_same_stack with (s := s); [destruct s; reflexivity|exact H].
Qed.

Lemma keeps_top_update (f : HighsSearch -> HighsSearch) :
  (forall s, nodestack (f s) = nodestack s) -> keeps_top (update f).
Proof.
  intros Hf s a s' H E. inversion E; subst.
  exact (@unbranched_same_stack s (f s) (Hf s) H).
Qed.

Lemma keeps_top_modify_back (f : NodeData -> NodeData) :
  (forall n, opensubtrees (f n) = opensubtrees n) ->
  keeps_top (modify_back f).
Proof.
  intros Hf s a s' [n [rest [Hs Ho]]] E. unfold modify_back in E.
  rewrite Hs in E. inversion E; subst.
  exists (f n), rest. split; [destruct s; reflexivity|].
  rewrite Hf. exact Ho.
Qed.

Lemma keeps_top_modify_second (f : NodeData -> NodeData) :
  keeps_top (modify_second f).
Proof.
  intros s a s' [n [rest [Hs Ho]]] E. unfold modify_second in E.
  rewrite Hs in E. destruct rest as [|p rest]; inversion E; subst.
  exists n, (f p :: rest). split; [destruct s; reflexivity|exact Ho].
Qed.

Lemma keeps_top_when (b : bool) (m : M unit) :
  keeps_top m -> keeps_top (when b m).
Proof. intros H. destruct b; [exact H|apply keeps_top_ret]. Qed.

Ltac top_side :=
  solve [ intros []; reflexivity
        | let n := fresh "n" in
          intros n; destruct n as [? ? ? ? ? ? [? ? ?] ? ? ?]; reflexivity ].

Ltac keeps_top_step :=
  first
    [ apply keeps_top_when; cbv zeta
    | apply keeps_top_bind; [|intros]
    | apply keeps_top_ret
    | apply keeps_top_undefined
    | apply keeps_top_member
    | apply keeps_top_obs
    | apply keeps_top_call
    | apply keeps_top_call_r
    | apply keeps_top_back
    | apply keeps_top_getCutoffBound
    | apply keeps_top_modify_second
    | apply keeps_top_modify_back; top_side
    | apply keeps_top_update; top_side
    | match goal with
      | |- keeps_top (if ?b then _ else _) => destruct b
      | |- keeps_top (match ?x with _ => _ end) => destruct x
      end ].

Lemma keeps_top_conflict_from_proof p : keeps_top (conflict_from_proof p).
Proof. unfold conflict_from_proof. repeat keeps_top_step. Qed.

Lemma keeps_top_addBoundExceedingConflict :
  keeps_top addBoundExceedingConflict.
Proof.
  unfold addBoundExceedingConflict.
  repeat first [apply keeps_top_conflict_from_proof | keeps_top_step].
Qed.

Lemma keeps_top_addInfeasibleConflict : keeps_top addInfeasibleConflict.
Proof.
  unfold addInfeasibleConflict.
  repeat first [apply keeps_top_conflict_from_proof | keeps_top_step].
Qed.

Lemma keeps_top_parent_cutoff_observation parent :
  keeps_top (parent_cutoff_observation parent).
Proof. unfold parent_cutoff_observation. repeat keeps_top_step. Qed.

Lemma keeps_top_evaluate_scaledOptimal parent status :
  keeps_top (evaluate_scaledOptimal parent status).
Proof.
  unfold evaluate_scaledOptimal.
  repeat first [apply keeps_top_addBoundExceedingConflict | keeps_top_step].
Qed.

Lemma keeps_top_evaluate_body : keeps_top evaluate_body.
Proof.
  unfold evaluate_body, getParentNodeData, domchgstack_size.
  repeat first [ apply keeps_top_parent_cutoff_observation
               | apply keeps_top_evaluate_scaledOptimal
               | apply keeps_top_addInfeasibleConflict
               | keeps_top_step ].
Qed.

Lemma keeps_top_fold A (f : M A -> Z -> M A) (l : list Z) :
  (forall acc k, keeps_top acc -> keeps_top (f acc k)) ->
  forall acc, keeps_top acc -> keeps_top (fold_left f l acc).
Proof.
  intros Hf. induction l as [|k l IH]; intros acc Ha; [exact Ha|].
  cbn. apply IH. apply Hf. exact Ha.
Qed.

Lemma keeps_top_orbitsValidInChildNode chg :
  keeps_top (orbitsValidInChildNode chg).
Proof. unfold orbitsValidInChildNode. repeat keeps_top_step. Qed.

Lemma keeps_top_branchUpwards col v p : keeps_top (branchUpwards col v p).
Proof.
  intros s a s' [n [rest [Hs _]]] E.
  destruct (branchUpwards_shape s col v p Hs) as [pass [_ E']].
  rewrite E' in E. inversion E; subst.
  eexists _, _. split; [destruct s; reflexivity|reflexivity].
Qed.

Lemma keeps_top_branchDownwards col v p : keeps_top (branchDownwards col v p).
Proof.
  intros s a s' [n [rest [Hs _]]] E.
  destruct (branchDownwards_shape s col v p Hs) as [pass [_ E']].
  rewrite E' in E. inversion E; subst.
  eexists _, _. split; [destruct s; reflexivity|reflexivity].
Qed.

Ltac keeps_top_known :=
  first [ apply keeps_top_branchUpwards
        | apply keeps_top_branchDownwards
        | apply keeps_top_orbitsValidInChildNode
        | apply keeps_top_addBoundExceedingConflict
        | apply keeps_top_addInfeasibleConflict ].

Lemma keeps_top_commit_branchUpwards col v p :
  keeps_top (commit_branchUpwards col v p).
Proof.
  unfold commit_branchUpwards.
  repeat first [keeps_top_known | keeps_top_step].
Qed.

Lemma keeps_top_commit_branchDownwards col v p :
  keeps_top (commit_branchDownwards col v p).
Proof.
  unfold commit_branchDownwards.
  repeat first [keeps_top_known | keeps_top_step].
Qed.

Lemma keeps_top_sb_update_others numfrac objdelta L :
  keeps_top (sb_update_others numfrac objdelta L).
Proof.
  unfold sb_update_others. apply keeps_top_fold; [|apply keeps_top_ret].
  intros acc k Ha. apply keeps_top_bind; [exact Ha|intros].
  repeat keeps_top_step.
Qed.

Lemma keeps_top_sb_eval_down numfrac candidate col fracval upval downval L :
  keeps_top (sb_eval_down numfrac candidate col fracval upval downval L).
Proof.
  unfold sb_eval_down, back_orbits_and_valid, back_orbitalFixing, sb_run_lp,
    sb_objdelta, sb_lp_error, sb_add_incumbent, domchgstack_size.
  repeat first [ apply keeps_top_commit_branchUpwards
               | apply keeps_top_sb_update_others
               | keeps_top_known | keeps_top_step ].
Qed.

Lemma keeps_top_sb_eval_up numfrac candidate col fracval upval downval L :
  keeps_top (sb_eval_up numfrac candidate col fracval upval downval L).
Proof.
  unfold sb_eval_up, back_orbits_and_valid, back_orbitalFixing, sb_run_lp,
    sb_objdelta, sb_lp_error, sb_add_incumbent, domchgstack_size.
  repeat first [ apply keeps_top_commit_branchDownwards
               | apply keeps_top_sb_update_others
               | keeps_top_known | keeps_top_step ].
Qed.

Lemma keeps_top_sb_iteration maxSbIters numfrac L :
  keeps_top (sb_iteration maxSbIters numfrac L).
Proof.
  unfold sb_iteration, getStrongBranchingLpIterations.
  repeat first [ apply keeps_top_sb_eval_down
               | apply keeps_top_sb_eval_up
               | keeps_top_step ].
Qed.

Lemma keeps_top_sb_loop fuel :
  forall maxSbIters numfrac L, keeps_top (sb_loop fuel maxSbIters numfrac L).
Proof.
  induction fuel as [|fuel IH]; intros maxSbIters numfrac L; cbn [sb_loop].
  - apply keeps_top_undefined.
  - apply keeps_top_bind; [apply keeps_top_sb_iteration|].
    intros [c|L']; [apply keeps_top_ret|apply IH].
Qed.

Lemma keeps_top_selectBranchingCandidate fuel maxSbIters :
  keeps_top (selectBranchingCandidate fuel maxSbIters).
Proof.
  unfold selectBranchingCandidate.
  apply keeps_top_bind; [apply keeps_top_member|intros].
  apply keeps_top_sb_loop.
Qed.

Lemma keeps_top_sb_budget minrel : keeps_top (sb_budget minrel).
Proof.
  unfold sb_budget, getStrongBranchingLpIterations, getTotalLpIterations,
    getHeuristicLpIterations.
  repeat keeps_top_step.
Qed.

Lemma keeps_top_sb_degeneracy : keeps_top sb_degeneracy.
Proof. unfold sb_degeneracy. repeat keeps_top_step. Qed.

Lemma keeps_top_select_child col : keeps_top (select_child col).
Proof. unfold select_child, branch_up, branch_down. repeat keeps_top_step. Qed.

Lemma keeps_top_fallback_branching : keeps_top fallback_branching.
Proof.
  unfold fallback_branching.
  apply keeps_top_bind; [apply keeps_top_member|intros w].
  apply keeps_top_bind; [|intros; apply keeps_top_ret].
  apply keeps_top_fold; [|apply keeps_top_ret].
  intros acc k Ha. apply keeps_top_bind; [exact Ha|intros].
  repeat keeps_top_step.
Qed.

Lemma returns_ret A (Q : A -> Prop) (a : A) : Q a -> returns Q (ret a).
Proof. intros H s a' s' E. inversion E; subst. exact H. Qed.

Lemma returns_bind A B (Q1 : A -> Prop) (Q : B -> Prop) (m : M A)
    (k : A -> M B) :
  returns Q1 m -> (forall a, Q1 a -> returns Q (k a)) ->
  returns Q (bind m k).
Proof.
  intros Hm Hk s b s' E. unfold bind in E.
  destruct (m s) as [[a s1]|] eqn:E1; [|discriminate].
  exact (Hk a (Hm s a s1 E1) s1 b s' E).
Qed.

Lemma returns_any A (m : M A) : returns (fun _ => True) m.
Proof. intros s a s' _. exact I. Qed.

Lemma returns_skip A B (Q : B -> Prop) (m : M A) (k : A -> M B) :
  (forall a, returns Q (k a)) -> returns Q (bind m k).
Proof.
  intros Hk. apply returns_bind with (Q1 := fun _ => True);
    [apply returns_any|]. intros a _. apply Hk.
Qed.

Lemma returns_undefined A (Q : A -> Prop) : returns Q (@undefined C A).
Proof. intros s a s' E. discriminate. Qed.

Ltac returns_step :=
  match goal with
  | |- returns _ undefined => apply returns_undefined
  | |- returns _ (if ?b then _ else _) => destruct b eqn:?
  | |- returns _ (match ?x with _ => _ end) => destruct x eqn:?
  | |- returns _ (bind _ _) => apply returns_skip; intros
  end.

Lemma returns_evaluate_scaledOptimal parent status :
  returns evaluated (evaluate_scaledOptimal parent status).
Proof.
  unfold evaluate_scaledOptimal. do 11 returns_step.
  apply returns_bind
    with (Q1 := fun r => r = kOpen \/ r = kBoundExceeding).
  - repeat returns_step; apply returns_ret; auto.
  - intros result Hr. repeat returns_step; apply returns_ret; cbn; auto.
    all: unfold pruned; destruct Hr as [->| ->]; auto.
Qed.

Lemma returns_evaluate_body : returns evaluated evaluate_body.
Proof.
  unfold evaluate_body.
  repeat first [ apply returns_evaluate_scaledOptimal
               | apply returns_ret; cbn; unfold pruned; tauto
               | returns_step ].
  all: apply returns_ret; cbn; unfold pruned;
    match goal with |- context [if ?b then _ else _] => destruct b end;
    tauto.
Qed.

Lemma returns_evaluate_finish result :
  returns (fun r => r = result) (evaluate_finish result).
Proof.
  unfold evaluate_finish. repeat returns_step. apply returns_ret. reflexivity.
Qed.

Lemma evaluateNode_result fuel :
  returns (fun r => r = kOpen \/ pruned r) (evaluateNode fuel).
Proof.
  induction fuel as [|fuel IH]; cbn [evaluateNode];
    [apply returns_undefined|].
  apply returns_bind with (Q1 := evaluated); [apply returns_evaluate_body|].
  intros [result|] Hr; [|exact IH].
  intros s a s' E. rewrite (@returns_evaluate_finish result s a s' E).
  exact Hr.
Qed.

Lemma evaluateNode_open fuel :
  forall s s',
    unbranched s -> evaluateNode fuel s = Some (kOpen, s') -> unbranched s'.
Proof.
  induction fuel as [|fuel IH]; intros s s' H E; [discriminate|].
  cbn [evaluateNode] in E. unfold bind in E.
  destruct (evaluate_body s) as [[[result|] s1]|] eqn:E1; [| |discriminate].
  - pose proof (@keeps_top_evaluate_body s _ s1 H E1) as H1.
    pose proof (@returns_evaluate_finish result s1 _ s' E) as Hr.
    cbv beta in Hr. subst result.
    unfold evaluate_finish in E. cbn in E. inversion E; subst. exact H1.
  - exact (IH s1 s' (@keeps_top_evaluate_body s _ s1 H E1) E).
Qed.

Lemma bind_inv A B (m : M A) (k : A -> M B) s b s' :
  bind m k s = Some (b, s') ->
  exists a s1, m s = Some (a, s1) /\ k a s1 = Some (b, s').
Proof.
  unfold bind. destruct (m s) as [[a s1]|]; [|discriminate].
  intros E. exists a, s1. split; [reflexivity|exact E].
Qed.

Lemma branch_loop_in_branch fuel :
  forall minrel result s r s',
    in_branch result s ->
    branch_loop fuel minrel result s = Some (r, s') ->
    in_branch r s'.
Proof.
  induction fuel as [|fuel IH]; intros minrel result s r s' Hin E.
  - cbn [branch_loop] in E.
    apply bind_inv in E. destruct E as [n [s1 [E1 E]]].
    unfold back in E1. destruct (nodestack s); [discriminate|].
    injection E1 as <- <-.
    apply bind_inv in E. destruct E as [st [s2 [E2 E]]].
    unfold obs in E2. injection E2 as <- <-.
    apply bind_inv in E. destruct E as [fr [s3 [E3 E]]].
    unfold obs in E3. injection E3 as <- <-.
    destruct (_ && _); [discriminate|].
    unfold ret in E. injection E as <- <-. exact Hin.
  - cbn [branch_loop] in E.
    apply bind_inv in E. destruct E as [n [s1 [E1 E]]].
    unfold back in E1. destruct (nodestack s) as [|n0 rest] eqn:Hs;
      [discriminate|].
    injection E1 as <- <-.
    apply bind_inv in E. destruct E as [st [s2 [E2 E]]].
    unfold obs in E2. injection E2 as <- <-.
    apply bind_inv in E. destruct E as [fr [s3 [E3 E]]].
    unfold obs in E3. injection E3 as <- <-.
    destruct ((opensubtrees n0 =? 2) && _ && _) eqn:Ec;
      [|unfold ret in E; injection E as <- <-; exact Hin].
    assert (Hu : unbranched s).
    { apply andb_prop in Ec. destruct Ec as [Ec _].
      apply andb_prop in Ec. destruct Ec as [Ec _].
      exists n0, rest. split; [exact Hs|]. apply Z.eqb_eq. exact Ec. }
    apply bind_inv in E. destruct E as [mx [s4 [E4 E]]].
    pose proof (@keeps_top_sb_budget minrel s _ s4 Hu E4) as H4.
    apply bind_inv in E. destruct E as [u [s5 [E5 E]]].
    pose proof (@keeps_top_sb_degeneracy s4 _ s5 H4 E5) as H5.
    apply bind_inv in E. destruct E as [cand [s6 [E6 E]]].
    pose proof (@keeps_top_selectBranchingCandidate _ _ s5 _ s6 H5 E6) as H6.
    destruct (negb (cand =? -1)).
    + assert (K : keeps_top
                (w <- member world ;;
                 modify_back
                   (set_bd_column
                      (fst (at_ (getFractionalIntegers w) cand (0, 0%float)))) ;;
                 modify_back
                   (set_branching_point
                      (snd (at_ (getFractionalIntegers w) cand (0, 0%float)))) ;;
                 select_child
                   (fst (at_ (getFractionalIntegers w) cand (0, 0%float))) ;;
                 ret kBranched)).
      { repeat first [apply keeps_top_select_child | keeps_top_step]. }
      assert (R : returns (fun r => r = kBranched)
                (w <- member world ;;
                 modify_back
                   (set_bd_column
                      (fst (at_ (getFractionalIntegers w) cand (0, 0%float)))) ;;
                 modify_back
                   (set_branching_point
                      (snd (at_ (getFractionalIntegers w) cand (0, 0%float)))) ;;
                 select_child
                   (fst (at_ (getFractionalIntegers w) cand (0, 0%float))) ;;
                 ret kBranched)).
      { repeat returns_step. apply returns_ret. reflexivity. }
      left. split; [exact (K s6 r s' H6 E)|]. right. exact (R s6 r s' E).
    + apply bind_inv in E. destruct E as [r1 [s7 [E7 E]]].
      apply (IH minrel r1 s7 r s'); [|exact E].
      destruct (@evaluateNode_result _ s6 r1 s7 E7) as [->|Hp];
        [|right; exact Hp].
      left. split; [|left; reflexivity].
      exact (@evaluateNode_open _ s6 s7 H6 E7).
Qed.

Lemma not_open_pruned (r : NodeResult) :
  r = kOpen \/ pruned r -> NodeResult_eqb r kOpen = false -> pruned r.
Proof. intros [->|H] E; [discriminate|exact H]. Qed.

Lemma returns_evaluateNode_then fuel B (Q : B -> Prop)
    (k : NodeResult -> M B) :
  (forall r, r = kOpen \/ pruned r -> returns Q (k r)) ->
  returns Q (bind (evaluateNode fuel) k).
Proof.
  intros H. apply returns_bind with (Q1 := fun r => r = kOpen \/ pruned r);
    [apply evaluateNode_result|exact H].
Qed.

Lemma returns_lp_ladder fuel : returns pruned (lp_ladder fuel).
Proof.
  unfold lp_ladder. do 3 returns_step.
  apply returns_evaluateNode_then. intros r1 H1.
  apply returns_bind with (Q1 := pruned).
  - destruct (NodeResult_eqb r1 kOpen) eqn:E1;
      [|apply returns_ret; exact (not_open_pruned H1 E1)].
    do 2 returns_step.
    apply returns_evaluateNode_then. intros r2 H2. returns_step.
    destruct (NodeResult_eqb r2 kOpen) eqn:E2;
      [|apply returns_ret; exact (not_open_pruned H2 E2)].
    do 2 returns_step.
    apply returns_evaluateNode_then. intros r3 H3.
    destruct (NodeResult_eqb r3 kOpen) eqn:E3;
      [|apply returns_ret; exact (not_open_pruned H3 E3)].
    do 2 returns_step. apply returns_ret. right. left. reflexivity.
  - intros r Hr. returns_step. apply returns_ret. exact Hr.
Qed.

Lemma branch_spec fuel s r s' :
  unbranched s ->
  branch fuel s = Some (r, s') ->
  (r = kBranched /\ unbranched s') \/ pruned r.
Proof.
  intros Hu E. unfold branch in E.
  apply bind_inv in E. destruct E as [u1 [s1 [E1 E]]].
  assert (H1 : unbranched s1).
  { refine (@keeps_top_modify_back _ _ s u1 s1 Hu E1).
    intros n; destruct n as [? ? ? ? ? ? [? ? ?] ? ? ?]; reflexivity. }
  apply bind_inv in E. destruct E as [u2 [s2 [E2 E]]].
  assert (H2 : unbranched s2).
  { refine (@keeps_top_update _ _ s1 u2 s2 H1 E2). intros []; reflexivity. }
  apply bind_inv in E. destruct E as [minrel [s3 [E3 E]]].
  unfold obs in E3. injection E3 as <- <-.
  apply bind_inv in E. destruct E as [result [s4 [E4 E]]].
  assert (H4 : in_branch result s4).
  { apply (@branch_loop_in_branch fuel (getMinReliable (world s2)) kOpen s2
             result s4); [|exact E4].
    left. split; [exact H2|left; reflexivity]. }
  apply bind_inv in E. destruct E as [u5 [s5 [E5 E]]].
  apply bind_inv in E. destruct E as [u6 [s6 [E6 E]]].
  apply bind_inv in E. destruct E as [u7 [s7 [E7 E]]].
  assert (H7 : in_branch result s7).
  { destruct H4 as [[H4 Hr]|Hp]; [|right; exact Hp].
    left. split; [|exact Hr].
    refine (@keeps_top_call _ s6 u7 s7 _ E7).
    refine (@keeps_top_call _ s5 u6 s6 _ E6).
    refine (@keeps_top_update _ _ s4 u5 s5 H4 E5). intros []; reflexivity. }
  apply bind_inv in E. destruct E as [currnode [s8 [E8 E]]].
  unfold back in E8. destruct (nodestack s7) as [|n rest] eqn:Hs7;
    [discriminate|].
  injection E8 as <- <-.
  destruct (negb (opensubtrees n =? 2)) eqn:Eo.
  - unfold ret in E. injection E as <- <-.
    destruct H7 as [[[n' [rest' [Hn' Ho']]] _]|Hp]; [|right; exact Hp].
    rewrite Hs7 in Hn'. injection Hn' as <- <-. rewrite Ho' in Eo.
    discriminate.
  - assert (Hu7 : unbranched s7).
    { exists n, rest. split; [exact Hs7|]. apply Z.eqb_eq.
      apply negb_false_iff. exact Eo. }
    apply bind_inv in E. destruct E as [u9 [s9 [E9 E]]].
    assert (H9 : unbranched s9).
    { refine (@keeps_top_when _ _ _ s7 u9 s9 Hu7 E9).
      apply keeps_top_fallback_branching. }
    apply bind_inv in E. destruct E as [c [s10 [E10 E]]].
    unfold back in E10. destruct (nodestack s9) as [|n9 rest9] eqn:Hs9;
      [discriminate|].
    injection E10 as <- <-.
    destruct (column (branchingdecision n9) =? -1).
    + right. exact (@returns_lp_ladder fuel s9 r s' E).
    + left. destruct (branch_open_child_shape s9 Hs9) as [pass [_ E']].
      rewrite E' in E. injection E as <- <-. split; [reflexivity|].
      eexists _, _. split; [destruct s9; reflexivity|reflexivity].
Qed.

(** [branch] on a frame with both subtrees open never returns [kOpen]: it
    returns [kBranched], with a new unbranched frame on top of the stack,
    or a result that closes the node. *)
Theorem branch_never_open :
  forall (fuel : nat) (s : HighsSearch) (r : NodeResult) (s' : HighsSearch),
    unbranched s ->
    branch fuel s = Some (r, s') ->
    r <> kOpen /\ ((r = kBranched /\ unbranched s') \/ pruned r).
Proof.
  intros fuel s r s' Hu E. pose proof (@branch_spec fuel s r s' Hu E) as K.
  split; [|exact K].
  destruct K as [[-> _]|[->|[->| ->]]]; discriminate.
Qed.

Lemma dive_loop_spec fuel :
  forall s r s',
    unbranched s ->
    dive_loop fuel s = Some (r, s') ->
    (r = kOpen \/ pruned r) /\
    ((forall w, fst (checkLimits w) = false) -> pruned r).
Proof.
  induction fuel as [|fuel IH]; intros s r s' Hu E; [discriminate|].
  cbn [dive_loop] in E.
  apply bind_inv in E. destruct E as [u1 [s1 [E1 E]]].
  assert (H1 : unbranched s1).
  { refine (@keeps_top_update _ _ s u1 s1 Hu E1). intros []; reflexivity. }
  apply bind_inv in E. destruct E as [r1 [s2 [E2 E]]].
  pose proof (@evaluateNode_result _ s1 r1 s2 E2) as Hr1. cbv beta in Hr1.
  apply bind_inv in E. destruct E as [limit [s3 [E3 E]]].
  assert (H3 : limit = fst (checkLimits (world s2)) /\
               (unbranched s2 -> unbranched s3)).
  { split; [|intros K; exact (@keeps_top_call_r _ _ s2 limit s3 K E3)].
    unfold call_r in E3. destruct (checkLimits (world s2)).
    injection E3 as <- _. reflexivity. }
  destruct H3 as [Hl H3]. destruct limit.
  - unfold ret in E. injection E as <- <-. split; [exact Hr1|].
    intros Hno. rewrite Hno in Hl. discriminate.
  - destruct (negb (NodeResult_eqb r1 kOpen)) eqn:Eo.
    + unfold ret in E. injection E as <- <-.
      apply negb_true_iff in Eo.
      pose proof (@not_open_pruned r1 Hr1 Eo) as Hp. split; auto.
    + assert (r1 = kOpen) by (destruct r1; try discriminate; reflexivity).
      subst r1.
      pose proof (H3 (@evaluateNode_open _ s1 s2 H1 E2)) as Hu3.
      apply bind_inv in E. destruct E as [r2 [s4 [E4 E]]].
      destruct (@branch_spec (S fuel) s3 r2 s4 Hu3 E4) as [[-> Hu4]|Hp].
      * cbn in E. exact (IH s4 r s' Hu4 E).
      * assert (Hn : negb (NodeResult_eqb r2 kBranched) = true)
          by (destruct Hp as [->|[->| ->]]; reflexivity).
        rewrite Hn in E. unfold ret in E. injection E as <- <-.
        split; auto.
Qed.

(** A dive from a frame with both subtrees open ends with a result that
    closes the current node, or with [kOpen]; it ends with [kOpen] only if
    the limit checker has returned [true]. *)
Theorem dive_ends_closed_or_at_limit :
  forall (fuel : nat) (s : HighsSearch) (r : NodeResult) (s' : HighsSearch),
    unbranched s ->
    dive fuel s = Some (r, s') ->
    (r = kOpen \/ pruned r) /\
    ((forall w, fst (checkLimits w) = false) -> pruned r).
Proof.
  intros fuel s r s' Hu E. unfold dive in E.
  apply bind_inv in E. destruct E as [u1 [s1 [E1 E]]].
  exact (@dive_loop_spec fuel s1 r s' (@keeps_top_call _ s u1 s1 Hu E1) E).
Qed.

End Branching.

Lemma probe_search_unbranched : @unbranched Toy.env Examples.probe_search.
Proof. eexists _, _. split; reflexivity. Qed.

Lemma branch_never_open_witness :
  exists r s',
    @branch Toy.env 2 Examples.probe_search = Some (r, s') /\ r <> kOpen.
Proof.
  destruct (@branch Toy.env 2 Examples.probe_search) as [[r s']|] eqn:E;
    [|vm_compute in E; discriminate].
  exists r, s'. split; [reflexivity|].
  apply (@branch_never_open Toy.env 2 Examples.probe_search r s'
           probe_search_unbranched E).
Defined.

Lemma dive_ends_closed_or_at_limit_witness :
  exists r s',
    @dive Toy.env 2 Examples.probe_search = Some (r, s') /\
    @pruned r.
Proof.
  destruct (@dive Toy.env 2 Examples.probe_search) as [[r s']|] eqn:E;
    [|vm_compute in E; discriminate].
  exists r, s'. split; [reflexivity|].
  apply (@dive_ends_closed_or_at_limit Toy.env 2 Examples.probe_search r s'
           probe_search_unbranched E).
  intros w. reflexivity.
Defined.

(* ================================================================= *)
(** ** The statistics *)

Section Statistics.

Context {C : Collaborators}.

(** [flushStatistics] moves the five local counters into the counters of
    the MIP data and zeroes them: the node count grows by [nnodes], and
    what [getTotalLpIterations], [getHeuristicLpIterations] and
    [getStrongBranchingLpIterations] report is the same before and after,
    while [getLocalLpIterations] reports 0.  The node stack and the other
    collaborators are not touched. *)
Theorem flushStatistics_keeps_totals :
  forall s : HighsSearch,
    exists s',
      flushStatistics s = Some (tt, s') /\
      num_nodes (world s') = num_nodes (world s) + nnodes s /\
      (exists v, getTotalLpIterations s = Some (v, s) /\
                 getTotalLpIterations s' = Some (v, s')) /\
      (exists v, getHeuristicLpIterations s = Some (v, s) /\
                 getHeuristicLpIterations s' = Some (v, s')) /\
      (exists v, getStrongBranchingLpIterations s = Some (v, s) /\
                 getStrongBranchingLpIterations s' = Some (v, s')) /\
      getLocalLpIterations s' = Some (0, s') /\
      nnodes s' = 0 /\ heurlpiterations s' = 0 /\ sblpiterations s' = 0 /\
      nodestack s' = nodestack s /\ depthoffset s' = depthoffset s /\
      ext (world s') = ext (world s).
Proof.
  intros s.
  destruct s as [stk dof nn tw lpi hlpi sbi ul inh inb csr srs iv w].
  destruct w as [gn gtw gl gh gs e].
  eexists. split; [reflexivity|].
  cbn. split; [reflexivity|].
  unfold getTotalLpIterations, getHeuristicLpIterations,
    getStrongBranchingLpIterations, getLocalLpIterations, member. cbn.
  split; [eexists; split; [reflexivity|]; do 2 f_equal; lia|].
  split; [eexists; split; [reflexivity|]; do 2 f_equal; lia|].
  split; [eexists; split; [reflexivity|]; do 2 f_equal; lia|].
  repeat split.
Qed.

End Statistics.

(* ================================================================= *)
(** ** The C entry point: reads inside the buffers *)

Section CallHighsReads.

Import MinimalAPI MinimalAPI_reads.

Lemma inside_read_range {A} (buf : list A) (n : nat) :
  inside (read_range buf n) = (n <=? length buf)%nat.
Proof.
  rewrite read_range_spec. unfold inside. rewrite forallb_app.
  assert (H1 : forallb (fun c : Cell A =>
                          match c with Value _ => true | Beyond _ => false end)
                 (map Value (firstn n buf)) = true).
  { apply forallb_forall. intros c Hc. apply in_map_iff in Hc.
    destruct Hc as [a [<- _]]. reflexivity. }
  rewrite H1. cbn [andb].
  destruct (n - length buf)%nat eqn:E.
  - cbn. symmetry. apply Nat.leb_le. lia.
  - cbn. symmetry. apply Nat.leb_gt. lia.
Qed.

(** With buffers of the sizes the arguments announce ([numcol] column
    entries, [numrow] row entries, [numcol + 1] column starts,
    [astart[numcol]] matrix entries), [callhighs] builds an LP, and it reads
    every buffer inside its bounds exactly when [numcol <= numrow]: the
    only reads that can leave a buffer are those of [rowupper]. *)
Theorem callhighs_reads_inside_iff :
  forall (numcol numrow : Z)
         (colcost collower colupper rowlower rowupper : list double)
         (astart aindex : list Z) (avalue : list double) (numNz : Z),
    0 <= numcol -> 0 <= numrow -> 0 <= numNz ->
    length colcost = Z.to_nat numcol ->
    length collower = Z.to_nat numcol ->
    length colupper = Z.to_nat numcol ->
    length rowlower = Z.to_nat numrow ->
    length rowupper = Z.to_nat numrow ->
    length astart = Z.to_nat (numcol + 1) ->
    nth_error astart (Z.to_nat numcol) = Some numNz ->
    length aindex = Z.to_nat numNz ->
    length avalue = Z.to_nat numNz ->
    exists lp,
      callhighs numcol numrow colcost collower colupper rowlower rowupper
        astart aindex avalue = Some lp /\
      colCost_ lp = map Value colcost /\
      colLower_ lp = map Value collower /\
      colUpper_ lp = map Value colupper /\
      rowLower_ lp = map Value rowlower /\
      Astart_ lp = map Value astart /\
      Aindex_ lp = map Value aindex /\
      Avalue_ lp = map Value avalue /\
      (reads_inside lp = true <-> numcol <= numrow).
Proof.
  intros numcol numrow colcost collower colupper rowlower rowupper astart
    aindex avalue numNz Hc Hr Hz Lc Ll Lu Lrl Lru La Hn Li Lv.
  unfold callhighs. rewrite Hn.
  replace (numcol <? 0) with false by (symmetry; apply Z.ltb_ge; lia).
  replace (numrow <? 0) with false by (symmetry; apply Z.ltb_ge; lia).
  replace (numNz <? 0) with false by (symmetry; apply Z.ltb_ge; lia).
  cbn [orb]. eexists. split; [reflexivity|].
  assert (Full : forall A (buf : list A) n,
             length buf = n -> read_range buf n = map Value buf).
  { intros A buf n <-. rewrite read_range_spec, Nat.sub_diag, firstn_all.
    cbn. apply app_nil_r. }
  cbn [colCost_ colLower_ colUpper_ rowLower_ Astart_ Aindex_ Avalue_].
  repeat (split; [apply Full; assumption|]).
  unfold reads_inside.
  cbn [colCost_ colLower_ colUpper_ rowLower_ rowUpper_ Astart_ Aindex_
       Avalue_].
  rewrite !inside_read_range, Lc, Ll, Lu, Lrl, Lru, La, Li, Lv.
  rewrite !Nat.leb_refl. cbn [andb]. rewrite !andb_true_r.
  split; intros K.
  - apply Nat.leb_le in K. lia.
  - apply Nat.leb_le. lia.
Qed.

End CallHighsReads.

Lemma callhighs_reads_inside_iff_witness :
  exists lp,
    MinimalAPI.callhighs 1 2 [1]%float [0]%float [1]%float
      [0; 0]%float [4; 4]%float [0; 2] [0; 1] [1; 1]%float = Some lp /\
    MinimalAPI_reads.reads_inside lp = true.
Proof.
  destruct (@callhighs_reads_inside_iff 1 2 [1]%float [0]%float [1]%float
              [0; 0]%float [4; 4]%float [0; 2] [0; 1] [1; 1]%float 2
              ltac:(lia) ltac:(lia) ltac:(lia) eq_refl eq_refl eq_refl
              eq_refl eq_refl eq_refl eq_refl eq_refl eq_refl)
    as [lp [E [_ [_ [_ [_ [_ [_ [_ K]]]]]]]]].
  exists lp. split; [exact E|]. apply K. lia.
Defined.

(* ================================================================= *)
(** ** The depth accounting *)

Section DepthAccounting.

Context {C : Collaborators}.

Lemma accounted_refl s : accounted s s.
Proof. intros H. repeat split. exact H. Qed.

Lemma accounted_trans s1 s2 s3 :
  accounted s1 s2 -> accounted s2 s3 -> accounted s1 s3.
Proof.
  intros H12 H23 H1. destruct (H12 H1) as [R1 [T1 D1]].
  destruct (H23 T1) as [R2 [T2 D2]]. repeat split; [lia|exact T2|lia].
Qed.

Lemma accounted_same s s' :
  depthoffset s' = depthoffset s ->
  map skipDepthCount (nodestack s') = map skipDepthCount (nodestack s) ->
  accounted s s'.
Proof.
  intros Hd Hm Ht. unfold root_offset, skipped, top_counted, getCurrentDepth_of.
  rewrite Hd, Hm. split; [reflexivity|]. split.
  - unfold top_counted in Ht.
    destruct (nodestack s) as [|n r], (nodestack s') as [|n' r'];
      try discriminate; [exact I|].
    injection Hm as Hn _. rewrite Hn. exact Ht.
  - rewrite <- (length_map skipDepthCount (nodestack s')), Hm, length_map.
    reflexivity.
Qed.

Lemma keeps_depth_ret A (a : A) : keeps_depth (ret a).
Proof. intros s a' s' E. inversion E; subst. apply accounted_refl. Qed.

Lemma keeps_depth_bind A B (m : M A) (k : A -> M B) :
  keeps_depth m -> (forall a, keeps_depth (k a)) -> keeps_depth (bind m k).
Proof.
  intros Hm Hk s b s' E. unfold bind in E.
  destruct (m s) as [[a s1]|] eqn:E1; [|discriminate].
  exact (@accounted_trans s s1 s' (Hm s a s1 E1) (Hk a s1 b s' E)).
Qed.

Lemma keeps_depth_undefined A : keeps_depth (@undefined C A).
Proof. intros s a s' E. discriminate. Qed.

Lemma keeps_depth_member A (f : HighsSearch -> A) : keeps_depth (member f).
Proof. intros s a s' E. inversion E; subst. apply accounted_refl. Qed.

Lemma keeps_depth_obs A (f : World -> A) : keeps_depth (obs f).
Proof. intros s a s' E. inversion E; subst. apply accounted_refl. Qed.

Lemma keeps_depth_getCutoffBound : keeps_depth getCutoffBound.
Proof. intros s a s' E. inversion E; subst. apply accounted_refl. Qed.

Lemma keeps_depth_back : keeps_depth back.
Proof.
  intros s a s' E. unfold back in E.
  destruct (nodestack s); inversion E; subst. apply accounted_refl.
Qed.

Lemma keeps_depth_call (f : World -> World) : keeps_depth (call f).
Proof.
  intros s a s' E. inversion E; subst.
  apply accounted_same; destruct s; reflexivity.
Qed.

Lemma keeps_depth_call_r A (f : World -> A * World) : keeps_depth (call_r f).
Proof.
  intros s a s' E. unfold call_r in E. destruct (f (world s)).
  inversion E; subst. apply accounted_same; destruct s; reflexivity.
Qed.

Lemma keeps_depth_update (f : HighsSearch -> HighsSearch) :
  (forall s, depthoffset (f s) = depthoffset s /\
             nodestack (f s) = nodestack s) ->
  keeps_depth (update f).
Proof.
  intros Hf s a s' E. inversion E; subst. destruct (Hf s) as [Hd Hn].
  apply accounted_same; [exact Hd|rewrite Hn; reflexivity].
Qed.

Lemma keeps_depth_modify_back (f : NodeData -> NodeData) :
  (forall n, skipDepthCount (f n) = skipDepthCount n) ->
  keeps_depth (modify_back f).
Proof.
  intros Hf s a s' E. unfold modify_back in E.
  destruct (nodestack s) as [|n rest] eqn:Hs; inversion E; subst.
  apply accounted_same; [destruct s; reflexivity|].
  rewrite Hs. destruct s as [stk dof nn tw lpi hlpi sbi ul inh inb csr srs iv w].
  cbn. rewrite Hf. reflexivity.
Qed.

Lemma keeps_depth_when (b : bool) (m : M unit) :
  keeps_depth m -> keeps_depth (when b m).
Proof. intros H. destruct b; [exact H|apply keeps_depth_ret]. Qed.

Lemma keeps_depth_fold A (f : M A -> Z -> M A) (l : list Z) :
  (forall acc k, keeps_depth acc -> keeps_depth (f acc k)) ->
  forall acc, keeps_depth acc -> keeps_depth (fold_left f l acc).
Proof.
  intros Hf. induction l as [|k l IH]; intros acc Ha; [exact Ha|].
  cbn. apply IH. apply Hf. exact Ha.
Qed.

End DepthAccounting.

Ltac depth_side :=
  solve [ intros []; split; reflexivity
        | let n := fresh "n" in
          intros n; destruct n as [? ? ? ? ? ? [? ? ?] ? ? ?]; reflexivity ].

Ltac keeps_depth_step :=
  first
    [ apply keeps_depth_when; cbv zeta
    | apply keeps_depth_bind; [|intros]
    | apply keeps_depth_ret
    | apply keeps_depth_undefined
    | apply keeps_depth_member
    | apply keeps_depth_obs
    | apply keeps_depth_call
    | apply keeps_depth_call_r
    | apply keeps_depth_back
    | apply keeps_depth_getCutoffBound
    | apply keeps_depth_modify_back; depth_side
    | apply keeps_depth_update; depth_side
    | match goal with
      | |- keeps_depth (if ?b then _ else _) => destruct b
      | |- keeps_depth (match ?x with _ => _ end) => destruct x
      end ].

Section DepthKept.

Context {C : Collaborators}.

Lemma keeps_depth_conflict_from_proof p : keeps_depth (conflict_from_proof p).
Proof. unfold conflict_from_proof. repeat keeps_depth_step. Qed.

Lemma keeps_depth_addBoundExceedingConflict :
  keeps_depth addBoundExceedingConflict.
Proof.
  unfold addBoundExceedingConflict.
  repeat first [apply keeps_depth_conflict_from_proof | keeps_depth_step].
Qed.

Lemma keeps_depth_addInfeasibleConflict : keeps_depth addInfeasibleConflict.
Proof.
  unfold addInfeasibleConflict.
  repeat first [apply keeps_depth_conflict_from_proof | keeps_depth_step].
Qed.

Lemma keeps_depth_parent_cutoff_observation parent :
  keeps_depth (parent_cutoff_observation parent).
Proof. unfold parent_cutoff_observation. repeat keeps_depth_step. Qed.

Lemma keeps_depth_evaluate_scaledOptimal parent status :
  keeps_depth (evaluate_scaledOptimal parent status).
Proof.
  unfold evaluate_scaledOptimal.
  repeat first [apply keeps_depth_addBoundExceedingConflict | keeps_depth_step].
Qed.

Lemma keeps_depth_evaluate_body : keeps_depth evaluate_body.
Proof.
  unfold evaluate_body, getParentNodeData, domchgstack_size.
  repeat first [ apply keeps_depth_parent_cutoff_observation
               | apply keeps_depth_evaluate_scaledOptimal
               | apply keeps_depth_addInfeasibleConflict
               | keeps_depth_step ].
Qed.

Lemma keeps_depth_evaluate_finish result :
  keeps_depth (evaluate_finish result).
Proof. unfold evaluate_finish, getCurrentDepth. repeat keeps_depth_step. Qed.

Lemma keeps_depth_evaluateNode fuel : keeps_depth (evaluateNode fuel).
Proof.
  induction fuel as [|fuel IH]; cbn [evaluateNode];
    [apply keeps_depth_undefined|].
  apply keeps_depth_bind; [apply keeps_depth_evaluate_body|].
  intros [result|]; [apply keeps_depth_evaluate_finish|exact IH].
Qed.

Lemma keeps_depth_orbitsValidInChildNode chg :
  keeps_depth (orbitsValidInChildNode chg).
Proof. unfold orbitsValidInChildNode. repeat keeps_depth_step. Qed.

Lemma skip_branched t col v p (n : NodeData) :
  skipDepthCount (branched t col v p n) = skipDepthCount n.
Proof. destruct n as [? ? ? ? ? ? [? ? ?] ? ? ?]. reflexivity. Qed.

Lemma skip_flipped (n : NodeData) : skipDepthCount (flipped n) = skipDepthCount n.
Proof.
  destruct n as [? ? ? ? ? ? [? ? bt] ? ? ?].
  unfold flipped, flip_branchingdecision. cbn.
  destruct bt; match goal with |- context [if ?b then _ else _] =>
    destruct b end; reflexivity.
Qed.

Lemma skip_closed z (n : NodeData) :
  skipDepthCount (set_opensubtrees z n) = skipDepthCount n.
Proof. destruct n. reflexivity. Qed.

Lemma accounted_commit s s2 n rest :
  nodestack s = n :: rest ->
  depthoffset s2 = depthoffset s - 1 ->
  map skipDepthCount (nodestack s2) = 0 :: 1 :: map skipDepthCount rest ->
  accounted s s2.
Proof.
  intros Hs Hd Hm Ht. unfold top_counted in Ht. rewrite Hs in Ht.
  unfold root_offset, skipped, top_counted, getCurrentDepth_of.
  rewrite <- (length_map skipDepthCount (nodestack s2)).
  rewrite Hd, Hm, Hs. cbn [map fold_right length]. rewrite length_map, Ht.
  split; [lia|]. split; [|lia].
  destruct (nodestack s2) as [|c r]; [discriminate|].
  injection Hm as Hc _. exact Hc.
Qed.

Lemma keeps_depth_commit_branchUpwards col v p :
  keeps_depth (commit_branchUpwards col v p).
Proof.
  intros s a s' E. destruct (nodestack s) as [|n rest] eqn:Hs.
  - unfold commit_branchUpwards, branchUpwards, bind, modify_back in E.
    rewrite Hs in E. discriminate.
  - destruct (branchUpwards_shape s col v p Hs) as [pass [_ E1]].
    unfold commit_branchUpwards in E. erewrite bind_run in E by (exact E1).
    apply accounted_commit with (n := n) (rest := rest); [exact Hs| |].
    all: destruct s as [stk dof nn tw lpi hlpi sbi ul inh inb csr srs iv w].
    all: cbn in Hs; subst stk; cbn in E; injection E as _ <-.
    all: cbn; rewrite ?skip_branched; reflexivity.
Qed.

Lemma keeps_depth_commit_branchDownwards col v p :
  keeps_depth (commit_branchDownwards col v p).
Proof.
  intros s a s' E. destruct (nodestack s) as [|n rest] eqn:Hs.
  - unfold commit_branchDownwards, branchDownwards, bind, modify_back in E.
    rewrite Hs in E. discriminate.
  - destruct (branchDownwards_shape s col v p Hs) as [pass [_ E1]].
    unfold commit_branchDownwards in E. erewrite bind_run in E by (exact E1).
    apply accounted_commit with (n := n) (rest := rest); [exact Hs| |].
    all: destruct s as [stk dof nn tw lpi hlpi sbi ul inh inb csr srs iv w].
    all: cbn in Hs; subst stk; cbn in E; injection E as _ <-.
    all: cbn; rewrite ?skip_branched; reflexivity.
Qed.

Lemma keeps_depth_sb_update_others numfrac objdelta L :
  keeps_depth (sb_update_others numfrac objdelta L).
Proof.
  unfold sb_update_others. apply keeps_depth_fold; [|apply keeps_depth_ret].
  intros acc k Ha. apply keeps_depth_bind; [exact Ha|intros].
  repeat keeps_depth_step.
Qed.

Ltac keeps_depth_known :=
  first [ apply keeps_depth_commit_branchUpwards
        | apply keeps_depth_commit_branchDownwards
        | apply keeps_depth_sb_update_others
        | apply keeps_depth_orbitsValidInChildNode
        | apply keeps_depth_addBoundExceedingConflict
        | apply keeps_depth_addInfeasibleConflict ].

Lemma keeps_depth_sb_eval_down numfrac candidate col fracval upval downval L :
  keeps_depth (sb_eval_down numfrac candidate col fracval upval downval L).
Proof.
  unfold sb_eval_down, back_orbits_and_valid, back_orbitalFixing, sb_run_lp,
    sb_objdelta, sb_lp_error, sb_add_incumbent, domchgstack_size.
  repeat first [keeps_depth_known | keeps_depth_step].
Qed.

Lemma keeps_depth_sb_eval_up numfrac candidate col fracval upval downval L :
  keeps_depth (sb_eval_up numfrac candidate col fracval upval downval L).
Proof.
  unfold sb_eval_up, back_orbits_and_valid, back_orbitalFixing, sb_run_lp,
    sb_objdelta, sb_lp_error, sb_add_incumbent, domchgstack_size.
  repeat first [keeps_depth_known | keeps_depth_step].
Qed.

Lemma keeps_depth_sb_iteration maxSbIters numfrac L :
  keeps_depth (sb_iteration maxSbIters numfrac L).
Proof.
  unfold sb_iteration, getStrongBranchingLpIterations.
  repeat first [ apply keeps_depth_sb_eval_down
               | apply keeps_depth_sb_eval_up
               | keeps_depth_step ].
Qed.

Lemma keeps_depth_sb_loop fuel :
  forall maxSbIters numfrac L, keeps_depth (sb_loop fuel maxSbIters numfrac L).
Proof.
  induction fuel as [|fuel IH]; intros maxSbIters numfrac L; cbn [sb_loop].
  - apply keeps_depth_undefined.
  - apply keeps_depth_bind; [apply keeps_depth_sb_iteration|].
    intros [c|L']; [apply keeps_depth_ret|apply IH].
Qed.

Lemma keeps_depth_selectBranchingCandidate fuel maxSbIters :
  keeps_depth (selectBranchingCandidate fuel maxSbIters).
Proof.
  unfold selectBranchingCandidate.
  apply keeps_depth_bind; [apply keeps_depth_member|intros].
  apply keeps_depth_sb_loop.
Qed.

Lemma keeps_depth_sb_budget minrel : keeps_depth (sb_budget minrel).
Proof.
  unfold sb_budget, getStrongBranchingLpIterations, getTotalLpIterations,
    getHeuristicLpIterations.
  repeat keeps_depth_step.
Qed.

Lemma keeps_depth_sb_degeneracy : keeps_depth sb_degeneracy.
Proof. unfold sb_degeneracy. repeat keeps_depth_step. Qed.

Lemma keeps_depth_select_child col : keeps_depth (select_child col).
Proof.
  unfold select_child, branch_up, branch_down. repeat keeps_depth_step.
Qed.

Lemma keeps_depth_fallback_branching : keeps_depth fallback_branching.
Proof.
  unfold fallback_branching.
  apply keeps_depth_bind; [apply keeps_depth_member|intros w].
  apply keeps_depth_bind; [|intros; apply keeps_depth_ret].
  apply keeps_depth_fold; [|apply keeps_depth_ret].
  intros acc k Ha. apply keeps_depth_bind; [exact Ha|intros].
  repeat keeps_depth_step.
Qed.

Lemma keeps_depth_lp_ladder fuel : keeps_depth (lp_ladder fuel).
Proof.
  unfold lp_ladder.
  repeat first [apply keeps_depth_evaluateNode | keeps_depth_step].
Qed.

Lemma keeps_depth_branch_loop fuel :
  forall minrel result, keeps_depth (branch_loop fuel minrel result).
Proof.
  induction fuel as [|fuel IH]; intros minrel result; cbn [branch_loop].
  - repeat keeps_depth_step.
  - repeat first [ apply keeps_depth_sb_budget
                 | apply keeps_depth_sb_degeneracy
                 | apply keeps_depth_selectBranchingCandidate
                 | apply keeps_depth_select_child
                 | apply keeps_depth_evaluateNode
                 | apply IH
                 | keeps_depth_step ].
Qed.

Lemma skipped_cons n stk : skipped (n :: stk) = skipDepthCount n + skipped stk.
Proof. reflexivity. Qed.

Lemma skip_child_at w n pass : skipDepthCount (child_at w n pass) = 0.
Proof. reflexivity. Qed.

Lemma unwind_body_offset s r s' :
  unwind_body s = Some (r, s') -> root_offset s' = root_offset s.
Proof.
  intros E. destruct (nodestack s) as [|n rest] eqn:Hs.
  - unfold unwind_body, bind, back in E. rewrite Hs in E. discriminate.
  - destruct (unwind_body_stack s Hs E) as [Hd K]. unfold root_offset.
    rewrite Hd, Hs, skipped_cons. destruct rest as [|p below].
    + rewrite K. cbn. lia.
    + destruct K as [-> | [_ ->]]; rewrite ?skipped_cons, ?skip_closed; lia.
Qed.

Lemma unwind_offset fuel :
  forall s r s', unwind fuel s = Some (r, s') -> root_offset s' = root_offset s.
Proof.
  induction fuel as [|fuel IH]; intros s r s' E; cbn [unwind] in E;
    apply bind_inv in E; destruct E as [n [s1 [E1 E]]];
    unfold back in E1; (destruct (nodestack s) as [|n0 rest]; [discriminate|]);
    injection E1 as <- <-; destruct (opensubtrees n0 =? 0).
  - discriminate.
  - injection E as _ <-. reflexivity.
  - apply bind_inv in E. destruct E as [r1 [s2 [E2 E]]].
    pose proof (@unwind_body_offset _ _ _ E2) as H2.
    destruct r1 as [b|u].
    + injection E as _ <-. exact H2.
    + rewrite (IH _ _ _ E). exact H2.
  - injection E as _ <-. reflexivity.
Qed.

Lemma backtrack_flip_offset s b s' :
  backtrack_flip s = Some (b, s') ->
  root_offset s' = root_offset s /\ (b = true -> top_counted s').
Proof.
  intros E. destruct (nodestack s) as [|n rest] eqn:Hs.
  - unfold backtrack_flip, bind, modify_back in E. rewrite Hs in E.
    discriminate.
  - destruct (backtrack_flip_shape s Hs) as [pass [p [w1 [_ [_ E']]]]].
    rewrite E' in E.
    destruct s as [stk dof nn tw lpi hlpi sbi ul inh inb csr srs iv w].
    cbn in Hs. subst stk.
    destruct p; injection E as <- <-; unfold root_offset, top_counted;
      cbn [nodestack depthoffset set_world set_nodestack set_treeweight];
      rewrite !skipped_cons, ?skip_flipped, ?skip_child_at.
    + split; [reflexivity|discriminate].
    + split; [lia|reflexivity].
Qed.

Lemma backtrackPlunge_flip_offset s b s' :
  backtrackPlunge_flip s = Some (b, s') ->
  root_offset s' = root_offset s /\ (b = true -> top_counted s').
Proof.
  intros E. destruct (nodestack s) as [|n rest] eqn:Hs.
  - unfold backtrackPlunge_flip, bind, modify_back in E. rewrite Hs in E.
    discriminate.
  - destruct (backtrackPlunge_flip_shape s Hs) as [pass [p [w1 [_ [_ E']]]]].
    rewrite E' in E.
    destruct s as [stk dof nn tw lpi hlpi sbi ul inh inb csr srs iv w].
    cbn in Hs. subst stk.
    destruct p; [|destruct (ancestor_loop _ _ _)];
      injection E as <- <-; unfold root_offset, top_counted;
      cbn [nodestack depthoffset set_world set_nodestack set_treeweight];
      rewrite !skipped_cons, ?skip_flipped, ?skip_child_at.
    + split; [reflexivity|discriminate].
    + split; [reflexivity|discriminate].
    + split; [lia|reflexivity].
Qed.

Section FlipLoopOffset.

Variable flip : M bool.

Hypothesis flip_offset :
  forall s b s',
    flip s = Some (b, s') ->
    root_offset s' = root_offset s /\ (b = true -> top_counted s').

Lemma flip_loop_offset fuel :
  forall s b s',
    flip_loop flip fuel s = Some (b, s') ->
    root_offset s' = root_offset s /\ (b = true -> top_counted s').
Proof.
  induction fuel as [|fuel IH]; intros s b s' E; [discriminate|].
  cbn [flip_loop] in E.
  apply bind_inv in E. destruct E as [size [s0 [E0 E]]].
  unfold nodestack_size, member in E0. injection E0 as <- <-.
  apply bind_inv in E. destruct E as [r [s1 [E1 E]]].
  pose proof (@unwind_offset _ _ _ _ E1) as H1.
  destruct r as [b1|u].
  - injection E as <- <-. split; [exact H1|].
    intros ->.
    assert (Hne : nodestack s <> []).
    { intros Hs. rewrite Hs in E1. cbn in E1. unfold bind, back in E1.
      rewrite Hs in E1. discriminate. }
    destruct (@unwind_total _ (length (nodestack s)) s Hne (le_n _))
      as [r [s2 [E2 [_ [_ K]]]]].
    rewrite E1 in E2. injection E2 as <- <-.
    destruct K as [[K _]|[K _]]; discriminate.
  - apply bind_inv in E. destruct E as [pushed [s2 [E2 E]]].
    destruct (@flip_offset _ _ _ E2) as [H2 T2]. destruct pushed.
    + injection E as <- <-. split; [lia|exact T2].
    + destruct (IH _ _ _ E) as [H3 T3]. split; [lia|exact T3].
Qed.

End FlipLoopOffset.

End DepthKept.

Section DepthOfSearch.

Context {C : Collaborators}.

Lemma backtrack_offset (rb : bool) s b s' :
  backtrack rb s = Some (b, s') ->
  root_offset s' = root_offset s /\ (b = true -> top_counted s').
Proof.
  intros E. unfold backtrack in E.
  apply bind_inv in E. destruct E as [e [s0 [E0 E]]].
  unfold nodestack_empty, member in E0. injection E0 as <- <-.
  destruct (match nodestack s with [] => true | _ => false end).
  { injection E as <- <-. split; [reflexivity|discriminate]. }
  apply bind_inv in E. destruct E as [size [s0 [E0 E]]].
  unfold nodestack_size, member in E0. injection E0 as <- <-.
  apply bind_inv in E. destruct E as [r [s1 [E1 E]]].
  rewrite backtrack_loop_flip_loop in E1.
  destruct (@flip_loop_offset _ _ backtrack_flip_offset _ _ _ _ E1) as [R1 T1].
  destruct r.
  - match type of E with ?m s1 = _ =>
      assert (K : keeps_depth m) by (repeat keeps_depth_step) end.
    destruct (K s1 b s' E (T1 eq_refl)) as [R2 [T2 _]].
    split; [lia|intros _; exact T2].
  - injection E as <- <-. split; [exact R1|discriminate].
Qed.

Lemma backtrackPlunge_offset s b s' :
  backtrackPlunge s = Some (b, s') ->
  root_offset s' = root_offset s /\ (b = true -> top_counted s').
Proof.
  intros E. unfold backtrackPlunge in E.
  apply bind_inv in E. destruct E as [e [s0 [E0 E]]].
  unfold nodestack_empty, member in E0. injection E0 as <- <-.
  destruct (match nodestack s with [] => true | _ => false end).
  { injection E as <- <-. split; [reflexivity|discriminate]. }
  apply bind_inv in E. destruct E as [size [s0 [E0 E]]].
  unfold nodestack_size, member in E0. injection E0 as <- <-.
  apply bind_inv in E. destruct E as [r [s1 [E1 E]]].
  rewrite backtrackPlunge_loop_flip_loop in E1.
  destruct (@flip_loop_offset _ _ backtrackPlunge_flip_offset _ _ _ _ E1)
    as [R1 T1].
  destruct r.
  - match type of E with ?m s1 = _ =>
      assert (K : keeps_depth m) by (repeat keeps_depth_step) end.
    destruct (K s1 b s' E (T1 eq_refl)) as [R2 [T2 _]].
    split; [lia|intros _; exact T2].
  - injection E as <- <-. split; [exact R1|discriminate].
Qed.

Lemma untilDepth_unwind_offset (targetDepth : HighsInt) fuel :
  forall s r s',
    untilDepth_unwind fuel targetDepth s = Some (r, s') ->
    root_offset s' = root_offset s /\ r <> @Return bool unit true.
Proof.
  induction fuel as [|fuel IH]; intros s r s' E; cbn [untilDepth_unwind] in E;
    apply bind_inv in E; destruct E as [n [s1 [E1 E]]];
    unfold back in E1;
    (destruct (nodestack s) as [|n0 rest] eqn:Hs; [discriminate|]);
    injection E1 as <- <-; destruct (opensubtrees n0 =? 0).
  - discriminate.
  - injection E as <- <-. split; [reflexivity|discriminate].
  - destruct s as [stk dof nn tw lpi hlpi sbi ul inh inb csr srs iv w].
    cbn [nodestack] in Hs. subst stk. revert E. mcbn.
    destruct rest as [|p rest]; mcbn.
    + intros E. injection E as <- <-. unfold root_offset. cbn.
      split; [lia|discriminate].
    + destruct (_ >=? targetDepth); mcbn; intros E; apply IH in E;
        destruct E as [E Hr]; (split; [|exact Hr]);
        rewrite E; unfold root_offset;
        cbn [nodestack depthoffset set_nodestack set_world set_depthoffset];
        rewrite !skipped_cons, ?skip_closed; lia.
  - injection E as <- <-. split; [reflexivity|discriminate].
Qed.

Lemma backtrackUntilDepth_offset (targetDepth : HighsInt) s b s' :
  backtrackUntilDepth targetDepth s = Some (b, s') ->
  root_offset s' = root_offset s /\ (b = true -> top_counted s').
Proof.
  intros E. unfold backtrackUntilDepth in E.
  apply bind_inv in E. destruct E as [e [s0 [E0 E]]].
  unfold nodestack_empty, member in E0. injection E0 as <- <-.
  destruct (nodestack s) as [|n rest] eqn:Hs.
  { injection E as <- <-. split; [reflexivity|discriminate]. }
  apply bind_inv in E. destruct E as [depth [s0 [E0 E]]].
  unfold getCurrentDepth, member in E0. injection E0 as <- <-.
  apply bind_inv in E. destruct E as [u [s0 [E0 E]]].
  assert (H0 : root_offset s0 = root_offset s).
  { unfold when in E0. destruct (_ >=? targetDepth).
    - unfold modify_back in E0. rewrite Hs in E0. injection E0 as _ <-.
      unfold root_offset. rewrite Hs.
      destruct s as [stk dof nn tw lpi hlpi sbi ul inh inb csr srs iv w].
      cbn [nodestack depthoffset set_nodestack].
      rewrite !skipped_cons, skip_closed. reflexivity.
    - injection E0 as _ <-. reflexivity. }
  apply bind_inv in E. destruct E as [size [s1 [E1 E]]].
  unfold nodestack_size, member in E1. injection E1 as <- <-.
  apply bind_inv in E. destruct E as [r [s1 [E1 E]]].
  destruct (@untilDepth_unwind_offset _ _ _ _ _ E1) as [H1 Hr].
  destruct r as [b1|u1].
  - injection E as <- <-. split; [lia|]. intros ->. contradiction.
  - rewrite <- H0, <- H1. clear E0 E1 H0 H1 Hs Hr.
    destruct s1 as [stk dof nn tw lpi hlpi sbi ul inh inb csr srs iv w].
    destruct stk as [|n1 rest1]; [discriminate|].
    revert E. unfold orbitsValidInChildNode. mcbn. fold (flipped n1).
    repeat break_step; intros K; injection K as <- <-;
      unfold root_offset, top_counted;
      cbn [nodestack depthoffset set_nodestack set_world set_depthoffset];
      rewrite !skipped_cons, skip_flipped;
      (split; [cbn; lia|intros _; reflexivity]).
Qed.

Lemma pruned_not_branched (r : NodeResult) :
  pruned r -> NodeResult_eqb r kBranched = false.
Proof. intros [->|[->| ->]]; reflexivity. Qed.

Lemma branch_depth fuel s r s' :
  unbranched s ->
  top_counted s ->
  branch fuel s = Some (r, s') ->
  root_offset s' = root_offset s /\
  top_counted s' /\
  getCurrentDepth_of s' =
  getCurrentDepth_of s + (if NodeResult_eqb r kBranched then 1 else 0).
Proof.
  intros Hu Ht E. pose proof (@branch_spec _ fuel s r s' Hu E) as Hspec.
  unfold branch in E.
  apply bind_inv in E. destruct E as [u1 [s1 [E1 E]]].
  assert (A1 : accounted s s1).
  { refine (@keeps_depth_modify_back _ _ _ s u1 s1 E1). depth_side. }
  apply bind_inv in E. destruct E as [u2 [s2 [E2 E]]].
  assert (A2 : accounted s1 s2).
  { refine (@keeps_depth_update _ _ _ s1 u2 s2 E2). depth_side. }
  apply bind_inv in E. destruct E as [minrel [s3 [E3 E]]].
  unfold obs in E3. injection E3 as <- <-.
  apply bind_inv in E. destruct E as [result [s4 [E4 E]]].
  pose proof (@keeps_depth_branch_loop _ _ _ _ s2 result s4 E4) as A4.
  apply bind_inv in E. destruct E as [u5 [s5 [E5 E]]].
  assert (A5 : accounted s4 s5).
  { refine (@keeps_depth_update _ _ _ s4 u5 s5 E5). depth_side. }
  apply bind_inv in E. destruct E as [u6 [s6 [E6 E]]].
  pose proof (@keeps_depth_call _ _ s5 u6 s6 E6) as A6.
  apply bind_inv in E. destruct E as [u7 [s7 [E7 E]]].
  pose proof (@keeps_depth_call _ _ s6 u7 s7 E7) as A7.
  assert (A : accounted s s7).
  { apply (@accounted_trans _ s s1 s7 A1).
    apply (@accounted_trans _ s1 s2 s7 A2).
    apply (@accounted_trans _ s2 s4 s7 A4).
    apply (@accounted_trans _ s4 s5 s7 A5).
    exact (@accounted_trans _ s5 s6 s7 A6 A7). }
  destruct (A Ht) as [R7 [T7 D7]]. clear A A1 A2 A4 A5 A6 A7.
  apply bind_inv in E. destruct E as [currnode [s8 [E8 E]]].
  unfold back in E8. destruct (nodestack s7) as [|n rest] eqn:Hs7;
    [discriminate|].
  injection E8 as <- <-.
  destruct (negb (opensubtrees n =? 2)) eqn:Eo.
  - unfold ret in E. injection E as <- <-.
    assert (Hp : NodeResult_eqb result kBranched = false).
    { destruct Hspec as [[_ [n' [rest' [Hn' Ho']]]]|Hp];
        [|exact (@pruned_not_branched result Hp)].
      rewrite Hs7 in Hn'. injection Hn' as <- <-. rewrite Ho' in Eo.
      discriminate. }
    rewrite Hp. split; [exact R7|]. split; [exact T7|lia].
  - apply bind_inv in E. destruct E as [u9 [s9 [E9 E]]].
    assert (A9 : accounted s7 s9).
    { refine (@keeps_depth_when _ _ _ _ s7 u9 s9 E9).
      apply keeps_depth_fallback_branching. }
    destruct (A9 T7) as [R9 [T9 D9]].
    apply bind_inv in E. destruct E as [c [s10 [E10 E]]].
    unfold back in E10. destruct (nodestack s9) as [|n9 rest9] eqn:Hs9;
      [discriminate|].
    injection E10 as <- <-.
    destruct (column (branchingdecision n9) =? -1).
    + rewrite (@pruned_not_branched r (@returns_lp_ladder _ fuel s9 r s' E)).
      destruct (@keeps_depth_lp_ladder _ fuel s9 r s' E T9) as [R [T D]].
      split; [lia|]. split; [exact T|lia].
    + destruct (branch_open_child_shape s9 Hs9) as [pass [_ E']].
      rewrite E' in E. injection E as <- <-. cbn [NodeResult_eqb].
      unfold top_counted in T9. rewrite Hs9 in T9.
      rewrite <- R7, <- R9, <- D7, <- D9.
      unfold root_offset, top_counted, getCurrentDepth_of. rewrite Hs9.
      destruct s9 as [stk dof nn tw lpi hlpi sbi ul inh inb csr srs iv w].
      cbn [nodestack depthoffset set_nodestack set_world length].
      rewrite !skipped_cons, skip_child_at, skip_closed.
      split; [lia|]. split; [reflexivity|lia].
Qed.

Lemma dive_loop_depth fuel :
  forall s r s',
    unbranched s ->
    top_counted s ->
    dive_loop fuel s = Some (r, s') ->
    root_offset s' = root_offset s /\
    top_counted s' /\
    getCurrentDepth_of s <= getCurrentDepth_of s'.
Proof.
  induction fuel as [|fuel IH]; intros s r s' Hu Ht E; [discriminate|].
  cbn [dive_loop] in E.
  apply bind_inv in E. destruct E as [u1 [s1 [E1 E]]].
  assert (H1 : unbranched s1).
  { refine (@keeps_top_update _ _ _ s u1 s1 Hu E1). intros []; reflexivity. }
  assert (A1 : accounted s s1).
  { refine (@keeps_depth_update _ _ _ s u1 s1 E1). depth_side. }
  destruct (A1 Ht) as [R1 [T1 D1]].
  apply bind_inv in E. destruct E as [r1 [s2 [E2 E]]].
  destruct (@keeps_depth_evaluateNode _ _ s1 r1 s2 E2 T1) as [R2 [T2 D2]].
  apply bind_inv in E. destruct E as [limit [s3 [E3 E]]].
  destruct (@keeps_depth_call_r _ _ _ s2 limit s3 E3 T2) as [R3 [T3 D3]].
  destruct limit.
  - unfold ret in E. injection E as <- <-.
    split; [lia|]. split; [exact T3|lia].
  - destruct (negb (NodeResult_eqb r1 kOpen)) eqn:Eo.
    + unfold ret in E. injection E as <- <-.
      split; [lia|]. split; [exact T3|lia].
    + assert (r1 = kOpen) by (destruct r1; try discriminate; reflexivity).
      subst r1.
      pose proof (@keeps_top_call_r _ _ _ s2 false s3
                    (@evaluateNode_open _ _ s1 s2 H1 E2) E3) as Hu3.
      apply bind_inv in E. destruct E as [r2 [s4 [E4 E]]].
      destruct (@branch_depth (S fuel) s3 r2 s4 Hu3 T3 E4) as [R4 [T4 D4]].
      destruct (@branch_spec _ (S fuel) s3 r2 s4 Hu3 E4) as [[-> Hu4]|Hp].
      * cbn in E, D4. destruct (IH s4 r s' Hu4 T4 E) as [R [T D]].
        split; [lia|]. split; [exact T|lia].
      * rewrite (@pruned_not_branched r2 Hp) in E, D4. cbn in E.
        unfold ret in E. injection E as <- <-.
        split; [lia|]. split; [exact T4|lia].
Qed.

Lemma dive_depth fuel s r s' :
  unbranched s ->
  top_counted s ->
  dive fuel s = Some (r, s') ->
  root_offset s' = root_offset s /\
  top_counted s' /\
  getCurrentDepth_of s <= getCurrentDepth_of s'.
Proof.
  intros Hu Ht E. unfold dive in E.
  apply bind_inv in E. destruct E as [u1 [s1 [E1 E]]].
  destruct (@keeps_depth_call _ _ s u1 s1 E1 Ht) as [R1 [T1 D1]].
  destruct (@dive_loop_depth fuel s1 r s' (@keeps_top_call _ _ s u1 s1 Hu E1)
              T1 E) as [R [T D]].
  split; [lia|]. split; [exact T|lia].
Qed.

Lemma fresh_top_unbranched s : fresh_top s -> unbranched s.
Proof.
  intros [c [p [rest [E [Hc _]]]]]. exists c, (p :: rest).
  split; [exact E|exact Hc].
Qed.

Lemma backtrack_unbranched (rb : bool) s s' :
  backtrack rb s = Some (true, s') -> unbranched s'.
Proof.
  intros E. destruct (backtrack_spec rb s) as [b [s1 [E1 [R _]]]].
  rewrite E in E1. injection E1 as <- <-.
  apply fresh_top_unbranched. apply R.
Qed.

Lemma solveDepthFirst_offset fuel :
  forall maxbacktracks s s',
    unbranched s ->
    top_counted s ->
    solveDepthFirst fuel maxbacktracks s = Some (tt, s') ->
    root_offset s' = root_offset s.
Proof.
  induction fuel as [|fuel IH]; intros mb s s' Hu Ht E; [discriminate|].
  cbn [solveDepthFirst] in E. destruct (mb =? 0).
  { injection E as <-. reflexivity. }
  apply bind_inv in E. destruct E as [r [s1 [E1 E]]].
  destruct (@dive_depth (S fuel) s r s1 Hu Ht E1) as [R1 [T1 _]].
  destruct (NodeResult_eqb r kOpen).
  { injection E as <-. exact R1. }
  apply bind_inv in E. destruct E as [more [s2 [E2 E]]].
  destruct (@backtrack_offset _ s1 more s2 E2) as [R2 T2].
  destruct more.
  - rewrite (IH _ s2 s' (@backtrack_unbranched _ s1 s2 E2) (T2 eq_refl) E).
    lia.
  - injection E as <-. lia.
Qed.

Lemma solveDepthFirst_exhausts fuel :
  forall maxbacktracks s s',
    unbranched s ->
    (forall w, fst (checkLimits w) = false) ->
    maxbacktracks < 0 ->
    solveDepthFirst fuel maxbacktracks s = Some (tt, s') ->
    nodestack s' = [].
Proof.
  induction fuel as [|fuel IH]; intros mb s s' Hu Hno Hmb E; [discriminate|].
  cbn [solveDepthFirst] in E.
  assert (Hz : (mb =? 0) = false) by (apply Z.eqb_neq; lia).
  rewrite Hz in E.
  apply bind_inv in E. destruct E as [r [s1 [E1 E]]].
  assert (Hp : pruned r).
  { unfold dive in E1. apply bind_inv in E1.
    destruct E1 as [u0 [s0 [E0 E1]]].
    exact (proj2 (@dive_loop_spec _ (S fuel) s0 r s1
                    (@keeps_top_call _ _ s u0 s0 Hu E0) E1) Hno). }
  assert (Ho : NodeResult_eqb r kOpen = false)
    by (destruct Hp as [->|[->| ->]]; reflexivity).
  rewrite Ho in E.
  apply bind_inv in E. destruct E as [more [s2 [E2 E]]].
  destruct more.
  - apply (IH (mb - 1) s2 s'); [|exact Hno|lia|exact E].
    exact (@backtrack_unbranched _ s1 s2 E2).
  - injection E as <-.
    destruct (backtrack_spec recoverBasis_default s1) as [b [s3 [E3 [R _]]]].
    rewrite E2 in E3. injection E3 as <- <-. exact R.
Qed.

End DepthOfSearch.

Section DepthTheorems.

Context {C : Collaborators}.

Lemma levels_restored_intro s b s' :
  (b = false <-> nodestack s' = []) ->
  root_offset s' = root_offset s /\ (b = true -> top_counted s') ->
  levels_restored s b s'.
Proof.
  intros Hb [R T]. split; [exact R|]. destruct b; [exact (T eq_refl)|].
  rewrite <- R. unfold root_offset.
  rewrite (proj1 Hb eq_refl). cbn. lia.
Qed.

(** [backtrack], [backtrackPlunge] and [backtrackUntilDepth] keep the root
    offset, the depth offset plus the levels that the frames on the stack
    skip: every frame they pop gives its skipped level back to the depth
    offset.  When they return [true] the new current frame counts as a
    level; when they return [false] the depth offset is the root offset. *)
Theorem backtracking_keeps_root_offset :
  forall (recoverBasis_ : bool) (targetDepth : HighsInt) (s : HighsSearch),
    (exists b s',
       backtrack recoverBasis_ s = Some (b, s') /\ levels_restored s b s') /\
    (exists b s',
       backtrackPlunge s = Some (b, s') /\ levels_restored s b s') /\
    (exists b s',
       backtrackUntilDepth targetDepth s = Some (b, s') /\
       levels_restored s b s').
Proof.
  intros rb t s. split; [|split].
  - destruct (backtrack_spec rb s) as [b [s' [E [R _]]]]. exists b, s'.
    split; [exact E|].
    exact (@levels_restored_intro s b s' (@backtracked_iff _ s b s' R)
             (@backtrack_offset _ rb s b s' E)).
  - destruct (backtrackPlunge_spec s) as [b [s' [E [R _]]]]. exists b, s'.
    split; [exact E|].
    exact (@levels_restored_intro s b s' (@backtracked_iff _ s b s' R)
             (@backtrackPlunge_offset _ s b s' E)).
  - destruct (backtrackUntilDepth_spec t s) as [b [s' [E [Hb _]]]].
    exists b, s'. split; [exact E|].
    exact (@levels_restored_intro s b s' Hb
             (@backtrackUntilDepth_offset _ t s b s' E)).
Qed.

(** Strong branching does not change the depth: when
    [selectBranchingCandidate] starts on a frame that counts as a level,
    [getCurrentDepth()] and the root offset are the same when it returns,
    also when it has committed a one-sided branch and pushed a frame; the
    new current frame counts as a level again. *)
Theorem strong_branching_keeps_depth :
  forall (fuel : nat) (maxSbIters : int64_t) (s : HighsSearch)
         (c : HighsInt) (s' : HighsSearch),
    top_counted s ->
    selectBranchingCandidate fuel maxSbIters s = Some (c, s') ->
    getCurrentDepth_of s' = getCurrentDepth_of s /\
    root_offset s' = root_offset s /\
    top_counted s'.
Proof.
  intros fuel maxSbIters s c s' Ht E.
  destruct (@keeps_depth_selectBranchingCandidate _ fuel maxSbIters s c s' E Ht)
    as [R [T D]].
  split; [exact D|]. split; [exact R|exact T].
Qed.

(** [branch] descends by exactly one level when it returns [kBranched], and
    stays at the depth it started from with every other result; the root
    offset is kept. *)
Theorem branch_descends_one_level :
  forall (fuel : nat) (s : HighsSearch) (r : NodeResult) (s' : HighsSearch),
    unbranched s ->
    top_counted s ->
    branch fuel s = Some (r, s') ->
    getCurrentDepth_of s' =
    getCurrentDepth_of s + (if NodeResult_eqb r kBranched then 1 else 0) /\
    root_offset s' = root_offset s /\
    top_counted s'.
Proof.
  intros fuel s r s' Hu Ht E.
  destruct (@branch_depth _ fuel s r s' Hu Ht E) as [R [T D]].
  split; [exact D|]. split; [exact R|exact T].
Qed.

(** A dive never ascends: the depth at which it returns is at least the
    depth at which it started, and the root offset is kept. *)
Theorem dive_never_ascends :
  forall (fuel : nat) (s : HighsSearch) (r : NodeResult) (s' : HighsSearch),
    unbranched s ->
    top_counted s ->
    dive fuel s = Some (r, s') ->
    getCurrentDepth_of s <= getCurrentDepth_of s' /\
    root_offset s' = root_offset s /\
    top_counted s'.
Proof.
  intros fuel s r s' Hu Ht E.
  destruct (@dive_depth _ fuel s r s' Hu Ht E) as [R [T D]].
  split; [exact D|]. split; [exact R|exact T].
Qed.

(** Started on a frame with both subtrees open that counts as a level
    ([skipDepthCount] 0), [solveDepthFirst] keeps the root offset.  With
    [maxbacktracks] 0 it leaves the search as it is.  Without a bound on the backtracks (a
    negative [maxbacktracks]) and with a limit checker that never answers
    [true], it returns only when the stack is empty, and the depth offset is
    then the root offset it started with. *)
Theorem solveDepthFirst_exhausts_the_stack :
  forall (fuel : nat) (maxbacktracks : int64_t) (s s' : HighsSearch),
    unbranched s ->
    top_counted s ->
    solveDepthFirst fuel maxbacktracks s = Some (tt, s') ->
    root_offset s' = root_offset s /\
    (maxbacktracks = 0 -> s' = s) /\
    (maxbacktracks < 0 ->
     (forall w, fst (checkLimits w) = false) ->
     nodestack s' = [] /\ depthoffset s' = root_offset s).
Proof.
  intros fuel mb s s' Hu Ht E.
  pose proof (@solveDepthFirst_offset _ fuel mb s s' Hu Ht E) as R.
  split; [exact R|]. split.
  - intros ->. destruct fuel; [discriminate|]. cbn in E.
    injection E as <-. reflexivity.
  - intros Hmb Hno.
    pose proof (@solveDepthFirst_exhausts _ fuel mb s s' Hu Hno Hmb E) as Hs.
    split; [exact Hs|]. rewrite <- R. unfold root_offset. rewrite Hs.
    cbn. lia.
Qed.

End DepthTheorems.

Lemma probe_search_top_counted : @top_counted Toy.env Examples.probe_search.
Proof. reflexivity. Qed.

Lemma strong_branching_keeps_depth_witness :
  exists c s',
    @selectBranchingCandidate Toy.env 2 10 Examples.probe_search
    = Some (c, s') /\
    length (nodestack s') = 2%nat /\
    getCurrentDepth_of s' = getCurrentDepth_of Examples.probe_search.
Proof.
  destruct (@selectBranchingCandidate Toy.env 2 10 Examples.probe_search)
    as [[c s']|] eqn:E; [|vm_compute in E; discriminate].
  exists c, s'. split; [reflexivity|]. split.
  - vm_compute in E. injection E as _ <-. reflexivity.
  - apply (@strong_branching_keeps_depth Toy.env 2 10 Examples.probe_search
             c s' probe_search_top_counted E).
Defined.

Lemma branch_descends_one_level_witness :
  exists r s',
    @branch Toy.env 2 Examples.probe_search = Some (r, s') /\
    getCurrentDepth_of s' =
    getCurrentDepth_of Examples.probe_search +
    (if NodeResult_eqb r kBranched then 1 else 0).
Proof.
  destruct (@branch Toy.env 2 Examples.probe_search) as [[r s']|] eqn:E;
    [|vm_compute in E; discriminate].
  exists r, s'. split; [reflexivity|].
  apply (@branch_descends_one_level Toy.env 2 Examples.probe_search r s'
           probe_search_unbranched probe_search_top_counted E).
Defined.

Lemma dive_never_ascends_witness :
  exists r s',
    @dive Toy.env 2 Examples.probe_search = Some (r, s') /\
    getCurrentDepth_of Examples.probe_search <= getCurrentDepth_of s'.
Proof.
  destruct (@dive Toy.env 2 Examples.probe_search) as [[r s']|] eqn:E;
    [|vm_compute in E; discriminate].
  exists r, s'. split; [reflexivity|].
  apply (@dive_never_ascends Toy.env 2 Examples.probe_search r s'
           probe_search_unbranched probe_search_top_counted E).
Defined.

Lemma solveDepthFirst_exhausts_the_stack_witness :
  exists s',
    @solveDepthFirst Toy.env 3 (-1) Examples.probe_search = Some (tt, s') /\
    nodestack s' = [] /\
    depthoffset s' = root_offset Examples.probe_search.
Proof.
  destruct (@solveDepthFirst Toy.env 3 (-1) Examples.probe_search)
    as [[[] s']|] eqn:E; [|vm_compute in E; discriminate].
  exists s'. split; [reflexivity|].
  destruct (@solveDepthFirst_exhausts_the_stack Toy.env 3 (-1)
              Examples.probe_search s' probe_search_unbranched
              probe_search_top_counted E) as [_ [_ K]].
  apply K; [reflexivity|]. intros w. reflexivity.
Defined.

(* ================================================================= *)
(** ** The feasibility test of a solution *)

Section Solutions.

Context {C : Collaborators}.

Lemma indices_In (n k : Z) : 0 <= k < n -> In k (indices n).
Proof.
  intros H. unfold indices. apply in_map_iff. exists (Z.to_nat k).
  split; [lia|]. apply in_seq. lia.
Qed.

Lemma checkSol_spec (w : World) (sol : list double) :
  checkSol w sol =
  (cdouble_to_double (objective_sum w sol),
   forallb (integral_at w sol) (indices (numCol w))).
Proof.
  unfold checkSol, objective_sum. cbv zeta.
  match goal with |- (let (_, _) := fold_left ?f _ _ in _) = _ =>
    assert (H : forall l o b,
               fold_left f l (o, b) =
               (fold_left
                  (fun o i => cdouble_add o (at_ sol i 0 * colCost w i)%float)
                  l o,
                b && forallb (integral_at w sol) l))
  end.
  { induction l as [|i l IH]; intros o b; cbn [fold_left forallb].
    - rewrite andb_true_r. reflexivity.
    - destruct b; cbn [negb orb andb];
        [destruct (variableType_is_kInteger w i) eqn:Hint; cbn [negb orb andb];
         [destruct (Dbl.gtb _ _) eqn:Hgt|]|];
        rewrite IH; f_equal; unfold integral_at;
        rewrite ?Hint, ?Hgt; reflexivity. }
  rewrite H. reflexivity.
Qed.

(** [checkSol] sums the objective over every column, whether or not the
    solution is integer feasible, and reports the solution integer feasible
    exactly when no integer column is further than the feasibility
    tolerance from its nearest integer.  Without columns the objective is
    the double of an empty sum and the solution is integer feasible. *)
Theorem checkSol_integer_feasible :
  forall (w : World) (sol : list double),
    fst (checkSol w sol) = cdouble_to_double (objective_sum w sol) /\
    (snd (checkSol w sol) = true <->
     forall i, 0 <= i < numCol w ->
               variableType_is_kInteger w i = true ->
               Dbl.gtb
                 (PrimFloat.abs
                    (at_ sol i 0 - Dbl.floor (at_ sol i 0 + 0.5))%float)
                 (feastol w) = false) /\
    (numCol w = 0 ->
     checkSol w sol = (cdouble_to_double (cdouble_of 0%float), true)).
Proof.
  intros w sol. rewrite checkSol_spec. cbn [fst snd]. split; [reflexivity|].
  split.
  - rewrite forallb_forall. split.
    + intros H i Hi Hint. specialize (H i (indices_In Hi)).
      unfold integral_at in H. rewrite Hint in H. cbn in H.
      apply negb_true_iff in H. exact H.
    + intros H i Hi. apply In_indices in Hi. unfold integral_at.
      destruct (variableType_is_kInteger w i) eqn:Hint; [|reflexivity].
      cbn [negb orb]. rewrite (H i Hi Hint). reflexivity.
  - intros H0. unfold objective_sum. rewrite H0. reflexivity.
Qed.

End Solutions.

(* ================================================================= *)
(** ** The candidate that strong branching returns *)

(** *** What a program leaves of the frames *)

Section Outcome.

Context {C : Collaborators}.

Lemma frame_committed_after s s1 s' :
  same_frames s s1 -> frame_committed s1 s' -> frame_committed s s'.
Proof.
  intros [_ [Hd Hl]] [Hl' Hd']. unfold frame_committed.
  rewrite Hl', Hd', Hl, Hd. split; reflexivity.
Qed.

Lemma frame_committed_then s s1 s' :
  frame_committed s s1 -> same_frames s1 s' -> frame_committed s s'.
Proof.
  intros [Hl Hd] [_ [Hd' Hl']]. unfold frame_committed.
  rewrite Hl', Hd', Hl, Hd. split; reflexivity.
Qed.

Lemma trial_outcome_after s s1 r s' :
  same_frames s s1 -> trial_outcome s1 r s' -> trial_outcome s r s'.
Proof.
  intros H. destruct r as [c|L]; cbn.
  - intros [Hc Hf]. split; [exact Hc|].
    exact (@frame_committed_after s s1 s' H Hf).
  - intros K. exact (@same_frames_trans _ s s1 s' H K).
Qed.

Lemma ends_bind_keeps A (m : M A)
    (k : A -> M (LoopStep HighsInt SbLocals)) :
  keeps m -> (forall a, ends trial_outcome (k a)) ->
  ends trial_outcome (bind m k).
Proof.
  intros Hm Hk s r s' E. apply bind_inv in E.
  destruct E as [a [s1 [E1 E]]].
  exact (@trial_outcome_after s s1 r s' (Hm s a s1 E1) (Hk a s1 r s' E)).
Qed.

Lemma ends_continue (L : SbLocals) :
  ends trial_outcome (ret (@Continue HighsInt SbLocals L)).
Proof. intros s r s' E. inversion E; subst. apply same_frames_refl. Qed.

Lemma ends_commit (m : M unit) :
  commits m -> ends trial_outcome (m ;; ret (@Return HighsInt SbLocals (-1))).
Proof.
  intros Hm s r s' E. apply bind_inv in E. destruct E as [u [s1 [E1 E]]].
  inversion E; subst. split; [reflexivity|exact (Hm s u s' E1)].
Qed.

Lemma ends_commit_then (m m2 : M unit) :
  commits m -> keeps m2 ->
  ends trial_outcome (m ;; m2 ;; ret (@Return HighsInt SbLocals (-1))).
Proof.
  intros Hm H2 s r s' E. apply bind_inv in E. destruct E as [u [s1 [E1 E]]].
  apply bind_inv in E. destruct E as [u2 [s2 [E2 E]]].
  inversion E; subst. split; [reflexivity|].
  exact (@frame_committed_then s s1 s' (Hm s u s1 E1) (H2 s1 u2 s' E2)).
Qed.

Lemma keeps_fold A (f : M A -> Z -> M A) (l : list Z) :
  (forall acc k, keeps acc -> keeps (f acc k)) ->
  forall acc, keeps acc -> keeps (fold_left f l acc).
Proof.
  intros Hf. induction l as [|k l IH]; intros acc Ha; [exact Ha|].
  cbn. apply IH. apply Hf. exact Ha.
Qed.

Lemma commits_commit_branchUpwards col v p :
  commits (commit_branchUpwards col v p).
Proof.
  intros s a s' E. unfold commit_branchUpwards in E.
  destruct (nodestack s) as [|n rest] eqn:Hs.
  { unfold branchUpwards, bind, modify_back in E. rewrite Hs in E.
    discriminate. }
  destruct (branchUpwards_shape s col v p Hs) as [pass [_ E1]].
  erewrite bind_run in E by (exact E1).
  destruct s as [stk dof nn tw lpi hlpi sbi ul inh inb csr srs iv w].
  cbn in Hs. subst stk. revert E. mcbn. intros E. injection E as _ <-.
  split; reflexivity.
Qed.

Lemma commits_commit_branchDownwards col v p :
  commits (commit_branchDownwards col v p).
Proof.
  intros s a s' E. unfold commit_branchDownwards in E.
  destruct (nodestack s) as [|n rest] eqn:Hs.
  { unfold branchDownwards, bind, modify_back in E. rewrite Hs in E.
    discriminate. }
  destruct (branchDownwards_shape s col v p Hs) as [pass [_ E1]].
  erewrite bind_run in E by (exact E1).
  destruct s as [stk dof nn tw lpi hlpi sbi ul inh inb csr srs iv w].
  cbn in Hs. subst stk. revert E. mcbn. intros E. injection E as _ <-.
  split; reflexivity.
Qed.

End Outcome.

Ltac frames_step :=
  first
    [ apply keeps_when; cbv zeta
    | apply keeps_bind; [|intros]
    | apply keeps_ret
    | apply keeps_undefined
    | apply keeps_member
    | apply keeps_obs
    | apply keeps_call
    | apply keeps_call_r
    | apply keeps_back
    | apply keeps_modify_back
    | apply keeps_getCutoffBound
    | apply keeps_addBoundExceedingConflict
    | apply keeps_addInfeasibleConflict
    | apply keeps_update;
      (let s := fresh "s" in intros s; destruct s; repeat split)
    | match goal with
      | |- keeps (if ?b then _ else _) => destruct b
      | |- keeps (match ?x with _ => _ end) => destruct x
      end ].

Section OutcomeOfStrongBranching.

Context {C : Collaborators}.

Lemma keeps_orbitsValidInChildNode chg : keeps (orbitsValidInChildNode chg).
Proof. unfold orbitsValidInChildNode. repeat frames_step. Qed.

Lemma keeps_sb_update_others numfrac objdelta L :
  keeps (sb_update_others numfrac objdelta L).
Proof.
  unfold sb_update_others. apply keeps_fold; [|apply keeps_ret].
  intros acc k Ha. apply keeps_bind; [exact Ha|intros].
  repeat frames_step.
Qed.

Lemma keeps_sb_run_lp : keeps sb_run_lp.
Proof. unfold sb_run_lp. repeat frames_step. Qed.

Lemma keeps_sb_objdelta : keeps sb_objdelta.
Proof. unfold sb_objdelta. repeat frames_step. Qed.

Lemma keeps_sb_add_incumbent solobj : keeps (sb_add_incumbent solobj).
Proof. unfold sb_add_incumbent. repeat frames_step. Qed.

Lemma keeps_sb_lp_error candidate col L : keeps (sb_lp_error candidate col L).
Proof. unfold sb_lp_error. repeat frames_step. Qed.

Lemma keeps_back_orbits_and_valid chg : keeps (back_orbits_and_valid chg).
Proof.
  unfold back_orbits_and_valid.
  repeat first [apply keeps_orbitsValidInChildNode | frames_step].
Qed.

Lemma keeps_back_orbitalFixing : keeps back_orbitalFixing.
Proof. unfold back_orbitalFixing. repeat frames_step. Qed.

Lemma keeps_domchgstack_size : keeps domchgstack_size.
Proof. unfold domchgstack_size. repeat frames_step. Qed.

Ltac frames_known :=
  first [ apply keeps_back_orbits_and_valid
        | apply keeps_back_orbitalFixing
        | apply keeps_domchgstack_size
        | apply keeps_sb_run_lp
        | apply keeps_sb_objdelta
        | apply keeps_sb_update_others
        | apply keeps_sb_add_incumbent
        | apply keeps_sb_lp_error
        | frames_step ].

(** The end of a trial branch: a result that ends the selection is handed
    on, and otherwise the trial bound is taken back. *)
Lemma ends_trial_bind (m : M (LoopStep HighsInt SbLocals))
    (k : SbLocals -> M (LoopStep HighsInt SbLocals)) :
  ends trial_outcome m -> (forall L, ends trial_outcome (k L)) ->
  ends trial_outcome
    (r <- m ;;
     match r with
     | Return _ c => ret (@Return HighsInt SbLocals c)
     | Continue _ L => k L
     end).
Proof.
  intros Hm Hk s r s' E. apply bind_inv in E.
  destruct E as [r1 [s1 [E1 E]]]. pose proof (Hm s r1 s1 E1) as K.
  destruct r1 as [c|L].
  - inversion E; subst. exact K.
  - exact (@trial_outcome_after _ s s1 r s' K (Hk L s1 r s' E)).
Qed.

Ltac outcome_step :=
  first
    [ apply ends_continue
    | apply ends_commit;
      first [ apply commits_commit_branchUpwards
            | apply commits_commit_branchDownwards ]
    | apply ends_commit_then;
      [ first [ apply commits_commit_branchUpwards
              | apply commits_commit_branchDownwards ]
      | solve [repeat frames_known] ]
    | apply ends_trial_bind; [|intros]
    | apply ends_bind_keeps; [solve [repeat frames_known]|intros]
    | match goal with
      | |- ends _ (if ?b then _ else _) => destruct b
      | |- ends _ (let (_, _) := ?x in _) => destruct x
      | |- ends _ (match ?x with _ => _ end) => destruct x
      end ].

Lemma ends_sb_eval_down numfrac candidate col fracval upval downval L :
  ends trial_outcome
    (sb_eval_down numfrac candidate col fracval upval downval L).
Proof. unfold sb_eval_down. repeat outcome_step. Qed.

Lemma ends_sb_eval_up numfrac candidate col fracval upval downval L :
  ends trial_outcome
    (sb_eval_up numfrac candidate col fracval upval downval L).
Proof. unfold sb_eval_up. repeat outcome_step. Qed.

Lemma ends_sb_iteration maxSbIters numfrac L :
  0 < numfrac ->
  (forall w, scores_nonnegative w) ->
  ends (pass_outcome numfrac) (sb_iteration maxSbIters numfrac L).
Proof.
  intros Hn Hs s r s' E. unfold sb_iteration in E.
  apply bind_inv in E. destruct E as [sbiters [s0 [E0 E]]].
  unfold getStrongBranchingLpIterations, member in E0.
  injection E0 as _ <-.
  apply bind_inv in E. destruct E as [mustStop [s1 [E1 E]]].
  assert (K1 : same_frames s s1).
  { destruct (_ >=? _).
    - inversion E1; subst. apply same_frames_refl.
    - exact (@keeps_call_r _ _ _ s mustStop s1 E1). }
  apply bind_inv in E. destruct E as [w [s2 [E2 E]]].
  unfold member in E2. injection E2 as <- <-.
  pose proof (proj2 (proj2 (selectBestScore_spec (world s1) numfrac mustStop L))
                Hn (Hs (world s1))) as Hk.
  destruct (selectBestScore (world s1) numfrac mustStop L) as [candidate L1].
  cbn [fst] in Hk.
  destruct (_ || _).
  - apply bind_inv in E. destruct E as [u [s3 [E3 E]]].
    inversion E; subst. cbn. right. split; [exact Hk|].
    apply (@same_frames_trans _ s s1 s' K1).
    revert E3. generalize s1 u s'.
    change (keeps (if resetBasis L1
                   then n <- back ;; call (setStoredBasis (nodeBasis n)) ;;
                        call recoverBasis ;; st <- call_r (lp_run true) ;;
                        ret tt
                   else ret tt)).
    repeat frames_step.
  - apply bind_inv in E. destruct E as [ul [s3 [E3 E]]].
    unfold obs in E3. injection E3 as _ <-.
    apply bind_inv in E. destruct E as [u [s4 [E4 E]]].
    pose proof (@keeps_call _ _ s1 u s4 E4) as K4.
    apply bind_inv in E. destruct E as [w4 [s5 [E5 E]]].
    unfold member in E5. injection E5 as <- <-.
    assert (K : trial_outcome s4 r s').
    { destruct (negb _);
        [exact (@ends_sb_eval_down _ _ _ _ _ _ _ _ _ _ E)
        |exact (@ends_sb_eval_up _ _ _ _ _ _ _ _ _ _ E)]. }
    apply (@trial_outcome_after _ s s4 r s'
             (@same_frames_trans _ s s1 s4 K1 K4)) in K.
    destruct r as [c|L']; cbn in K |- *; [left; exact K|exact K].
Qed.

Lemma selection_outcome_after numfrac s s1 c s' :
  same_frames s s1 -> selection_outcome numfrac s1 c s' ->
  selection_outcome numfrac s c s'.
Proof.
  intros H [[Hc Hf]|[Hc Hf]]; [left|right]; (split; [exact Hc|]).
  - exact (@frame_committed_after _ s s1 s' H Hf).
  - exact (@same_frames_trans _ s s1 s' H Hf).
Qed.

Lemma ends_sb_loop fuel :
  forall maxSbIters numfrac L,
    0 < numfrac ->
    (forall w, scores_nonnegative w) ->
    ends (selection_outcome numfrac) (sb_loop fuel maxSbIters numfrac L).
Proof.
  induction fuel as [|fuel IH]; intros maxSbIters numfrac L Hn Hs s c s' E;
    cbn [sb_loop] in E; [discriminate|].
  apply bind_inv in E. destruct E as [r [s1 [E1 E]]].
  pose proof (@ends_sb_iteration maxSbIters numfrac L Hn Hs s r s1 E1) as K.
  destruct r as [c1|L1]; cbn in K.
  - inversion E; subst. exact K.
  - exact (@selection_outcome_after numfrac s s1 c s' K
             (IH maxSbIters numfrac L1 Hn Hs s1 c s' E)).
Qed.

(** [selectBranchingCandidate], called with at least one fractional integer
    (its [assert]) and with pseudo-cost scores that are not negative (the
    [assert] of [selectBestScore]), returns -1 or an index into the
    fractional integers that the LP relaxation reports when the function is
    called.  It returns -1 only when a trial branch has ended the selection
    by committing the opposite branch: the stack then has one frame more
    and the depth offset is one less.  When it returns an index, the number
    of frames and the depth offset are what they were. *)
Theorem selectBranchingCandidate_in_range :
  forall (fuel : nat) (maxSbIters : int64_t) (s : HighsSearch)
         (c : HighsInt) (s' : HighsSearch),
    getFractionalIntegers (world s) <> [] ->
    (forall w, scores_nonnegative w) ->
    selectBranchingCandidate fuel maxSbIters s = Some (c, s') ->
    (c = -1 /\
     length (nodestack s') = S (length (nodestack s)) /\
     depthoffset s' = depthoffset s - 1) \/
    (0 <= c < Z.of_nat (length (getFractionalIntegers (world s))) /\
     length (nodestack s') = length (nodestack s) /\
     depthoffset s' = depthoffset s).
Proof.
  intros fuel maxSbIters s c s' Hne Hs E.
  unfold selectBranchingCandidate in E.
  apply bind_inv in E. destruct E as [w [s0 [E0 E]]].
  unfold member in E0. injection E0 as <- <-.
  assert (Hn : 0 < Z.of_nat (length (getFractionalIntegers (world s)))).
  { destruct (getFractionalIntegers (world s)); [congruence|cbn; lia]. }
  destruct (@ends_sb_loop fuel maxSbIters _ _ Hn Hs s c s' E)
    as [[Hc [Hl Hd]]|[Hc [_ [Hd Hl]]]]; [left|right]; repeat split;
    try assumption; lia.
Qed.

End OutcomeOfStrongBranching.

(** On [Examples.probe_search] the down side of the one candidate is
    infeasible: the selection ends with -1 and the committed frame.  Without
    a budget for strong branching the candidate 0 is selected. *)
Lemma selectBranchingCandidate_in_range_witness :
  (exists s',
     @selectBranchingCandidate Toy.env 2 10 Examples.probe_search
     = Some (-1, s') /\
     length (nodestack s') = 2%nat /\ depthoffset s' = -1) /\
  (exists c s',
     @selectBranchingCandidate Toy.env 1 0 Examples.probe_search
     = Some (c, s') /\
     (c = -1 \/ 0 <= c < 1)).
Proof.
  assert (Hs : forall w, @scores_nonnegative Toy.env w)
    by (intros w; split; intros; reflexivity).
  assert (Hf : @getFractionalIntegers Toy.env (world Examples.probe_search)
               <> []) by (vm_compute; discriminate).
  split.
  - destruct (@selectBranchingCandidate Toy.env 2 10 Examples.probe_search)
      as [[c s']|] eqn:E; [|vm_compute in E; discriminate].
    assert (Hc : c = -1) by (vm_compute in E; inversion E; reflexivity).
    subst c. exists s'. split; [reflexivity|].
    destruct (@selectBranchingCandidate_in_range Toy.env 2 10
                Examples.probe_search (-1) s' Hf Hs E)
      as [[_ [Hl Hd]]|[Hc _]]; [|lia].
    split; [exact Hl|exact Hd].
  - destruct (@selectBranchingCandidate Toy.env 1 0 Examples.probe_search)
      as [[c s']|] eqn:E; [|vm_compute in E; discriminate].
    exists c, s'. split; [reflexivity|].
    destruct (@selectBranchingCandidate_in_range Toy.env 1 0
                Examples.probe_search c s' Hf Hs E)
      as [[Hc _]|[Hc _]]; [left; exact Hc|right; exact Hc].
Defined.

(* ================================================================= *)
(** ** The search of an installed node *)

Section InstalledNode.

Context {C : Collaborators}.

Lemma installNode_ready (node : OpenNode) s :
  exists s1,
    installNode node s = Some (tt, s1) /\
    unbranched s1 /\
    top_counted s1 /\
    getCurrentDepth_of s1 = on_depth node + Z.of_nat (length (nodestack s)) /\
    root_offset s1 = on_depth node - 1 + skipped (nodestack s).
Proof.
  unfold installNode.
  destruct s as [stk dof nn tw lpi hlpi sbi ul inh inb csr srs iv w]. mcbn.
  eexists. split; [reflexivity|]. split; [|split; [|split]].
  - eexists _, _. split; reflexivity.
  - reflexivity.
  - unfold getCurrentDepth_of.
    cbn [nodestack depthoffset length set_depthoffset set_subrootsol
         set_nodestack set_world]. lia.
  - unfold root_offset.
    cbn [nodestack depthoffset set_depthoffset set_subrootsol set_nodestack
         set_world]. rewrite skipped_cons.
    cbn [skipDepthCount NodeData_new]. lia.
Qed.

(** [installNode] returns, on any stack, with a frame on top that has both
    subtrees open and counts as a level, the state that [branch] and [dive]
    ask for, at the depth of the node plus the number of frames that were on
    the stack.  On an empty stack, a [solveDepthFirst] that follows keeps
    the root offset at the depth of the node minus one; without a bound on
    the backtracks and without a limit it returns with an empty stack and
    the depth offset that [installNode] has set. *)
Theorem installed_node_is_searched :
  forall (node : OpenNode) (s : HighsSearch),
    exists s1,
      installNode node s = Some (tt, s1) /\
      unbranched s1 /\
      top_counted s1 /\
      getCurrentDepth_of s1 =
      on_depth node + Z.of_nat (length (nodestack s)) /\
      forall (fuel : nat) (maxbacktracks : int64_t) (s2 : HighsSearch),
        nodestack s = [] ->
        solveDepthFirst fuel maxbacktracks s1 = Some (tt, s2) ->
        root_offset s2 = on_depth node - 1 /\
        (maxbacktracks < 0 ->
         (forall w, fst (checkLimits w) = false) ->
         nodestack s2 = [] /\ depthoffset s2 = depthoffset s1).
Proof.
  intros node s.
  destruct (installNode_ready node s) as [s1 [E [Hu [Ht [Hd Hr]]]]].
  exists s1. split; [exact E|]. split; [exact Hu|]. split; [exact Ht|].
  split; [exact Hd|].
  intros fuel mb s2 Hs E2. rewrite Hs in Hr. cbn in Hr.
  pose proof (@solveDepthFirst_offset _ fuel mb s1 s2 Hu Ht E2) as R.
  split; [lia|]. intros Hmb Hno.
  pose proof (@solveDepthFirst_exhausts _ fuel mb s1 s2 Hu Hno Hmb E2) as He.
  split; [exact He|].
  assert (Hdo : depthoffset s1 = on_depth node - 1).
  { destruct (installNode_shape node s) as [frame [Ei _]].
    rewrite E in Ei. injection Ei as ->.
    destruct s; reflexivity. }
  unfold root_offset in R at 1. rewrite He in R. cbn in R. lia.
Qed.

End InstalledNode.

Lemma installed_node_is_searched_witness :
  exists s1 s2,
    @installNode Toy.env (mkOpenNode [] [] 0%float 0%float 3)
      (set_nodestack [] Examples.probe_search) = Some (tt, s1) /\
    @solveDepthFirst Toy.env 3 (-1) s1 = Some (tt, s2) /\
    nodestack s2 = [] /\ depthoffset s2 = 2.
Proof.
  destruct (@installed_node_is_searched Toy.env
              (mkOpenNode [] [] 0%float 0%float 3)
              (set_nodestack [] Examples.probe_search))
    as [s1 [E [_ [_ [_ K]]]]].
  assert (Hs1 : depthoffset s1 = 2).
  { vm_compute in E. injection E as <-. reflexivity. }
  destruct (@solveDepthFirst Toy.env 3 (-1) s1) as [[[] s2]|] eqn:E2.
  - exists s1, s2. split; [exact E|]. split; [exact E2|].
    destruct (K 3%nat (-1) s2 eq_refl E2) as [_ K2].
    destruct K2 as [He Hd]; [reflexivity|intros w; reflexivity|].
    split; [exact He|]. rewrite Hd. exact Hs1.
  - exfalso. vm_compute in E. injection E as <-. vm_compute in E2.
    discriminate.
Defined.

(* ================================================================= *)
(** ** The bounds that the neighbourhoods ask for *)

Section NeighbourhoodProofs.

Context {C : Collaborators}.

Variable chg : HighsBoundType -> HighsInt -> double -> World -> World.

Lemma ltb_irrefl (x : double) : (x <? x)%float = false.
Proof.
  rewrite ltb_spec. unfold SFltb, SFcompare.
  destruct (Prim2SF x) as [[|]|[|]| |[|] m e]; try reflexivity.
  all: rewrite Z.compare_refl, Pos.compare_refl; reflexivity.
Qed.

Lemma min_not_above (a b : double) : (b <? Dbl.min a b)%float = false.
Proof.
  unfold Dbl.min. destruct (b <? a)%float eqn:E; [apply ltb_irrefl|exact E].
Qed.

Lemma max_not_below (a b : double) : (Dbl.max a b <? b)%float = false.
Proof.
  unfold Dbl.max. destruct (a <? b)%float eqn:E; [apply ltb_irrefl|exact E].
Qed.


Lemma neighbourhood_refl s : neighbourhood_of chg s s.
Proof.
  split; [exists (world s); destruct s; reflexivity|].
  intros Inv _ H. exact H.
Qed.

Lemma neighbourhood_trans s1 s2 s3 :
  neighbourhood_of chg s1 s2 -> neighbourhood_of chg s2 s3 ->
  neighbourhood_of chg s1 s3.
Proof.
  intros [[w2 E2] I2] [[w3 E3] I3]. split.
  - exists w3. rewrite E3, E2. destruct s1; reflexivity.
  - intros Inv Hk H. exact (I3 Inv Hk (I2 Inv Hk H)).
Qed.

Lemma neighbourhood_step s s' t i v :
  within_bounds (world s) t i v ->
  s' = set_world (chg t i v (world s)) s ->
  neighbourhood_of chg s s'.
Proof.
  intros Hb ->. split; [eexists; reflexivity|].
  intros Inv Hk H. destruct s. cbn in *. exact (Hk t i v _ H Hb).
Qed.

Lemma rins_column_spec basesol relaxsol i s u s' :
  rins_column chg basesol relaxsol i s = Some (u, s') ->
  neighbourhood_of chg s s' /\
  (skipped_column (world s) i -> s' = s).
Proof.
  unfold rins_column, skipped_column.
  destruct s as [stk dof nn tw lpi hlpi sbi ul inh inb csr srs iv w]. mcbn.
  destruct (variableType_is_kInteger w i) eqn:Hint; cbn [negb].
  2:{ intros K. injection K as _ <-. split; [apply neighbourhood_refl|].
      reflexivity. }
  destruct (colLower_ w i =? colUpper_ w i)%float eqn:Hfix.
  { intros K. injection K as _ <-. split; [apply neighbourhood_refl|].
    reflexivity. }
  match goal with |- context [if ?b then _ else _] => destruct b end.
  2:{ intros K. injection K as _ <-. split; [apply neighbourhood_refl|].
      intros [K|K]; discriminate. }
  match goal with |- context [if ?b then _ else _] => destruct b end; mcbn;
    (match goal with |- context [if ?b then _ else _] => destruct b end); mcbn;
    intros K; injection K as _ <-;
    (split; [|intros [K|K]; discriminate]).
  - eapply neighbourhood_trans.
    + eapply (@neighbourhood_step _ _ kLower i); [|reflexivity].
      apply min_not_above.
    + eapply (@neighbourhood_step _ _ kUpper i); [|reflexivity].
      apply max_not_below.
  - eapply (@neighbourhood_step _ _ kLower i); [|reflexivity].
    apply min_not_above.
  - eapply (@neighbourhood_step _ _ kUpper i); [|reflexivity].
    apply max_not_below.
  - apply neighbourhood_refl.
Qed.


Lemma rens_column_spec lpsol i s r s' :
  rens_column chg lpsol i s = Some (r, s') ->
  neighbourhood_of chg s s' /\
  (skipped_column (world s) i -> s' = s /\ r = @Continue unit unit tt) /\
  (r = @Return unit unit tt -> infeasible (world s') = true).
Proof.
  unfold rens_column, skipped_column.
  destruct s as [stk dof nn tw lpi hlpi sbi ul inh inb csr srs iv w]. mcbn.
  destruct (variableType_is_kInteger w i) eqn:Hint; cbn [negb].
  2:{ intros K. injection K as <- <-. split; [apply neighbourhood_refl|].
      split; [split; reflexivity|discriminate]. }
  destruct (colLower_ w i =? colUpper_ w i)%float eqn:Hfix.
  { intros K. injection K as <- <-. split; [apply neighbourhood_refl|].
    split; [split; reflexivity|discriminate]. }
  match goal with |- context [if ?b then _ else _] => destruct b end; mcbn.
  - match goal with |- context [if infeasible ?x then _ else _] =>
      destruct (infeasible x) eqn:Hi1 end; mcbn.
    + intros K. injection K as <- <-. split; [|split].
      * eapply (@neighbourhood_step _ _ kLower i); [|reflexivity].
        apply min_not_above.
      * intros [K|K]; discriminate.
      * intros _. exact Hi1.
    + match goal with |- context [if Dbl.gtb ?a ?b then _ else _] =>
        destruct (Dbl.gtb a b) end; mcbn.
      * match goal with |- context [if infeasible ?x then _ else _] =>
          destruct (infeasible x) eqn:Hi2 end; mcbn;
          intros K; injection K as <- <-;
          (split; [|split; [intros [K|K]; discriminate|]]);
          try discriminate; try (intros _; exact Hi2).
        all: eapply neighbourhood_trans;
          [ eapply (@neighbourhood_step _ _ kLower i); [|reflexivity];
            apply min_not_above
          | eapply (@neighbourhood_step _ _ kUpper i); [|reflexivity];
            apply max_not_below ].
      * intros K. injection K as <- <-. split; [|split].
        -- eapply (@neighbourhood_step _ _ kLower i); [|reflexivity].
           apply min_not_above.
        -- intros [K|K]; discriminate.
        -- discriminate.
  - match goal with |- context [if Dbl.gtb ?a ?b then _ else _] =>
      destruct (Dbl.gtb a b) end; mcbn.
    + match goal with |- context [if infeasible ?x then _ else _] =>
        destruct (infeasible x) eqn:Hi2 end; mcbn;
        intros K; injection K as <- <-;
        (split; [|split; [intros [K|K]; discriminate|]]);
        try discriminate; try (intros _; exact Hi2).
      all: eapply (@neighbourhood_step _ _ kUpper i); [|reflexivity];
        apply max_not_below.
    + intros K. injection K as <- <-. split; [apply neighbourhood_refl|].
      split; [intros [K|K]; discriminate|discriminate].
Qed.

Lemma rins_loop_spec basesol relaxsol fuel :
  forall i s s',
    rins_loop chg fuel basesol relaxsol i s = Some (tt, s') ->
    neighbourhood_of chg s s' /\
    (i <= numCol (world s) ->
     (forall j, i <= j < numCol (world s) -> skipped_column (world s) j) ->
     s' = s).
Proof.
  induction fuel as [|fuel IH]; intros i s s' E; cbn [rins_loop] in E;
    apply bind_inv in E; destruct E as [n [s0 [E0 E]]];
    unfold obs in E0; injection E0 as <- <-;
    destruct (i =? numCol (world s)) eqn:Ei.
  - injection E as <-. split; [apply neighbourhood_refl|reflexivity].
  - discriminate.
  - injection E as <-. split; [apply neighbourhood_refl|reflexivity].
  - apply bind_inv in E. destruct E as [u [s1 [E1 E]]].
    destruct (rins_column_spec _ _ _ _ E1) as [N1 S1].
    destruct (IH _ _ _ E) as [N2 S2].
    split; [exact (neighbourhood_trans N1 N2)|].
    intros Hi Hall. apply Z.eqb_neq in Ei.
    assert (s1 = s) by (apply S1; apply Hall; lia). subst s1.
    apply S2; [lia|]. intros j Hj. apply Hall. lia.
Qed.

Lemma rens_loop_spec lpsol fuel :
  forall i s s',
    rens_loop chg fuel lpsol i s = Some (tt, s') ->
    neighbourhood_of chg s s' /\
    (i <= numCol (world s) ->
     (forall j, i <= j < numCol (world s) -> skipped_column (world s) j) ->
     s' = s).
Proof.
  induction fuel as [|fuel IH]; intros i s s' E; cbn [rens_loop] in E;
    apply bind_inv in E; destruct E as [n [s0 [E0 E]]];
    unfold obs in E0; injection E0 as <- <-;
    destruct (i =? numCol (world s)) eqn:Ei.
  - injection E as <-. split; [apply neighbourhood_refl|reflexivity].
  - discriminate.
  - injection E as <-. split; [apply neighbourhood_refl|reflexivity].
  - apply bind_inv in E. destruct E as [r [s1 [E1 E]]].
    destruct (rens_column_spec _ _ _ E1) as [N1 [S1 _]].
    apply Z.eqb_neq in Ei. destruct r as [[]|[]].
    + injection E as <-. split; [exact N1|].
      intros Hi Hall. apply S1. apply Hall. lia.
    + destruct (IH _ _ _ E) as [N2 S2].
      split; [exact (neighbourhood_trans N1 N2)|].
      intros Hi Hall.
      assert (s1 = s) by (apply S1; apply Hall; lia). subst s1.
      apply S2; [lia|]. intros j Hj. apply Hall. lia.
Qed.

(** [setRINSNeighbourhood] changes nothing but the local domain, and every
    bound it asks for stays within the bounds of the column: an invariant of
    the world that such bound changes keep holds when the function returns.
    When every column is continuous or fixed, the search is left as it
    is. *)
Theorem setRINSNeighbourhood_within_bounds :
  forall (fuel : nat) (basesol relaxsol : list double) (s s' : HighsSearch),
    setRINSNeighbourhood chg fuel basesol relaxsol s = Some (tt, s') ->
    (exists w', s' = set_world w' s) /\
    (forall Inv : World -> Prop,
       kept_within_bounds chg Inv -> Inv (world s) -> Inv (world s')) /\
    (0 <= numCol (world s) ->
     (forall j, 0 <= j < numCol (world s) -> skipped_column (world s) j) ->
     s' = s).
Proof.
  intros fuel basesol relaxsol s s' E.
  destruct (@rins_loop_spec basesol relaxsol fuel 0 s s' E) as [[Hw Hi] Hs].
  split; [exact Hw|]. split; [exact Hi|exact Hs].
Qed.

(** [setRENSNeighbourhood] changes nothing but the local domain, and every
    bound it asks for stays within the bounds of the column.  When every
    column is continuous or fixed, the search is left as it is. *)
Theorem setRENSNeighbourhood_within_bounds :
  forall (fuel : nat) (lpsol : list double) (s s' : HighsSearch),
    setRENSNeighbourhood chg fuel lpsol s = Some (tt, s') ->
    (exists w', s' = set_world w' s) /\
    (forall Inv : World -> Prop,
       kept_within_bounds chg Inv -> Inv (world s) -> Inv (world s')) /\
    (0 <= numCol (world s) ->
     (forall j, 0 <= j < numCol (world s) -> skipped_column (world s) j) ->
     s' = s).
Proof.
  intros fuel lpsol s s' E.
  destruct (@rens_loop_spec lpsol fuel 0 s s' E) as [[Hw Hi] Hs].
  split; [exact Hw|]. split; [exact Hi|exact Hs].
Qed.

End NeighbourhoodProofs.

Lemma setRENSNeighbourhood_within_bounds_witness :
  exists s',
    @setRENSNeighbourhood Columns.env Columns.change 2 [0.25; 1]%float
      Columns.search = Some (tt, s') /\
    getDomainChangeStack (world s') = [mkDomChg 1%float 1 kLower] /\
    exists w', s' = set_world w' Columns.search.
Proof.
  destruct (@setRENSNeighbourhood Columns.env Columns.change 2
              [0.25; 1]%float Columns.search) as [[[] s']|] eqn:E;
    [|vm_compute in E; discriminate].
  exists s'. split; [reflexivity|]. split.
  - vm_compute in E. injection E as <-. reflexivity.
  - apply (@setRENSNeighbourhood_within_bounds Columns.env Columns.change 2
             [0.25; 1]%float Columns.search s' E).
Defined.

Lemma setRINSNeighbourhood_within_bounds_witness :
  exists s',
    @setRINSNeighbourhood Columns.env Columns.change 2 [0.75; 0.25]%float
      [1; 0.5]%float Columns.search = Some (tt, s') /\
    getDomainChangeStack (world s') = [mkDomChg 1%float 0 kLower] /\
    exists w', s' = set_world w' Columns.search.
Proof.
  destruct (@setRINSNeighbourhood Columns.env Columns.change 2
              [0.75; 0.25]%float [1; 0.5]%float Columns.search)
    as [[[] s']|] eqn:E; [|vm_compute in E; discriminate].
  exists s'. split; [reflexivity|]. split.
  - vm_compute in E. injection E as <-. reflexivity.
  - apply (@setRINSNeighbourhood_within_bounds Columns.env Columns.change 2
             [0.75; 0.25]%float [1; 0.5]%float Columns.search s' E).
Defined.

(* ================================================================= *)
(** ** The frame that backtracking flips *)

Section Descent.

Context {C : Collaborators}.

Lemma unwound_refl stk : unwound stk stk.
Proof.
  destruct stk as [|t rest]; [exact I|].
  exists [], t. split; [reflexivity|left; reflexivity].
Qed.

Lemma unwound_pop stk0 t p below :
  unwound stk0 (t :: p :: below) -> unwound stk0 (p :: below).
Proof.
  intros [pre [n [E _]]]. exists (pre ++ [n]), p.
  split; [rewrite <- app_assoc; exact E|left; reflexivity].
Qed.

Lemma unwound_close stk0 t t' rest :
  opensubtrees t' = 0 -> unwound stk0 (t :: rest) -> unwound stk0 (t' :: rest).
Proof.
  intros Ho [pre [n [E _]]]. exists pre, n. split; [exact E|right; exact Ho].
Qed.

Lemma unwind_body_unwound stk0 s r s' :
  unwound stk0 (nodestack s) ->
  unwind_body s = Some (r, s') ->
  unwound stk0 (nodestack s').
Proof.
  intros H E. destruct (nodestack s) as [|n rest] eqn:Hs.
  - unfold unwind_body, bind, back in E. rewrite Hs in E. discriminate.
  - destruct (unwind_body_stack s Hs E) as [_ K].
    destruct rest as [|p below]; [rewrite K; exact I|].
    pose proof (unwound_pop H) as Hp.
    destruct K as [->|[_ ->]]; [exact Hp|].
    exact (@unwound_close stk0 p _ below (opensubtrees_set 0 p) Hp).
Qed.

Lemma unwind_unwound stk0 fuel :
  forall s r s',
    unwound stk0 (nodestack s) ->
    unwind fuel s = Some (r, s') ->
    unwound stk0 (nodestack s').
Proof.
  induction fuel as [|fuel IH]; intros s r s' H E; cbn [unwind] in E;
    apply bind_inv in E; destruct E as [n [s1 [E1 E]]];
    unfold back in E1;
    (destruct (nodestack s) as [|n0 rest] eqn:Hs; [discriminate|]);
    injection E1 as <- <-; destruct (opensubtrees n0 =? 0).
  - discriminate.
  - injection E as _ <-. rewrite Hs. exact H.
  - apply bind_inv in E. destruct E as [r1 [s2 [E2 E]]].
    assert (H2 : unwound stk0 (nodestack s2)).
    { apply (@unwind_body_unwound stk0 s r1 s2); [rewrite Hs; exact H|exact E2]. }
    destruct r1 as [b|u].
    + injection E as _ <-. exact H2.
    + exact (IH _ _ _ H2 E).
  - injection E as _ <-. rewrite Hs. exact H.
Qed.

Lemma flipped_bounds (n : NodeData) :
  lower_bound (flipped n) = lower_bound n /\ estimate (flipped n) = estimate n.
Proof.
  destruct n as [? ? ? ? ? ? [? ? bt] ? ? ?].
  unfold flipped, flip_branchingdecision. cbn.
  destruct bt; match goal with |- context [if ?b then _ else _] =>
    destruct b end; split; reflexivity.
Qed.

Lemma backtrack_flip_leaves s b s' :
  backtrack_flip s = Some (b, s') -> flip_leaves s b s'.
Proof.
  intros E n rest Hs.
  destruct (backtrack_flip_shape s Hs) as [pass [p [w1 [_ [_ E']]]]].
  rewrite E' in E.
  destruct s as [stk dof nn tw lpi hlpi sbi ul inh inb csr srs iv w].
  destruct p; injection E as <- <-; [reflexivity|].
  eexists. split; [reflexivity|]. split; [reflexivity|].
  exact (flipped_bounds n).
Qed.

Lemma backtrackPlunge_flip_leaves s b s' :
  backtrackPlunge_flip s = Some (b, s') -> flip_leaves s b s'.
Proof.
  intros E n rest Hs.
  destruct (backtrackPlunge_flip_shape s Hs) as [pass [p [w1 [_ [_ E']]]]].
  rewrite E' in E.
  destruct s as [stk dof nn tw lpi hlpi sbi ul inh inb csr srs iv w].
  destruct p; [|destruct (ancestor_loop _ _ _)];
    injection E as <- <-; try reflexivity.
  eexists. split; [reflexivity|]. split; [reflexivity|].
  exact (flipped_bounds n).
Qed.

Section FlipLoopDescent.

Variable flip : M bool.

Hypothesis flip_spec :
  forall s b s', flip s = Some (b, s') -> flip_leaves s b s'.

Lemma flip_loop_flipped_in stk0 fuel :
  forall s b s',
    unwound stk0 (nodestack s) ->
    flip_loop flip fuel s = Some (b, s') ->
    if b then flipped_in stk0 (nodestack s') else nodestack s' = [].
Proof.
  induction fuel as [|fuel IH]; intros s b s' H E; [discriminate|].
  cbn [flip_loop] in E.
  apply bind_inv in E. destruct E as [size [s0 [E0 E]]].
  unfold nodestack_size, member in E0. injection E0 as <- <-.
  apply bind_inv in E. destruct E as [r [s1 [E1 E]]].
  pose proof (@unwind_unwound stk0 _ s r s1 H E1) as H1.
  destruct (@unwind_open _ _ s r s1 E1) as [_ Htop].
  assert (Hne : nodestack s <> []).
  { intros Hs. rewrite Hs in E1. cbn in E1. unfold bind, back in E1.
    rewrite Hs in E1. discriminate. }
  destruct (@unwind_total _ (length (nodestack s)) s Hne (le_n _))
    as [r' [s2 [E2 [_ [_ K]]]]].
  rewrite E1 in E2. injection E2 as <- <-.
  destruct K as [[-> Hs1]|[-> _]].
  - injection E as <- <-. exact Hs1.
  - destruct (Htop eq_refl) as [n [rest [Hs1 Ho]]].
    apply bind_inv in E. destruct E as [pushed [s3 [E3 E]]].
    pose proof (@flip_spec s1 pushed s3 E3 n rest Hs1) as F.
    rewrite Hs1 in H1. destruct H1 as [pre [n1 [Hstk Hn]]].
    destruct Hn as [->|Hn]; [|contradiction].
    destruct pushed.
    + injection E as <- <-. destruct F as [child [Hs3 [Hc [Hl He]]]].
      exists pre, n1, rest, child. repeat split; assumption.
    + apply (IH s3 b s'); [|exact E]. rewrite F.
      exists pre, n1. split; [exact Hstk|right; apply flipped_closed].
Qed.

End FlipLoopDescent.

Lemma backtrack_flipped_in (rb : bool) s b s' :
  backtrack rb s = Some (b, s') ->
  if b then flipped_in (nodestack s) (nodestack s') else nodestack s' = [].
Proof.
  intros E. unfold backtrack in E.
  apply bind_inv in E. destruct E as [e [s0 [E0 E]]].
  unfold nodestack_empty, member in E0. injection E0 as <- <-.
  destruct (nodestack s) as [|n rest] eqn:Hs.
  { injection E as <- <-. exact Hs. }
  apply bind_inv in E. destruct E as [size [s0 [E0 E]]].
  unfold nodestack_size, member in E0. injection E0 as <- <-.
  apply bind_inv in E. destruct E as [r [s1 [E1 E]]].
  rewrite backtrack_loop_flip_loop in E1.
  pose proof (@flip_loop_flipped_in _ backtrack_flip_leaves (nodestack s)
                (S (length (nodestack s))) s r s1 (unwound_refl _) E1) as K.
  rewrite Hs in K.
  destruct r.
  - apply bind_inv in E. destruct E as [n1 [s2 [E2 E]]].
    unfold back in E2. destruct (nodestack s1) eqn:Hs1; [discriminate|].
    injection E2 as <- <-.
    apply bind_inv in E. destruct E as [u [s3 [E3 E]]].
    injection E as <- <-.
    assert (H3 : nodestack s3 = nodestack s1).
    { unfold when in E3. destruct (_ && _).
      - unfold bind, call in E3. injection E3 as _ <-.
        destruct s1; reflexivity.
      - injection E3 as _ <-. reflexivity. }
    rewrite H3, Hs1. exact K.
  - injection E as <- <-. exact K.
Qed.

Lemma backtrackPlunge_flipped_in s b s' :
  backtrackPlunge s = Some (b, s') ->
  if b then flipped_in (nodestack s) (nodestack s') else nodestack s' = [].
Proof.
  intros E. unfold backtrackPlunge in E.
  apply bind_inv in E. destruct E as [e [s0 [E0 E]]].
  unfold nodestack_empty, member in E0. injection E0 as <- <-.
  destruct (nodestack s) as [|n rest] eqn:Hs.
  { injection E as <- <-. exact Hs. }
  apply bind_inv in E. destruct E as [size [s0 [E0 E]]].
  unfold nodestack_size, member in E0. injection E0 as <- <-.
  apply bind_inv in E. destruct E as [r [s1 [E1 E]]].
  rewrite backtrackPlunge_loop_flip_loop in E1.
  pose proof (@flip_loop_flipped_in _ backtrackPlunge_flip_leaves
                (nodestack s) (S (length (nodestack s))) s r s1
                (unwound_refl _) E1) as K.
  rewrite Hs in K.
  destruct r.
  - apply bind_inv in E. destruct E as [n1 [s2 [E2 E]]].
    unfold back in E2. destruct (nodestack s1) eqn:Hs1; [discriminate|].
    injection E2 as <- <-.
    apply bind_inv in E. destruct E as [u [s3 [E3 E]]].
    injection E as <- <-.
    assert (H3 : nodestack s3 = nodestack s1).
    { unfold when in E3. destruct (is_some _).
      - unfold bind, call in E3. injection E3 as _ <-.
        destruct s1; reflexivity.
      - injection E3 as _ <-. reflexivity. }
    rewrite H3, Hs1. exact K.
  - injection E as <- <-. exact K.
Qed.

(** [backtrack] and [backtrackPlunge] flip a frame of the stack they are
    called on: when they return [true], the stack consists of the new
    child, with the lower bound and the estimate of its parent, the flipped
    frame, which was a frame of the stack that was not closed, and the
    frames that were below that frame, unchanged; when they return [false]
    the stack is empty. *)
Theorem backtrack_flips_a_frame_of_the_stack :
  forall (recoverBasis_ : bool) (s : HighsSearch),
    (exists b s',
       backtrack recoverBasis_ s = Some (b, s') /\
       if b then flipped_in (nodestack s) (nodestack s')
       else nodestack s' = []) /\
    (exists b s',
       backtrackPlunge s = Some (b, s') /\
       if b then flipped_in (nodestack s) (nodestack s')
       else nodestack s' = []).
Proof.
  intros rb s. split.
  - destruct (backtrack_spec rb s) as [b [s' [E _]]]. exists b, s'.
    split; [exact E|exact (@backtrack_flipped_in rb s b s' E)].
  - destruct (backtrackPlunge_spec s) as [b [s' [E _]]]. exists b, s'.
    split; [exact E|exact (@backtrackPlunge_flipped_in s b s' E)].
Qed.

End Descent.

(* ================================================================= *)
(** ** The child that [branch] pushes *)

Section BranchedChild.

Context {C : Collaborators}.

Lemma branch_branched fuel s s' :
  unbranched s ->
  branch fuel s = Some (kBranched, s') ->
  branched_on s'.
Proof.
  intros Hu E. pose proof (@branch_spec _ fuel s kBranched s' Hu E) as Hspec.
  unfold branch in E.
  do 6 (apply bind_inv in E; destruct E as [? [? [_ E]]]).
  apply bind_inv in E. destruct E as [u7 [s7 [_ E]]].
  apply bind_inv in E. destruct E as [currnode [s8 [E8 E]]].
  unfold back in E8. destruct (nodestack s7) as [|n rest] eqn:Hs7;
    [discriminate|].
  injection E8 as <- <-.
  destruct (negb (opensubtrees n =? 2)) eqn:Eo.
  - unfold ret in E. injection E as _ <-.
    destruct Hspec as [[_ [n' [rest' [Hn' Ho']]]]|[K|[K|K]]]; try discriminate.
    rewrite Hs7 in Hn'. injection Hn' as <- <-. rewrite Ho' in Eo.
    discriminate.
  - apply bind_inv in E. destruct E as [u9 [s9 [_ E]]].
    apply bind_inv in E. destruct E as [c [s10 [E10 E]]].
    unfold back in E10. destruct (nodestack s9) as [|n9 rest9] eqn:Hs9;
      [discriminate|].
    injection E10 as <- <-.
    destruct (column (branchingdecision n9) =? -1) eqn:Ec.
    + destruct (@returns_lp_ladder _ fuel s9 kBranched s' E) as [K|[K|K]];
        discriminate.
    + destruct (branch_open_child_shape s9 Hs9) as [pass [_ E']].
      rewrite E' in E. injection E as <-.
      exists (child_at (world s9) (set_opensubtrees 1 n9) pass),
        (set_opensubtrees 1 n9), rest9, (world s9).
      apply Z.eqb_neq in Ec.
      destruct s9 as [stk dof nn tw lpi hlpi sbi ul inh inb csr srs iv w].
      destruct n9 as [lb es bp lo nb so bd dp sk os].
      cbn in *. repeat split. exact Ec.
Qed.

(** When [branch], called on a frame with both subtrees open, returns
    [kBranched], it has pushed the child of a branching decision: the
    parent frame has one subtree left and a decision on a column (not -1),
    the child has both subtrees open and the lower bound, the estimate and
    the basis of the parent, and the last change of the domain is the
    decision. *)
Theorem branch_pushes_the_decided_child :
  forall (fuel : nat) (s s' : HighsSearch),
    unbranched s ->
    branch fuel s = Some (kBranched, s') ->
    branched_on s'.
Proof. intros fuel s s' Hu E. exact (@branch_branched fuel s s' Hu E). Qed.

End BranchedChild.

(* ================================================================= *)
(** ** The frame that [backtrack] reaches *)

Section Reached.

Context {C : Collaborators}.

Lemma unwind_body_reaches s c n rest :
  nodestack s = c :: n :: rest ->
  opensubtrees n <> 0 ->
  unwind_body s = Some (@Continue bool unit tt, reached s c n rest).
Proof.
  intros H Ho. apply Z.eqb_neq in Ho.
  unfold unwind_body, reached, repropagated, changedcols_size.
  open_search s. cbn in H. subst stk. mcbn. rewrite Ho. mcbn.
  repeat break_step; reflexivity.
Qed.


Lemma reached_open s c n rest :
  snd (repropagated n (localdom_backtrack (world s))) = false ->
  nodestack (reached s c n rest) = n :: rest /\
  depthoffset (reached s c n rest) = depthoffset s + skipDepthCount c /\
  treeweight (reached s c n rest) = treeweight s.
Proof.
  intros H. unfold reached. rewrite H. destruct s. repeat split.
Qed.

Lemma backtrack_nonempty (rb : bool) s n rest :
  nodestack s = n :: rest ->
  backtrack rb s =
  match backtrack_loop (S (S (length rest))) s with
  | Some (true, s1) =>
      (n <- back ;;
       when (rb && is_some (nodeBasis n))
         (call (setStoredBasis (nodeBasis n)) ;; call recoverBasis) ;;
       ret true) s1
  | Some (false, s1) => Some (false, s1)
  | None => None
  end.
Proof.
  intros H. unfold backtrack, nodestack_empty, nodestack_size. run.
  rewrite H. run. rewrite H. cbn [length]. unfold bind at 1.
  destruct (backtrack_loop _ s) as [[[|] s1]|]; reflexivity.
Qed.

Lemma backtrackPlunge_nonempty s n rest :
  nodestack s = n :: rest ->
  backtrackPlunge s =
  match backtrackPlunge_loop (S (S (length rest))) s with
  | Some (true, s1) =>
      (n <- back ;;
       when (is_some (nodeBasis n))
         (call (setStoredBasis (nodeBasis n)) ;; call recoverBasis) ;;
       ret true) s1
  | Some (false, s1) => Some (false, s1)
  | None => None
  end.
Proof.
  intros H. unfold backtrackPlunge, nodestack_empty, nodestack_size. run.
  rewrite H. run. rewrite H. cbn [length]. unfold bind at 1.
  destruct (backtrackPlunge_loop _ s) as [[[|] s1]|]; reflexivity.
Qed.

Lemma unwind_reaches fuel s c n rest :
  nodestack s = c :: n :: rest ->
  opensubtrees c = 0 ->
  opensubtrees n <> 0 ->
  snd (repropagated n (localdom_backtrack (world s))) = false ->
  unwind (S (S fuel)) s = Some (@Continue bool unit tt, reached s c n rest).
Proof.
  intros H Hc Hn Hr. cbn [unwind].
  erewrite bind_run by (unfold back; rewrite H; reflexivity).
  rewrite Hc. cbn [Z.eqb].
  erewrite bind_run by (exact (unwind_body_reaches s H Hn)).
  cbv beta iota.
  destruct (reached_open s c n rest Hr) as [Hs1 _].
  erewrite bind_run by (unfold back; rewrite Hs1; reflexivity).
  apply Z.eqb_neq in Hn. rewrite Hn. reflexivity.
Qed.

Lemma backtrack_loop_pass s c n rest :
  nodestack s = c :: n :: rest ->
  opensubtrees c = 0 ->
  opensubtrees n <> 0 ->
  snd (repropagated n (localdom_backtrack (world s))) = false ->
  backtrack_loop (S (S (S (length rest)))) s =
  match backtrack_flip (reached s c n rest) with
  | Some (true, s2) => Some (true, s2)
  | Some (false, s2) => backtrack_loop (S (S (length rest))) s2
  | None => None
  end.
Proof.
  intros H Hc Hn Hr. cbn [backtrack_loop]. unfold nodestack_size. run.
  rewrite H. cbn [length].
  erewrite bind_run by (exact (@unwind_reaches _ s c n rest H Hc Hn Hr)).
  cbv beta iota. unfold bind at 1.
  destruct (backtrack_flip _) as [[[|] s2]|]; reflexivity.
Qed.

Lemma backtrackPlunge_loop_pass s c n rest :
  nodestack s = c :: n :: rest ->
  opensubtrees c = 0 ->
  opensubtrees n <> 0 ->
  snd (repropagated n (localdom_backtrack (world s))) = false ->
  backtrackPlunge_loop (S (S (S (length rest)))) s =
  match backtrackPlunge_flip (reached s c n rest) with
  | Some (true, s2) => Some (true, s2)
  | Some (false, s2) => backtrackPlunge_loop (S (S (length rest))) s2
  | None => None
  end.
Proof.
  intros H Hc Hn Hr. cbn [backtrackPlunge_loop]. unfold nodestack_size. run.
  rewrite H. cbn [length].
  erewrite bind_run by (exact (@unwind_reaches _ s c n rest H Hc Hn Hr)).
  cbv beta iota. unfold bind at 1.
  destruct (backtrackPlunge_flip _) as [[[|] s2]|]; reflexivity.
Qed.


(** Unwinding a stack whose frames are all closed empties it and leaves
    the tree weight alone. *)
Lemma unwind_body_closed s c n rest :
  nodestack s = c :: n :: rest ->
  opensubtrees n = 0 ->
  exists s1,
    unwind_body s = Some (@Continue bool unit tt, s1) /\
    nodestack s1 = n :: rest /\ treeweight s1 = treeweight s.
Proof.
  intros H Ho. unfold unwind_body. open_search s. cbn in H. subst stk.
  mcbn. rewrite Ho. mcbn. eexists. split; [reflexivity|]. split; reflexivity.
Qed.

Lemma unwind_body_last s c :
  nodestack s = [c] ->
  exists s1,
    unwind_body s = Some (@Return bool unit false, s1) /\
    nodestack s1 = [] /\ treeweight s1 = treeweight s.
Proof.
  intros H. unfold unwind_body. open_search s. cbn in H. subst stk.
  mcbn. eexists. split; [reflexivity|]. split; reflexivity.
Qed.

Lemma unwind_all_closed stk :
  forall fuel s,
    nodestack s = stk ->
    stk <> [] ->
    Forall (fun p => opensubtrees p = 0) stk ->
    (length stk <= fuel)%nat ->
    exists s',
      unwind fuel s = Some (@Return bool unit false, s') /\
      nodestack s' = [] /\ treeweight s' = treeweight s.
Proof.
  induction stk as [|c stk IH]; intros fuel s Hs Hne Hall Hlen;
    [congruence|].
  destruct fuel as [|fuel]; [cbn in Hlen; lia|].
  inversion Hall as [|c0 stk0 Hc Hrest]; subst c0 stk0.
  cbn [unwind].
  erewrite bind_run by (unfold back; rewrite Hs; reflexivity).
  rewrite Hc. cbn [Z.eqb].
  destruct stk as [|n rest].
  - destruct (unwind_body_last s Hs) as [s1 [E [Hs1 Hw]]].
    run_by E. exists s1. split; [reflexivity|]. split; assumption.
  - inversion Hrest as [|n0 rest0 Hn Hrest']; subst n0 rest0.
    destruct (unwind_body_closed s Hs Hn) as [s1 [E [Hs1 Hw]]].
    run_by E.
    destruct (IH fuel s1 Hs1 ltac:(discriminate) Hrest) as [s' [E' [Hs' Hw']]].
    { cbn [length] in *. lia. }
    exists s'. split; [exact E'|]. split; [exact Hs'|]. congruence.
Qed.

Lemma backtrack_all_closed (rb : bool) s n rest :
  nodestack s = n :: rest ->
  Forall (fun p => opensubtrees p = 0) (n :: rest) ->
  exists s',
    backtrack rb s = Some (false, s') /\
    nodestack s' = [] /\ treeweight s' = treeweight s.
Proof.
  intros Hs Hall. rewrite (backtrack_nonempty rb s Hs).
  cbn [backtrack_loop]. unfold nodestack_size. run. rewrite Hs.
  destruct (@unwind_all_closed (n :: rest) (length (n :: rest)) s Hs
              ltac:(discriminate) Hall (le_n _)) as [s' [E H']].
  run_by E. unfold ret. exists s'. split; [reflexivity|exact H'].
Qed.

Lemma backtrackPlunge_all_closed s n rest :
  nodestack s = n :: rest ->
  Forall (fun p => opensubtrees p = 0) (n :: rest) ->
  exists s',
    backtrackPlunge s = Some (false, s') /\
    nodestack s' = [] /\ treeweight s' = treeweight s.
Proof.
  intros Hs Hall. rewrite (backtrackPlunge_nonempty s Hs).
  cbn [backtrackPlunge_loop]. unfold nodestack_size. run. rewrite Hs.
  destruct (@unwind_all_closed (n :: rest) (length (n :: rest)) s Hs
              ltac:(discriminate) Hall (le_n _)) as [s' [E H']].
  run_by E. unfold ret. exists s'. split; [reflexivity|exact H'].
Qed.


(** One pass of the outer loop of [backtrack] and [backtrackPlunge] from
    a closed top frame [c] over a frame [n] that is not closed and that the
    re-propagation leaves feasible. *)
Lemma backtrack_pass (rb : bool) s c n rest :
  nodestack s = c :: n :: rest ->
  opensubtrees c = 0 ->
  opensubtrees n <> 0 ->
  snd (repropagated n (localdom_backtrack (world s))) = false ->
  let s1 := reached s c n rest in
  exists pass b w1,
    orbitsValidInChildNode (branchingdecision (flipped n))
      (set_nodestack (flipped n :: rest) s1)
    = Some (pass, set_nodestack (flipped n :: rest) s1) /\
    sibling_pruned (flipped n) pass (after_flip s1 n rest)
    = Some (b, set_world w1 (after_flip s1 n rest)) /\
    (b = false ->
     exists s',
       backtrack rb s = Some (true, s') /\
       nodestack s' =
       child_at (world s1) (flipped n) pass :: flipped n :: rest /\
       treeweight s' = treeweight s /\
       depthoffset s' = depthoffset s1) /\
    (b = true ->
     exists s2,
       nodestack s2 = flipped n :: rest /\
       depthoffset s2 = depthoffset s1 /\
       treeweight s2 =
       (treeweight s + Dbl.pow_half (getCurrentDepth_of s1))%float /\
       backtrack rb s = backtrack rb s2 /\
       backtrackPlunge s = backtrackPlunge s2).
Proof.
  intros H Hc Hn Hr s1.
  destruct (reached_open s c n rest Hr) as [Hs1 [Hd1 Hw1]]. fold s1 in Hs1, Hd1, Hw1.
  destruct (backtrack_flip_shape s1 Hs1) as [pass [b [w1 [Ev [Es E]]]]].
  destruct (backtrackPlunge_flip_shape s1 Hs1)
    as [pass' [b' [w1' [Ev' [Es' E']]]]].
  rewrite Ev in Ev'. injection Ev' as <-.
  assert (Hb : b' = b /\ w1' = w1).
  { rewrite Es in Es'. destruct s1. injection Es' as Hb Hw.
    split; congruence. }
  destruct Hb as [-> ->].
  exists pass, b, w1. split; [exact Ev|]. split; [exact Es|].
  rewrite (backtrack_nonempty rb s H), (backtrackPlunge_nonempty s H).
  cbn [length].
  rewrite (backtrack_loop_pass s H Hc Hn Hr).
  rewrite (backtrackPlunge_loop_pass s H Hc Hn Hr).
  fold s1. rewrite E, E'. split.
  - intros ->. cbv iota.
    erewrite bind_run by (unfold back; reflexivity). tidy.
    destruct (rb && is_some (nodeBasis _)); unfold when.
    + eexists. split; [reflexivity|]. destruct s1. cbn in *.
      repeat split; assumption.
    + eexists. split; [reflexivity|]. destruct s1. cbn in *.
      repeat split; assumption.
  - intros ->. cbv iota.
    match type of E with _ = Some (_, ?x) => exists x end.
    split; [|split; [|split; [|split]]].
    + reflexivity.
    + destruct s1; reflexivity.
    + rewrite <- Hw1. destruct s1; reflexivity.
    + symmetry. erewrite backtrack_nonempty by reflexivity. reflexivity.
    + symmetry. erewrite backtrackPlunge_nonempty by reflexivity.
      reflexivity.
Qed.

End Reached.

(** *** The flip of the frame that is reached *)

Section FlipTheorems.

Context {C : Collaborators}.

Lemma flip_of_flipped (n : NodeData) : flip_of n (flipped n).
Proof. exact (flipped_decision n). Qed.

Lemma flipped_in_flip_of stk0 stk :
  flipped_in stk0 stk ->
  exists pre n rest child n',
    stk0 = pre ++ n :: rest /\
    opensubtrees n <> 0 /\
    stk = child :: n' :: rest /\
    flip_of n n'.
Proof.
  intros [pre [n [rest [child [H0 [Ho [H1 _]]]]]]].
  exists pre, n, rest, child, (flipped n).
  split; [exact H0|]. split; [exact Ho|]. split; [exact H1|].
  apply flipped_decision.
Qed.

(** The pruning test of the flipped sibling always answers. *)
Lemma sibling_test_total s1 n rest :
  exists pruned, sibling_test s1 n rest pruned.
Proof.
  destruct (@orbitsValidInChildNode_total _ (branchingdecision (flipped n))
              (set_nodestack (flipped n :: rest) s1) (flipped n) rest)
    as [pass Ev]; [destruct s1; reflexivity|].
  destruct (sibling_pruned_total (flipped n) pass (after_flip s1 n rest))
    as [b [w1 Es]].
  exists b, pass, w1. split; assumption.
Qed.

(** What [backtrack] does with a frame [n] that it reaches. *)
Lemma backtrack_reaches (rb : bool) s c n rest :
  nodestack s = c :: n :: rest ->
  opensubtrees c = 0 ->
  opensubtrees n = 1 ->
  snd (repropagated n (localdom_backtrack (world s))) = false ->
  exists pruned n',
    sibling_test (reached s c n rest) n rest pruned /\
    n' = flipped n /\
    (pruned = false ->
     exists s' child,
       backtrack rb s = Some (true, s') /\
       nodestack s' = child :: n' :: rest) /\
    (pruned = true ->
     exists s2,
       nodestack s2 = n' :: rest /\
       backtrack rb s = backtrack rb s2).
Proof.
  intros H Hc Hn Hr.
  assert (Hn0 : opensubtrees n <> 0) by (rewrite Hn; discriminate).
  destruct (backtrack_pass rb s H Hc Hn0 Hr)
    as [pass [b [w1 [Ev [Es [Hkeep Hprune]]]]]].
  exists b, (flipped n). split; [exists pass, w1; split; assumption|].
  split; [reflexivity|]. split.
  - intros Hb. destruct (Hkeep Hb) as [s' [E [Hs' _]]].
    exists s'. eexists. split; [exact E|exact Hs'].
  - intros Hb. destruct (Hprune Hb) as [s2 [Hs2 [_ [_ [E _]]]]].
    exists s2. split; assumption.
Qed.

Lemma branchUpwards_closed_child s n rest col v p :
  nodestack s = n :: rest ->
  exists s1 c n1,
    (branchUpwards col v p ;; cutoffNode) s = Some (tt, s1) /\
    nodestack s1 = c :: n1 :: rest /\
    opensubtrees c = 0 /\
    opensubtrees n1 = 1 /\
    branchingdecision n1 = mkDomChg v col kLower /\
    branchingdecision (flipped n1) =
    mkDomChg (Dbl.floor (v - 0.5)%float) col kUpper.
Proof.
  intros H. destruct (branchUpwards_shape s col v p H) as [pass [_ E]].
  run_by E. unfold cutoffNode, modify_back. tidy.
  eexists _, _, _. split; [reflexivity|]. tidy. split; [reflexivity|].
  destruct n as [lb es bp lo nb so [v0 c0 t] pos sk os]. cbn.
  repeat split. unfold flipped, flip_branchingdecision. cbn.
  destruct (v =? p)%float; reflexivity.
Qed.

Lemma branchDownwards_closed_child s n rest col v p :
  nodestack s = n :: rest ->
  exists s1 c n1,
    (branchDownwards col v p ;; cutoffNode) s = Some (tt, s1) /\
    nodestack s1 = c :: n1 :: rest /\
    opensubtrees c = 0 /\
    opensubtrees n1 = 1 /\
    branchingdecision n1 = mkDomChg v col kUpper /\
    branchingdecision (flipped n1) =
    mkDomChg (Dbl.ceil (v + 0.5)%float) col kLower.
Proof.
  intros H. destruct (branchDownwards_shape s col v p H) as [pass [_ E]].
  run_by E. unfold cutoffNode, modify_back. tidy.
  eexists _, _, _. split; [reflexivity|]. tidy. split; [reflexivity|].
  destruct n as [lb es bp lo nb so [v0 c0 t] pos sk os]. cbn.
  repeat split. unfold flipped, flip_branchingdecision. cbn.
  destruct (v =? p)%float; reflexivity.
Qed.

(** C1.  [backtrack] flips the branching decision of the frame it
    reaches.  Let [backtrack] be called with a closed frame [c] on top of a
    frame [n] with one open subtree, and let the re-propagation leave the
    domain feasible, so that [n] is the frame the function reaches.  Then
    the frame is closed and its decision flipped: the same column, the
    upper bound [floor(v - 0.5)] for a lower-bound branch with bound [v],
    the lower bound [ceil(v + 0.5)] for an upper-bound branch, and the
    flipped bound as branching point when [v] was the branching point (a
    fallback branch).  When the sibling is not pruned, [backtrack] returns
    [true] with the flipped frame under the new child; when it is pruned,
    [backtrack] goes on as it does from the stack with the flipped frame on
    top.  Whatever the stack, a [backtrack] that returns [true] has flipped
    in this way a frame of the stack that was not closed, and has left it
    under the new child.  And a [backtrack] that follows
    [branchUpwards(col, v, p)], once the child is closed ([cutoffNode]), and
    descends into the sibling leaves the upper bound [floor(v - 0.5)] on
    [col] in the frame; after [branchDownwards(col, v, p)] it leaves the
    lower bound [ceil(v + 0.5)]. *)
Theorem backtrack_flips_branching_decision :
  (forall (recoverBasis_ : bool) (s : HighsSearch) (c n : NodeData)
          (rest : list NodeData),
     nodestack s = c :: n :: rest ->
     opensubtrees c = 0 ->
     opensubtrees n = 1 ->
     snd (repropagated n (localdom_backtrack (world s))) = false ->
     exists pruned n',
       sibling_test (reached s c n rest) n rest pruned /\
       flip_of n n' /\
       (pruned = false ->
        exists s' child,
          backtrack recoverBasis_ s = Some (true, s') /\
          nodestack s' = child :: n' :: rest) /\
       (pruned = true ->
        exists s2,
          nodestack s2 = n' :: rest /\
          backtrack recoverBasis_ s = backtrack recoverBasis_ s2)) /\
  (forall (recoverBasis_ : bool) (s s' : HighsSearch),
     backtrack recoverBasis_ s = Some (true, s') ->
     exists pre n rest child n',
       nodestack s = pre ++ n :: rest /\
       opensubtrees n <> 0 /\
       nodestack s' = child :: n' :: rest /\
       flip_of n n') /\
  (forall (recoverBasis_ : bool) (s0 : HighsSearch) (n0 : NodeData)
          (rest : list NodeData) (col : HighsInt) (v p : double),
     nodestack s0 = n0 :: rest ->
     exists s c n,
       (branchUpwards col v p ;; cutoffNode) s0 = Some (tt, s) /\
       nodestack s = c :: n :: rest /\
       branchingdecision n = mkDomChg v col kLower /\
       (snd (repropagated n (localdom_backtrack (world s))) = false ->
        sibling_test (reached s c n rest) n rest false ->
        exists s' child n',
          backtrack recoverBasis_ s = Some (true, s') /\
          nodestack s' = child :: n' :: rest /\
          branchingdecision n' =
          mkDomChg (Dbl.floor (v - 0.5)%float) col kUpper)) /\
  (forall (recoverBasis_ : bool) (s0 : HighsSearch) (n0 : NodeData)
          (rest : list NodeData) (col : HighsInt) (v p : double),
     nodestack s0 = n0 :: rest ->
     exists s c n,
       (branchDownwards col v p ;; cutoffNode) s0 = Some (tt, s) /\
       nodestack s = c :: n :: rest /\
       branchingdecision n = mkDomChg v col kUpper /\
       (snd (repropagated n (localdom_backtrack (world s))) = false ->
        sibling_test (reached s c n rest) n rest false ->
        exists s' child n',
          backtrack recoverBasis_ s = Some (true, s') /\
          nodestack s' = child :: n' :: rest /\
          branchingdecision n' =
          mkDomChg (Dbl.ceil (v + 0.5)%float) col kLower)).
Proof.
  split; [|split; [|split]].
  - intros rb s c n rest H Hc Hn Hr.
    destruct (backtrack_reaches rb s H Hc Hn Hr)
      as [pruned [n' [Ht [-> [Hk Hp]]]]].
    exists pruned, (flipped n). split; [exact Ht|].
    split; [apply flip_of_flipped|]. split; assumption.
  - intros rb s s' E.
    exact (flipped_in_flip_of (@backtrack_flipped_in _ rb s true s' E)).
  - intros rb s0 n0 rest col v p H.
    destruct (branchUpwards_closed_child s0 col v p H)
      as [s [c [n [E [Hs [Hc [Hn [Hd Hf]]]]]]]].
    exists s, c, n. split; [exact E|]. split; [exact Hs|].
    split; [exact Hd|]. intros Hr Ht.
    destruct (backtrack_reaches rb s Hs Hc Hn Hr)
      as [pruned [n' [Ht' [-> [Hk _]]]]].
    assert (Hb : pruned = false).
    { destruct Ht as [pass [w1 [Ev Es]]], Ht' as [pass' [w1' [Ev' Es']]].
      rewrite Ev in Ev'. injection Ev' as <-. rewrite Es in Es'.
      injection Es' as Hb _. symmetry. exact Hb. }
    destruct (Hk Hb) as [s' [child [Eb Hs']]].
    exists s', child, (flipped n). repeat split; assumption.
  - intros rb s0 n0 rest col v p H.
    destruct (branchDownwards_closed_child s0 col v p H)
      as [s [c [n [E [Hs [Hc [Hn [Hd Hf]]]]]]]].
    exists s, c, n. split; [exact E|]. split; [exact Hs|].
    split; [exact Hd|]. intros Hr Ht.
    destruct (backtrack_reaches rb s Hs Hc Hn Hr)
      as [pruned [n' [Ht' [-> [Hk _]]]]].
    assert (Hb : pruned = false).
    { destruct Ht as [pass [w1 [Ev Es]]], Ht' as [pass' [w1' [Ev' Es']]].
      rewrite Ev in Ev'. injection Ev' as <-. rewrite Es in Es'.
      injection Es' as Hb _. symmetry. exact Hb. }
    destruct (Hk Hb) as [s' [child [Eb Hs']]].
    exists s', child, (flipped n). repeat split; assumption.
Qed.

End FlipTheorems.

(** *** The weight of a pruned sibling *)

Section WeightTheorems.

Context {C : Collaborators}.

Lemma reached_depth s c n rest :
  nodestack s = c :: n :: rest ->
  snd (repropagated n (localdom_backtrack (world s))) = false ->
  logical_depth (reached s c n rest) =
  logical_depth s - 1 + skipDepthCount c.
Proof.
  intros H Hr. destruct (reached_open s c n rest Hr) as [Hs1 [Hd1 _]].
  unfold logical_depth. rewrite Hs1, Hd1, H. cbn [length]. lia.
Qed.

(** C7.  A subtree that is pruned adds its weight to [treeweight]:
    - when [evaluateNode] returns a result other than [kOpen], the current
      frame is closed ([opensubtrees = 0]) and [treeweight] has grown by
      [pow(0.5, d)] for the logical depth [d = getCurrentDepth() - 1] of
      that frame, whatever the number of re-evaluations;
    - when [backtrack] or [backtrackPlunge], called with a closed frame [c]
      on top of a frame [n] with one open subtree that the re-propagation
      leaves feasible, finds the flipped sibling of [n] pruned (its bound
      exceeds the cutoff, or the domain is infeasible after the bound
      change, the propagation or the orbital fixing), the function goes on
      as it does from a search with the closed, flipped frame on top, at
      the logical depth [d] of [n], whose [treeweight] has grown by
      [pow(0.5, d + 1)], the sibling being one level below the frame; when
      every frame below is closed, both functions return [false] with
      exactly that weight added.  With a sibling that is not pruned,
      [backtrack] returns with the [treeweight] it was called with;
    - [flushStatistics] adds [treeweight] to the global
      [pruned_treeweight] and sets it to 0. *)
Theorem pruned_subtree_counts_tree_weight :
  (forall fuel s r s',
     evaluateNode fuel s = Some (r, s') ->
     r <> kOpen ->
     treeweight s' =
     (treeweight s + Dbl.pow_half (logical_depth s))%float /\
     logical_depth s' = logical_depth s /\
     exists n rest, nodestack s' = n :: rest /\ opensubtrees n = 0) /\
  (forall (recoverBasis_ : bool) (s : HighsSearch) (c n : NodeData)
          (rest : list NodeData),
     nodestack s = c :: n :: rest ->
     opensubtrees c = 0 ->
     opensubtrees n = 1 ->
     snd (repropagated n (localdom_backtrack (world s))) = false ->
     exists pruned d,
       sibling_test (reached s c n rest) n rest pruned /\
       d = logical_depth s - 1 + skipDepthCount c /\
       logical_depth (reached s c n rest) = d /\
       (pruned = true ->
        exists s2 n',
          nodestack s2 = n' :: rest /\
          opensubtrees n' = 0 /\
          logical_depth s2 = d /\
          treeweight s2 = (treeweight s + Dbl.pow_half (d + 1))%float /\
          backtrack recoverBasis_ s = backtrack recoverBasis_ s2 /\
          backtrackPlunge s = backtrackPlunge s2 /\
          (Forall (fun a => opensubtrees a = 0) rest ->
           exists s' s'',
             backtrack recoverBasis_ s = Some (false, s') /\
             treeweight s' =
             (treeweight s + Dbl.pow_half (d + 1))%float /\
             backtrackPlunge s = Some (false, s'') /\
             treeweight s'' =
             (treeweight s + Dbl.pow_half (d + 1))%float)) /\
       (pruned = false ->
        exists s',
          backtrack recoverBasis_ s = Some (true, s') /\
          treeweight s' = treeweight s)) /\
  (forall s,
     exists s',
       flushStatistics s = Some (tt, s') /\
       pruned_treeweight (world s') =
       (pruned_treeweight (world s) + treeweight s)%float /\
       treeweight s' = 0%float).
Proof.
  split; [|split].
  - intros fuel s r s' H R.
    destruct (evaluateNode_spec _ _ H) as [_ K].
    destruct (K R) as [Hw [Hd Hn]].
    rewrite <- !depth_of_frame, Hd, Hw. repeat split. exact Hn.
  - intros rb s c n rest H Hc Hn Hr.
    assert (Hn0 : opensubtrees n <> 0) by (rewrite Hn; discriminate).
    destruct (backtrack_pass rb s H Hc Hn0 Hr)
      as [pass [b [w1 [Ev [Es [Hkeep Hprune]]]]]].
    pose proof (reached_depth s H Hr) as Hd.
    exists b, (logical_depth s - 1 + skipDepthCount c).
    split; [exists pass, w1; split; assumption|].
    split; [reflexivity|]. split; [exact Hd|]. split.
    + intros Hb.
      destruct (Hprune Hb) as [s2 [Hs2 [Hd2 [Hw2 [Eb Ep]]]]].
      destruct (flipped_decision n) as [_ [_ [_ [_ Ho]]]].
      assert (Hl2 : logical_depth s2 = logical_depth s - 1 + skipDepthCount c).
      { rewrite <- Hd. destruct (reached_open s c n rest Hr) as [Hs1 _].
        unfold logical_depth. rewrite Hs2, Hd2, Hs1. reflexivity. }
      assert (Hw : treeweight s2 =
                   (treeweight s +
                    Dbl.pow_half (logical_depth s - 1 + skipDepthCount c + 1))%float).
      { rewrite Hw2, <- Hd, <- depth_of_child. reflexivity. }
      exists s2, (flipped n). split; [exact Hs2|]. split; [exact Ho|].
      split; [exact Hl2|]. split; [exact Hw|]. split; [exact Eb|].
      split; [exact Ep|]. intros Hall.
      assert (Hall2 : Forall (fun a => opensubtrees a = 0) (flipped n :: rest))
        by (constructor; assumption).
      destruct (backtrack_all_closed rb s2 Hs2 Hall2) as [s' [E' [_ Hw']]].
      destruct (backtrackPlunge_all_closed s2 Hs2 Hall2) as [s'' [E'' [_ Hw'']]].
      exists s', s''. rewrite Eb, Ep, Hw', Hw'', Hw. repeat split; assumption.
    + intros Hb. destruct (Hkeep Hb) as [s' [E [_ [Hw _]]]].
      exists s'. split; assumption.
  - intros s. destruct (flushStatistics_spec s) as [s' [E [Hp [Hw _]]]].
    exists s'. repeat split; assumption.
Qed.

End WeightTheorems.

(** [Examples.returning_search]: the closed leaf is popped, the frame that
    branched upwards to the bound 1 on column 3 is flipped to the upper
    bound 0, and [backtrack] returns with that frame under a new child.  On
    [Examples.branching_search], a branch upwards to 1 on column 0 whose
    child is cut off is flipped to the upper bound 0, and a branch
    downwards to 0 to the lower bound 1. *)
Lemma backtrack_flips_branching_decision_witness :
  (nodestack Examples.returning_search =
   [Examples.closed_leaf; Examples.up_frame] /\
   exists s' child n',
     @backtrack Toy.env false Examples.returning_search = Some (true, s') /\
     nodestack s' = [child; n'] /\
     branchingdecision n' = mkDomChg 0%float 3 kUpper) /\
  (exists s s' child n',
     (@branchUpwards Toy.env 0 1%float 0.5%float ;; cutoffNode)
       Examples.branching_search = Some (tt, s) /\
     @backtrack Toy.env false s = Some (true, s') /\
     nodestack s' = [child; n'] /\
     branchingdecision n' = mkDomChg 0%float 0 kUpper) /\
  (exists s s' child n',
     (@branchDownwards Toy.env 0 0%float 0.5%float ;; cutoffNode)
       Examples.branching_search = Some (tt, s) /\
     @backtrack Toy.env false s = Some (true, s') /\
     nodestack s' = [child; n'] /\
     branchingdecision n' = mkDomChg 1%float 0 kLower).
Proof.
  destruct (@backtrack_flips_branching_decision Toy.env)
    as [Hb [_ [Hup Hdown]]].
  split; [|split].
  - split; [reflexivity|].
    destruct (Hb false Examples.returning_search _ _ [] eq_refl eq_refl
                eq_refl eq_refl)
      as [pruned [n' [[pass [w1 [Ev Es]]] [Hf [Hk _]]]]].
    vm_compute in Ev. injection Ev as <-.
    vm_compute in Es. injection Es as <- _.
    destruct (Hk eq_refl) as [s' [child [E Hs']]].
    exists s', child, n'. split; [exact E|]. split; [exact Hs'|].
    destruct Hf as [Hc [Hl _]]. destruct (Hl eq_refl) as [Ht Hv].
    destruct (branchingdecision n') as [bv c t].
    cbn [boundval column boundtype] in *. rewrite Ht, Hv, Hc.
    vm_compute. reflexivity.
  - destruct (Hup false Examples.branching_search _ [] 0 1%float 0.5%float
                eq_refl) as [s [c [n [E [Hs [Hd K]]]]]].
    exists s.
    assert (Es : Some (tt, s) = Some (tt, s)) by reflexivity.
    rewrite <- E in Es at 1. vm_compute in Es. injection Es as Es.
    subst s. vm_compute in Hs. injection Hs as <- <-.
    destruct K as [s' [child [n' [Eb [Hs' Hd']]]]].
    + vm_compute. reflexivity.
    + match goal with |- sibling_test ?S ?N ?R false =>
        destruct (sibling_test_total S N R) as [pruned T]
      end.
      assert (Hp : pruned = false).
      { destruct T as [pass [w1 [Ev Es]]].
        vm_compute in Ev. injection Ev as <-.
        vm_compute in Es. injection Es as Hp _. symmetry. exact Hp. }
      rewrite <- Hp. exact T.
    + exists s', child, n'. split; [exact E|]. split; [exact Eb|].
      split; [exact Hs'|]. rewrite Hd'. vm_compute. reflexivity.
  - destruct (Hdown false Examples.branching_search _ [] 0 0%float 0.5%float
                eq_refl) as [s [c [n [E [Hs [Hd K]]]]]].
    exists s.
    assert (Es : Some (tt, s) = Some (tt, s)) by reflexivity.
    rewrite <- E in Es at 1. vm_compute in Es. injection Es as Es.
    subst s. vm_compute in Hs. injection Hs as <- <-.
    destruct K as [s' [child [n' [Eb [Hs' Hd']]]]].
    + vm_compute. reflexivity.
    + match goal with |- sibling_test ?S ?N ?R false =>
        destruct (sibling_test_total S N R) as [pruned T]
      end.
      assert (Hp : pruned = false).
      { destruct T as [pass [w1 [Ev Es]]].
        vm_compute in Ev. injection Ev as <-.
        vm_compute in Es. injection Es as Hp _. symmetry. exact Hp. }
      rewrite <- Hp. exact T.
    + exists s', child, n'. split; [exact E|]. split; [exact Eb|].
      split; [exact Hs'|]. rewrite Hd'. vm_compute. reflexivity.
Defined.

(** An infeasible root frame weighs 1; in [Examples.fixed_search] the
    sibling of the root frame is pruned, and [backtrack] returns with the
    weight one half. *)
Lemma pruned_subtree_counts_tree_weight_witness :
  (exists s',
     @evaluateNode Toy.env 1 Examples.infeasible_search
     = Some (kDomainInfeasible, s') /\
     treeweight s' = 1%float) /\
  (exists s',
     @backtrack Toy.env false Examples.fixed_search = Some (false, s') /\
     treeweight s' = 0.5%float).
Proof.
  destruct (@pruned_subtree_counts_tree_weight Toy.env) as [He [Hb _]].
  split.
  - destruct (@evaluateNode Toy.env 1 Examples.infeasible_search) as [[r s']|] eqn:E;
      [|vm_compute in E; discriminate].
    assert (Hr : r = kDomainInfeasible)
      by (vm_compute in E; inversion E; reflexivity).
    subst r. exists s'. split; [reflexivity|].
    destruct (He 1%nat Examples.infeasible_search _ _ E ltac:(discriminate))
      as [Hw _].
    rewrite Hw. vm_compute. reflexivity.
  - destruct (Hb false Examples.fixed_search _ _ [] eq_refl eq_refl
                eq_refl eq_refl)
      as [pruned [d [[pass [w1 [Ev Es]]] [Hd [_ [Hp _]]]]]].
    vm_compute in Ev. injection Ev as <-.
    vm_compute in Es. injection Es as <- _.
    destruct (Hp eq_refl) as [s2 [n' [_ [_ [_ [_ [_ [_ Hall]]]]]]]].
    destruct (Hall (Forall_nil _)) as [s' [_ [E [Hw _]]]].
    exists s'. split; [exact E|]. rewrite Hw, Hd. vm_compute. reflexivity.
Defined.


Lemma branching_search_unbranched :
  @unbranched Toy.env Examples.branching_search.
Proof. eexists _, _. split; reflexivity. Qed.

Lemma branch_pushes_the_decided_child_witness :
  exists s' child parent,
    @branch Toy.env 3 Examples.branching_search = Some (kBranched, s') /\
    nodestack s' = [child; parent] /\
    branchingdecision parent = mkDomChg 1%float 0 kLower /\
    branched_on s'.
Proof.
  destruct (@branch Toy.env 3 Examples.branching_search) as [[r s']|] eqn:E;
    [|vm_compute in E; discriminate].
  assert (Hr : r = kBranched /\
               exists child parent,
                 nodestack s' = [child; parent] /\
                 branchingdecision parent = mkDomChg 1%float 0 kLower).
  { vm_compute in E. injection E as <- <-. split; [reflexivity|].
    eexists _, _. split; reflexivity. }
  destruct Hr as [-> [child [parent [Hs Hb]]]].
  exists s', child, parent. split; [reflexivity|]. split; [exact Hs|].
  split; [exact Hb|].
  apply (@branch_pushes_the_decided_child Toy.env 3 Examples.branching_search s'
           branching_search_unbranched E).
Defined.
